(** * Daily English Test: quiz normalisation, scoring and spoken-word
      synchronisation of [src/App.tsx]

    A shallow embedding of the TypeScript of [src/App.tsx] (the variant with
    synchronised highlighting) and the properties of its specification.

    - JavaScript strings are sequences of UTF-16 code units: [jsstring] is
      [list N]; string literals are written [js "Dog"].
    - Arrays are lists; [a[i]] is [arrayGet a i : option _], [None] standing
      for [undefined].
    - Numbers are integers, or rationals where the source divides or
      compares with a decimal constant; the one expression whose value
      depends on floating-point rounding, the percentage of the results
      screen, is evaluated in binary64.
    - The component's React state, its refs and the browser's timer table
      form one record [State]; every callback of the source is a state
      transformer written in a small state monad. *)

From Stdlib Require Import String Ascii NArith ZArith QArith Qround Sorted Lia.
From Stdlib Require Import Floats Uint63.
From Stdlib Require Import DecimalString.
From stdpp Require Import gmap list.

Local Open Scope Z_scope.

(** ** JavaScript strings *)

Module JS.

Definition jsstring := list N.

(** A literal: the code units of an ASCII string. *)
Definition js (s : string) : jsstring :=
  N_of_ascii <$> list_ascii_of_string s.

(** [\s] of a regular expression, which is also what [trim] removes:
    WhiteSpace and LineTerminator of ECMAScript. *)
Definition isWhiteSpace (c : N) : bool :=
  ((9 <=? c) && (c <=? 13) || (c =? 32) || (c =? 160) || (c =? 5760)
   || (8192 <=? c) && (c <=? 8202) || (c =? 8232) || (c =? 8233)
   || (c =? 8239) || (c =? 8287) || (c =? 12288) || (c =? 65279))%N.

Fixpoint trimStart (s : jsstring) : jsstring :=
  match s with
  | c :: s' => if isWhiteSpace c then trimStart s' else s
  | [] => []
  end.

Definition trimEnd (s : jsstring) : jsstring :=
  reverse (trimStart (reverse s)).

(** [s.trim()] *)
Definition trim (s : jsstring) : jsstring := trimEnd (trimStart s).

Definition isUpper (c : N) : bool := ((65 <=? c) && (c <=? 90))%N.
Definition isLower (c : N) : bool := ((97 <=? c) && (c <=? 122))%N.

(** [/[A-Z]/i] on one code unit. Without the [u] flag a code unit above 127
    never canonicalises to an ASCII letter, so the class is exactly the
    ASCII letters of both cases. *)
Definition isAsciiLetter (c : N) : bool := isUpper c || isLower c.

(** [c.toUpperCase()] for an ASCII letter (identity on the other ASCII
    code units). *)
Definition toUpperUnit (c : N) : N := if isLower c then (c - 32)%N else c.

(** [c.toLowerCase()] on ASCII. *)
Definition toLowerUnit (c : N) : N := if isUpper c then (c + 32)%N else c.

(** [String.prototype.toLowerCase] restricted to ASCII text, where it
    lowers the letters A-Z and keeps every other code unit. The functions
    below take the lower-casing function as a parameter; this is the
    instance used on concrete ASCII inputs. *)
Definition toLowerCaseAscii (s : jsstring) : jsstring := toLowerUnit <$> s.

Definition eqUnits (a b : jsstring) : bool := bool_decide (a = b).

Fixpoint startsWith (p s : jsstring) : bool :=
  match p, s with
  | [], _ => true
  | a :: p', b :: s' => (a =? b)%N && startsWith p' s'
  | _ :: _, [] => false
  end.

(** [s.includes(p)] *)
Fixpoint includes (s p : jsstring) : bool :=
  startsWith p s ||
  match s with
  | [] => false
  | _ :: s' => includes s' p
  end.

(** [a[i]]: [undefined] out of range (and for an index that is not a
    non-negative integer). *)
Definition arrayGet {A} (a : list A) (i : Z) : option A :=
  if i <? 0 then None else a !! Z.to_nat i.

(** [a.findIndex(p)]: the first index whose element satisfies [p], or -1. *)
Fixpoint findIndex {A} (p : A -> bool) (a : list A) : Z :=
  match a with
  | [] => -1
  | x :: a' =>
      if p x then 0
      else let r := findIndex p a' in if r <? 0 then -1 else r + 1
  end.

(** [a ?? b] *)
Definition nullish {A} (a : option A) (b : A) : A := default b a.

(** Truthiness of a possibly undefined string. *)
Definition truthy (o : option jsstring) : bool :=
  match o with
  | Some (_ :: _) => true
  | _ => false
  end.

End JS.

Import JS.

(** ** Quiz normalisation ([stripLabel], [normalizeQuizData]) *)

(** The raw item as it arrives from the content service (type [AnyQuiz]);
    an optional field that is absent is [None]. *)
Module AnyQuiz.
Record t := mk {
  question : jsstring;
  options : option (list jsstring);
  correctAnswer : option jsstring;
  correct : option jsstring;
  answer : option jsstring;
  correctAnswerIndex : option Z
}.
End AnyQuiz.

Module QuizQuestion.
Record t := mk {
  question : jsstring;
  options : list jsstring;
  correctAnswer : jsstring
}.
End QuizQuestion.

Module Quiz.

(** [[A-D]] under the [i] flag. *)
Definition isLabelLetter (c : N) : bool :=
  ((65 <=? c) && (c <=? 68) || (97 <=? c) && (c <=? 100))%N.

(** The delimiter class: right parenthesis, dot, colon, hyphen. *)
Definition isLabelDelim (c : N) : bool :=
  ((c =? 41) || (c =? 46) || (c =? 58) || (c =? 45))%N.

(** The match of the label pattern of [stripLabel] (start of string, white
    space, one letter A-D in either case, white space, one delimiter among
    right parenthesis, dot, colon and hyphen, white space): what is left of
    the string after the matched prefix, [None] when there is no match. The
    three classes are disjoint, so the greedy match is the only one. *)
Definition matchLabel (s : jsstring) : option jsstring :=
  match trimStart s with
  | c :: r =>
      if isLabelLetter c then
        match trimStart r with
        | d :: r' => if isLabelDelim d then Some (trimStart r') else None
        | [] => None
        end
      else None
  | [] => None
  end.

(** [stripLabel]: the matched label replaced by the empty string, then
    [trim()]. *)
Definition stripLabel (s : jsstring) : jsstring :=
  trim (default s (matchLabel s)).

Section Normalize.

(** [String.prototype.toLowerCase] *)
Variable toLowerCase : jsstring -> jsstring.

(** [rawAns.match(/^[A-Z]/i)?.[0]]: the first code unit when it is an
    ASCII letter. *)
Definition leadingLetter (rawAns : jsstring) : option N :=
  match rawAns with
  | c :: _ => if isAsciiLetter c then Some c else None
  | [] => None
  end.

(** Step 3 of the source: exact text, then partial text, then option 0. *)
Definition pickByText (options : list jsstring) (rawAns : jsstring) : jsstring :=
  let norm := stripLabel rawAns in
  let idx := findIndex (fun o => eqUnits (toLowerCase o) (toLowerCase norm)) options in
  let idx :=
    if idx =? -1
    then findIndex (fun o => includes (toLowerCase o) (toLowerCase norm)) options
    else idx in
  if 0 <=? idx
  then nullish (arrayGet options idx) []
  else nullish (arrayGet options 0) [].

(** [options] and [rawAns] of the callback. *)
Definition strippedOptions (q : AnyQuiz.t) : list jsstring :=
  stripLabel <$> default [] (AnyQuiz.options q).

Definition rawAnswer (q : AnyQuiz.t) : jsstring :=
  trim (nullish (AnyQuiz.correctAnswer q)
          (nullish (AnyQuiz.correct q) (nullish (AnyQuiz.answer q) []))).

(** Step 1: [typeof q.correctAnswerIndex === 'number' &&
    options[q.correctAnswerIndex]], the option when the test is truthy. *)
Definition pickByIndex (options : list jsstring) (index : option Z)
    : option jsstring :=
  match index with
  | Some n => if truthy (arrayGet options n) then arrayGet options n else None
  | None => None
  end.

(** Step 2: the option of a leading letter. *)
Definition pickByLetter (options : list jsstring) (letter : N) : jsstring :=
  let idx := Z.of_N (toUpperUnit letter) - 65 in
  nullish (arrayGet options idx) (nullish (arrayGet options 0) []).

(** The body of the [raw.map] callback. *)
Definition normalizeQuestion (q : AnyQuiz.t) : QuizQuestion.t :=
  let options := strippedOptions q in
  let rawAns := rawAnswer q in
  match pickByIndex options (AnyQuiz.correctAnswerIndex q) with
  | Some o => QuizQuestion.mk (AnyQuiz.question q) options o
  | None =>
      match leadingLetter rawAns with
      | Some letter =>
          QuizQuestion.mk (AnyQuiz.question q) options (pickByLetter options letter)
      | None =>
          QuizQuestion.mk (AnyQuiz.question q) options (pickByText options rawAns)
      end
  end.

Definition normalizeQuizData (raw : list AnyQuiz.t) : list QuizQuestion.t :=
  normalizeQuestion <$> raw.

(** A normalised question seen again as raw input, as when the output of
    [normalizeQuizData] is passed through it a second time. *)
Definition asRaw (q : QuizQuestion.t) : AnyQuiz.t :=
  AnyQuiz.mk (QuizQuestion.question q) (Some (QuizQuestion.options q))
    (Some (QuizQuestion.correctAnswer q)) None None None.

End Normalize.

(** The answer is closed over the options: one of them, or the empty
    string when there are none. *)
Definition closedPick (options : list jsstring) (pick : jsstring) : Prop :=
  match options with
  | [] => pick = []
  | _ :: _ => pick ∈ options
  end.

(** A raw item with only its options and [correctAnswer] set. *)
Definition rawItem (options : list string) (ans : string) : AnyQuiz.t :=
  AnyQuiz.mk (js "Q") (Some (js <$> options)) (Some (js ans)) None None None.

End Quiz.

(** ** Scoring ([ResultsScreen]) *)

Module Results.

(** [a === b] for a string [a] and a possibly undefined [b]. *)
Definition strictEq (a : jsstring) (b : option jsstring) : bool :=
  bool_decide (b = Some a).

(** The [reduce] over the quiz, with its running [index] and accumulator. *)
Fixpoint scoreFrom (index : nat) (quiz : list QuizQuestion.t)
    (userAnswers : list jsstring) (acc : Z) : Z :=
  match quiz with
  | [] => acc
  | question :: rest =>
      scoreFrom (S index) rest userAnswers
        (acc + (if strictEq (QuizQuestion.correctAnswer question)
                             (userAnswers !! index) then 1 else 0))
  end.

Definition score (quiz : list QuizQuestion.t) (userAnswers : list jsstring) : Z :=
  scoreFrom 0 quiz userAnswers 0.

(** [Math.round] of a finite number: the nearest integer, a tie going up. *)
Definition Math_round (x : Q) : Z := Qfloor (x + (1 # 2)).

(** The exact value of a double; [None] for [NaN] and the infinities. *)
Definition exactOfFloat (x : float) : option Q :=
  match Prim2SF x with
  | S754_zero _ => Some 0%Q
  | S754_finite sgn m e =>
      Some ((if sgn then -1 else 1) * inject_Z (Z.pos m) * Qpower 2 e)%Q
  | _ => None
  end.

(** [Math.round((score / n) * 100)] as JavaScript evaluates it: the
    division and the product are binary64 operations, each rounded to the
    nearest double, and [Math.round] is applied to the double obtained.
    [None] is a result that is not a finite number, as the [NaN] of
    [0 / 0]. The integers are converted exactly below 2^53, which the
    length of an array never reaches. *)
Definition percentBinary64 (score n : Z) : option Z :=
  Math_round <$>
    exactOfFloat (PrimFloat.mul
                    (PrimFloat.div (PrimFloat.of_uint63 (Uint63.of_Z score))
                                   (PrimFloat.of_uint63 (Uint63.of_Z n)))
                    (PrimFloat.of_uint63 100)).

(** [percentage] of [ResultsScreen]:
    [Math.round((score / quiz.length) * 100)]. *)
Definition percentage (quiz : list QuizQuestion.t) (userAnswers : list jsstring)
    : option Z :=
  percentBinary64 (score quiz userAnswers) (Z.of_nat (length quiz)).

(** The percentage as the specification words it, [round(100 * score /
    questionCount)], in exact arithmetic. *)
Definition percentExact (score n : Z) : Z :=
  Math_round ((inject_Z score / inject_Z n) * inject_Z 100)%Q.

(** Every score [0 .. n] of every quiz of [1 .. N] questions passes
    [check]. *)
Definition everyScore (check : Z -> Z -> bool) (N : nat) : bool :=
  forallb (fun n =>
    forallb (fun s => check (Z.of_nat s) (Z.of_nat n)) (seq 0 (S n)))
    (seq 1 N).

(** The binary64 percentage is the exact one. *)
Definition agrees (s n : Z) : bool :=
  bool_decide (percentBinary64 s n = Some (percentExact s n)).

(** The binary64 percentage lies between 0 and 100, is 100 for a full
    score and 0 for the score 0 only, and reaches 80 and 50 at the scores
    at which the exact quotient reaches 79.5 and 49.5. *)
Definition inBounds (s n : Z) : bool :=
  match percentBinary64 s n with
  | Some p =>
      (0 <=? p) && (p <=? 100) && (negb (s =? n) || (p =? 100))
      && Bool.eqb (p =? 0) (s =? 0)
      && Bool.eqb (80 <=? p) (159 * n <=? 200 * s)
      && Bool.eqb (50 <=? p) (99 * n <=? 200 * s)
  | None => false
  end.

(** The answer given at index [i] is exactly the correct answer of
    question [i]. *)
Definition answeredCorrectly (quiz : list QuizQuestion.t)
    (userAnswers : list jsstring) (i : nat) : bool :=
  match quiz !! i, userAnswers !! i with
  | Some q, Some a => bool_decide (a = QuizQuestion.correctAnswer q)
  | _, _ => false
  end.

(** The indices at which the answer given is the correct one: the count the
    specification describes. *)
Definition correctIndices (quiz : list QuizQuestion.t) (userAnswers : list jsstring)
    : list nat :=
  List.filter (answeredCorrectly quiz userAnswers) (seq 0 (length quiz)).

(** A question of which only the correct answer matters. *)
Definition questionWith (ans : string) : QuizQuestion.t :=
  QuizQuestion.mk (js "Q") [] (js ans).

End Results.

(** ** Pacing profile ([getMsPerWord] and the pause constants) *)

Module Pacing.

(** The rate is a JavaScript number. A finite binary64 value is at most the
    double written [0.6] exactly when it is at most 6/10, and below the
    double written [1.1] exactly when it is below 11/10, so the comparisons
    are taken over the rationals. *)
Definition leq (x y : Q) : bool := Qle_bool x y.
Definition ltq (x y : Q) : bool := negb (Qle_bool y x).

Definition getMsPerWord (speechRate : Q) : Z :=
  if leq speechRate (6 # 10) then 420
  else if ltq speechRate (11 # 10) then 340
  else 150.

Definition PAUSE_MS_SENTENCE (rate : Q) : Z :=
  if leq rate (6 # 10) then 800 else 400.

Definition PAUSE_MS_COMMA (rate : Q) : Z :=
  if leq rate (6 # 10) then 200 else 100.

(** [/[.!?]$/] and [/[,:;]$/] on the one-unit string [lastChar]. *)
Definition isSentenceEnd (c : N) : bool := ((c =? 46) || (c =? 33) || (c =? 63))%N.
Definition isClauseEnd (c : N) : bool := ((c =? 44) || (c =? 58) || (c =? 59))%N.

(** The pause budget after the tick that moved the highlight past
    [previousWord]: [remainingPauseMs] keeps its value when the word is
    empty or ends in no punctuation. *)
Definition pauseAfter (rate : Q) (previousWord : option jsstring)
    (remainingPauseMs : Z) : Z :=
  match previousWord with
  | Some w =>
      match last w with
      | Some lastChar =>
          if isSentenceEnd lastChar then PAUSE_MS_SENTENCE rate
          else if isClauseEnd lastChar then PAUSE_MS_COMMA rate
          else remainingPauseMs
      | None => remainingPauseMs
      end
  | None => remainingPauseMs
  end.

(** The rates the two play buttons pass. *)
Definition supportedRates : list Q := [1; 1 # 2]%Q.

End Pacing.

(** ** Words of the story and the boundary-to-word mapping *)

Module Words.

(** [story.split(/\s+/).filter(Boolean)]: the maximal runs of code units
    that are not white space. [cur] is the word being read. *)
Fixpoint wordsFrom (cur : jsstring) (s : jsstring) : list jsstring :=
  match s with
  | [] => match cur with [] => [] | _ => [cur] end
  | c :: s' =>
      if isWhiteSpace c
      then match cur with [] => wordsFrom [] s' | _ => cur :: wordsFrom [] s' end
      else wordsFrom (cur ++ [c]) s'
  end.

Definition splitWords (story : jsstring) : list jsstring := wordsFrom [] story.

(** The loop of [utterance.onboundary]: [i] and [count] are its variables;
    the result is the argument of [setCurrentWordIndex], [None] when the
    loop ends without a call. *)
Fixpoint boundaryScan (words : list jsstring) (i count charIndex : nat)
    : option nat :=
  match words with
  | [] => None
  | w :: rest =>
      let count := (count + (length w + 1))%nat in
      if (charIndex <? count)%nat then Some i
      else boundaryScan rest (S i) count charIndex
  end.

Definition boundaryWord (words : list jsstring) (charIndex : nat) : option nat :=
  boundaryScan words 0 0 charIndex.

(** The cumulative length of the first [n] words, each counted with its
    separating space. *)
Definition cumulative (words : list jsstring) (n : nat) : nat :=
  sum_list ((fun w => (length w + 1)%nat) <$> take n words).

End Words.

(** ** Playback: state, timers and callbacks of [App] *)

Module Playback.

Import Pacing Words.

(** What a timer of the browser runs when it fires. The arguments are the
    variables its closure captured. *)
Inductive Timer :=
  (** [setTimeout(() => (stoppedByUserRef.current = false), 120)] *)
  | GraceReset
  (** [fallbackTimer]: [setTimeout(..., 900)] of [playSpeak] *)
  | FallbackDeadline (words : list jsstring) (rate : Q)
  (** [setTimeout(..., 60)] of the Android branch *)
  | SpeakAndroid (words : list jsstring) (rate : Q)
  (** [setTimeout(..., 60)] of the desktop branch *)
  | SpeakDesktop (words : list jsstring) (rate : Q) (fallbackTimer : positive)
  (** the [setInterval] of [startFallback], with its variables [i] and
      [remainingPauseMs] *)
  | Highlight (words : list jsstring) (rate : Q) (i : nat) (remainingPauseMs : Z).

(** An utterance handed to the speech driver, with what its handlers
    captured. The Android utterance has no [onboundary] handler. *)
Inductive Utterance :=
  | AndroidUtterance
  | DesktopUtterance (words : list jsstring) (fallbackTimer : positive).

Record State := mkState {
  (** environment *)
  story : jsstring;
  isAndroid : bool;             (* [/android/i.test(navigator.userAgent)] *)
  speakThrows : bool;           (* [speechSynthesis.speak] raises *)
  (** React state *)
  isSpeaking : bool;
  currentWordIndex : option nat;
  error : option jsstring;
  (** refs *)
  utteranceRef : option positive;
  stoppedByUserRef : bool;
  highlightTimerRef : option positive;
  firstBoundaryHeardRef : bool;
  isSpeakingRef : bool;
  (** browser: pending timeouts and running intervals by id, the next id,
      and the utterances the driver has been given *)
  timers : gmap positive Timer;
  nextId : positive;
  utterances : gmap positive Utterance;
  (** history: every argument of [setCurrentWordIndex] so far, oldest
      first; this is what the transcript view is rendered from *)
  published : list (option nat)
}.

(** The callbacks are state transformers that may return a value. *)
Definition M (A : Type) : Type := State -> A * State.

#[global] Instance M_ret : MRet M := fun A (x : A) s => (x, s).
#[global] Instance M_bind : MBind M :=
  fun A B (f : A -> M B) (m : M A) s => let '(x, s') := m s in f x s'.

Definition get : M State := fun s => (s, s).
Definition modify (f : State -> State) : M unit := fun s => (tt, f s).
Definition exec {A} (m : M A) (s : State) : State := (m s).2.
Definition skip : M unit := mret tt.

(** *** Assignments *)

Definition setIsSpeaking (b : bool) : M unit := modify (fun s =>
  mkState (story s) (isAndroid s) (speakThrows s) b (currentWordIndex s)
    (error s) (utteranceRef s) (stoppedByUserRef s) (highlightTimerRef s)
    (firstBoundaryHeardRef s) (isSpeakingRef s) (timers s) (nextId s)
    (utterances s) (published s)).

Definition setCurrentWordIndex (v : option nat) : M unit := modify (fun s =>
  mkState (story s) (isAndroid s) (speakThrows s) (isSpeaking s) v
    (error s) (utteranceRef s) (stoppedByUserRef s) (highlightTimerRef s)
    (firstBoundaryHeardRef s) (isSpeakingRef s) (timers s) (nextId s)
    (utterances s) (published s ++ [v])).

Definition setError (v : option jsstring) : M unit := modify (fun s =>
  mkState (story s) (isAndroid s) (speakThrows s) (isSpeaking s)
    (currentWordIndex s) v (utteranceRef s) (stoppedByUserRef s)
    (highlightTimerRef s) (firstBoundaryHeardRef s) (isSpeakingRef s)
    (timers s) (nextId s) (utterances s) (published s)).

Definition setUtteranceRef (v : option positive) : M unit := modify (fun s =>
  mkState (story s) (isAndroid s) (speakThrows s) (isSpeaking s)
    (currentWordIndex s) (error s) v (stoppedByUserRef s)
    (highlightTimerRef s) (firstBoundaryHeardRef s) (isSpeakingRef s)
    (timers s) (nextId s) (utterances s) (published s)).

Definition setStoppedByUserRef (b : bool) : M unit := modify (fun s =>
  mkState (story s) (isAndroid s) (speakThrows s) (isSpeaking s)
    (currentWordIndex s) (error s) (utteranceRef s) b
    (highlightTimerRef s) (firstBoundaryHeardRef s) (isSpeakingRef s)
    (timers s) (nextId s) (utterances s) (published s)).

Definition setHighlightTimerRef (v : option positive) : M unit := modify (fun s =>
  mkState (story s) (isAndroid s) (speakThrows s) (isSpeaking s)
    (currentWordIndex s) (error s) (utteranceRef s) (stoppedByUserRef s)
    v (firstBoundaryHeardRef s) (isSpeakingRef s)
    (timers s) (nextId s) (utterances s) (published s)).

Definition setFirstBoundaryHeardRef (b : bool) : M unit := modify (fun s =>
  mkState (story s) (isAndroid s) (speakThrows s) (isSpeaking s)
    (currentWordIndex s) (error s) (utteranceRef s) (stoppedByUserRef s)
    (highlightTimerRef s) b (isSpeakingRef s)
    (timers s) (nextId s) (utterances s) (published s)).

Definition setIsSpeakingRef (b : bool) : M unit := modify (fun s =>
  mkState (story s) (isAndroid s) (speakThrows s) (isSpeaking s)
    (currentWordIndex s) (error s) (utteranceRef s) (stoppedByUserRef s)
    (highlightTimerRef s) (firstBoundaryHeardRef s) b
    (timers s) (nextId s) (utterances s) (published s)).

Definition setTimers (t : gmap positive Timer) (n : positive) : M unit :=
  modify (fun s =>
  mkState (story s) (isAndroid s) (speakThrows s) (isSpeaking s)
    (currentWordIndex s) (error s) (utteranceRef s) (stoppedByUserRef s)
    (highlightTimerRef s) (firstBoundaryHeardRef s) (isSpeakingRef s)
    t n (utterances s) (published s)).

Definition setUtterances (u : gmap positive Utterance) : M unit := modify (fun s =>
  mkState (story s) (isAndroid s) (speakThrows s) (isSpeaking s)
    (currentWordIndex s) (error s) (utteranceRef s) (stoppedByUserRef s)
    (highlightTimerRef s) (firstBoundaryHeardRef s) (isSpeakingRef s)
    (timers s) (nextId s) u (published s)).

(** *** The browser's timers *)

(** [setTimeout] and [setInterval]: a fresh id, which is a positive
    integer, so an id stored in a ref is truthy. *)
Definition setTimer (t : Timer) : M positive :=
  s ← get;
  setTimers (<[nextId s := t]> (timers s)) (Pos.succ (nextId s)) ;;
  mret (nextId s).

(** [clearTimeout] and [clearInterval] *)
Definition clearTimer (id : positive) : M unit :=
  s ← get; setTimers (delete id (timers s)) (nextId s).

(** [speechSynthesis.cancel()]: the driver answers with [onend] or [onerror]
    callbacks of its own choosing, which are events of the environment;
    the call itself changes nothing the component holds. *)
Definition speechSynthesis_cancel : M unit := skip.

(** *** The callbacks of the component *)

Definition clearHighlightTimer : M unit :=
  s ← get;
  match highlightTimerRef s with
  | Some id => clearTimer id ;; setHighlightTimerRef None
  | None => skip
  end.

Definition stopSpeaking : M unit :=
  setStoppedByUserRef true ;;
  speechSynthesis_cancel ;;
  clearHighlightTimer ;;
  setIsSpeaking false ;;
  setCurrentWordIndex None ;;
  setError None ;;
  setUtteranceRef None ;;
  _ ← setTimer GraceReset;
  skip.

Definition startFallback (words : list jsstring) (rate : Q) : M unit :=
  setCurrentWordIndex (Some 0%nat) ;;
  id ← setTimer (Highlight words rate 0 0);
  setHighlightTimerRef (Some id).

(** One run of the interval callback of [startFallback]. The result is the
    value of [(i, remainingPauseMs)] when the callback returns. *)
Definition tick (words : list jsstring) (rate : Q) (i : nat)
    (remainingPauseMs : Z) : M (nat * Z) :=
  let msPerWord := getMsPerWord rate in
  s ← get;
  if negb (isSpeakingRef s) then
    clearHighlightTimer ;; mret (i, remainingPauseMs)
  else
    let advance (i : nat) (remainingPauseMs : Z) : M (nat * Z) :=
      if (length words <=? i)%nat then
        clearHighlightTimer ;;
        setIsSpeaking false ;;
        setCurrentWordIndex None ;;
        mret (i, remainingPauseMs)
      else
        setCurrentWordIndex (Some i) ;;
        mret (i, pauseAfter rate (words !! (i - 1)%nat) remainingPauseMs) in
    if 0 <? remainingPauseMs then
      let remainingPauseMs := remainingPauseMs - msPerWord in
      if remainingPauseMs <=? 0 then advance (S i) 0
      else mret (i, remainingPauseMs)
    else advance (S i) remainingPauseMs.

Definition audioUnsupported : jsstring :=
  js "Could not play audio. Your browser may not support this feature.".
Definition audioNotGenerated : jsstring :=
  js "Audio could not be generated. Please try again.".

(** [utterance.onend] *)
Definition onend (u : Utterance) : M unit :=
  match u with
  | DesktopUtterance _ fallbackTimer => clearTimer fallbackTimer
  | AndroidUtterance => skip
  end ;;
  clearHighlightTimer ;;
  setIsSpeaking false ;;
  setCurrentWordIndex None.

(** [utterance.onerror]; [err] is [e?.error || ''] *)
Definition onerror (u : Utterance) (err : jsstring) : M unit :=
  match u with
  | DesktopUtterance _ fallbackTimer => clearTimer fallbackTimer
  | AndroidUtterance => skip
  end ;;
  clearHighlightTimer ;;
  s ← get;
  if stoppedByUserRef s || eqUnits err (js "interrupted")
     || eqUnits err (js "canceled")
  then setIsSpeaking false ;; setCurrentWordIndex None
  else
    setError (Some audioUnsupported) ;;
    setIsSpeaking false ;;
    setCurrentWordIndex None.

(** [utterance.onboundary], which only the desktop utterance has;
    [charIndex] is [e?.charIndex ?? 0] *)
Definition onboundary (u : Utterance) (charIndex : nat) : M unit :=
  match u with
  | AndroidUtterance => skip
  | DesktopUtterance words fallbackTimer =>
      s ← get;
      (if negb (firstBoundaryHeardRef s) then
         setFirstBoundaryHeardRef true ;;
         clearTimer fallbackTimer ;;
         clearHighlightTimer
       else skip) ;;
      match boundaryWord words charIndex with
      | Some i => setCurrentWordIndex (Some i)
      | None => skip
      end
  end.

(** [new SpeechSynthesisUtterance(story)]: the model names the object by a
    fresh id. *)
Definition newUtterance : M positive :=
  s ← get;
  setTimers (timers s) (Pos.succ (nextId s)) ;;
  mret (nextId s).

(** [speechSynthesis.speak(utterance)]: [false] when the call raises;
    otherwise the driver holds the utterance and its handlers. *)
Definition speak (id : positive) (u : Utterance) : M bool :=
  s ← get;
  if speakThrows s then mret false
  else setUtterances (<[id := u]> (utterances s)) ;; mret true.

(** The body of the 60 ms timeout of the Android branch. *)
Definition speakAndroid (words : list jsstring) (rate : Q) : M unit :=
  id ← newUtterance;
  setUtteranceRef (Some id) ;;
  ok ← speak id AndroidUtterance;
  if ok : bool then setIsSpeaking true ;; startFallback words rate
  else setError (Some audioNotGenerated) ;; setIsSpeaking false.

(** The body of the 60 ms timeout of the desktop branch. *)
Definition speakDesktop (words : list jsstring) (rate : Q)
    (fallbackTimer : positive) : M unit :=
  id ← newUtterance;
  setUtteranceRef (Some id) ;;
  ok ← speak id (DesktopUtterance words fallbackTimer);
  if ok : bool then setIsSpeaking true
  else
    clearTimer fallbackTimer ;;
    setError (Some audioNotGenerated) ;;
    setIsSpeaking false.

Definition playSpeak (rate : Q) : M unit :=
  s ← get;
  match story s with
  | [] => skip
  | _ :: _ =>
      setError None ;;
      setStoppedByUserRef false ;;
      speechSynthesis_cancel ;;
      clearHighlightTimer ;;
      setIsSpeaking false ;;
      setCurrentWordIndex None ;;
      setFirstBoundaryHeardRef false ;;
      let words := splitWords (story s) in
      if isAndroid s then
        _ ← setTimer (SpeakAndroid words rate); skip
      else
        fallbackTimer ← setTimer (FallbackDeadline words rate);
        _ ← setTimer (SpeakDesktop words rate fallbackTimer);
        skip
  end.

(** The two effects on [isSpeaking], run when a render commits a changed
    value: the clean-up of the previous [useEffect] calls [stopSpeaking]
    when the value it captured was [true], then [isSpeakingRef] takes the
    new value. [isSpeakingRef] holds the value of the last commit. *)
Definition render : M unit :=
  s ← get;
  if bool_decide (isSpeakingRef s = isSpeaking s) then skip
  else
    (if isSpeakingRef s then stopSpeaking else skip) ;;
    s' ← get;
    setIsSpeakingRef (isSpeaking s').

(** *** Events *)

(** A timer fires: a timeout leaves the table before its body runs; an
    interval stays, with the variables of its closure as the callback left
    them, unless the callback cleared it. *)
Definition fire (id : positive) : M unit :=
  s ← get;
  match timers s !! id with
  | None => skip
  | Some GraceReset => clearTimer id ;; setStoppedByUserRef false
  | Some (FallbackDeadline words rate) =>
      clearTimer id ;;
      s' ← get;
      if negb (firstBoundaryHeardRef s') then startFallback words rate else skip
  | Some (SpeakAndroid words rate) => clearTimer id ;; speakAndroid words rate
  | Some (SpeakDesktop words rate fallbackTimer) =>
      clearTimer id ;; speakDesktop words rate fallbackTimer
  | Some (Highlight words rate i remainingPauseMs) =>
      '(i', remainingPauseMs') ← tick words rate i remainingPauseMs;
      s' ← get;
      setTimers (alter (fun _ => Highlight words rate i' remainingPauseMs') id
                   (timers s')) (nextId s')
  end.

(** What can happen to the component: the two play buttons and the stop
    button, a committed render, a timer firing, a callback of the driver
    on an utterance it was given. *)
Inductive Event :=
  | Play (rate : Q)
  | Stop
  | Render
  | Fire (id : positive)
  | Boundary (u : positive) (charIndex : nat)
  | End (u : positive)
  | Error (u : positive) (err : jsstring).

Definition withUtterance (u : positive) (k : Utterance -> M unit) : M unit :=
  s ← get;
  match utterances s !! u with
  | Some ut => k ut
  | None => skip
  end.

(** After its [end] or [error] event the driver fires no further event on
    an utterance. *)
Definition forget (u : positive) : M unit :=
  s ← get; setUtterances (delete u (utterances s)).

Definition handle (e : Event) : M unit :=
  match e with
  | Play rate => playSpeak rate
  | Stop => stopSpeaking
  | Render => render
  | Fire id => fire id
  | Boundary u charIndex => withUtterance u (fun ut => onboundary ut charIndex)
  | End u => withUtterance u (fun ut => onend ut ;; forget u)
  | Error u err => withUtterance u (fun ut => onerror ut err ;; forget u)
  end.

Definition step (s : State) (e : Event) : State := exec (handle e) s.

Definition run (s : State) (tr : list Event) : State := foldl step s tr.

(** The component as mounted, with a story loaded. *)
Definition initial (story : jsstring) (android throws : bool) : State :=
  mkState story android throws false None None None false None false false
    ∅ 1%positive ∅ [].

End Playback.

(** ** Statements about runs of the playback machine *)

Module PlaybackSpec.

Import Playback.

(** The interval [id] of [startFallback] is the registered one and shows
    word [i], with [pause] ms of pause left; the session is live and [log]
    is what has been published. *)
Definition Running (words : list jsstring) (rate : Q) (id : positive) (i : nat)
    (pause : Z) (log : list (option nat)) (s : State) : Prop :=
  timers s !! id = Some (Highlight words rate i pause) /\
  highlightTimerRef s = Some id /\ isSpeakingRef s = true /\ published s = log.

(** Fallback pacing has ended by itself: the interval is cleared, the
    component is idle and [log] is what has been published. *)
Definition Finished (id : positive) (log : list (option nat)) (s : State) : Prop :=
  timers s !! id = None /\ highlightTimerRef s = None /\
  isSpeaking s = false /\ currentWordIndex s = None /\ published s = log.

(** [n] firings of the interval [id]. *)
Definition ticks (id : positive) (n : nat) : list Event := replicate n (Fire id).

End PlaybackSpec.

(** ** Statements about the grace window and about one session *)

Module SessionSpec.

Import Playback.

(** The events of [tr], run from [s], leave the stopped-by-user flag to the
    stop that set it: play is not pressed, and no 120 ms reset timeout
    fires. *)
Fixpoint withinGrace (s : State) (tr : list Event) : Prop :=
  match tr with
  | [] => True
  | e :: tr' =>
      match e with
      | Play _ => False
      | Fire id => timers s !! id <> Some GraceReset
      | _ => True
      end /\ withinGrace (step s e) tr'
  end.

(** No interval of [startFallback] is running. *)
Definition noHighlight (T : gmap positive Timer) : Prop :=
  forall id words rate i pause, T !! id <> Some (Highlight words rate i pause).

(** No earlier session is in flight: the driver holds no utterance and the
    only timers pending are reset timeouts of earlier stops. *)
Definition quiescent (s : State) : Prop :=
  story s <> [] /\ utterances s = ∅ /\
  map_Forall (fun _ t => t = GraceReset) (timers s).

(** The trace has no press of a play button. *)
Definition noPlay (tr : list Event) : Prop :=
  Forall (fun e => match e with Play _ => False | _ => True end) tr.

(** What holds of every timer of one session. [d] is the id of the timer
    that starts the fallback: the arbitration deadline on desktop, the
    delayed start on Android. A timer of that kind is that one; the delayed
    desktop start refers to it; an interval runs only once it is gone and is
    the one [highlightTimerRef] holds. *)
Definition timerOk (android : bool) (d : positive) (ref : option positive)
    (T : gmap positive Timer) (id : positive) (t : Timer) : Prop :=
  match t with
  | GraceReset => True
  | FallbackDeadline _ _ => android = false /\ id = d
  | SpeakAndroid _ _ => android = true /\ id = d
  | SpeakDesktop _ _ fallbackTimer => android = false /\ fallbackTimer = d
  | Highlight _ _ _ _ => ref = Some id /\ T !! d = None
  end.

(** The handlers of an utterance of the session captured [d]. *)
Definition utteranceOk (android : bool) (d : positive) (ut : Utterance) : Prop :=
  match ut with
  | AndroidUtterance => android = true
  | DesktopUtterance _ fallbackTimer => android = false /\ fallbackTimer = d
  end.

(** The invariant of one session, on the parts of the state it speaks of:
    once a boundary was heard (on desktop only) the deadline is gone and no
    interval is registered. *)
Definition session (android : bool) (d : positive) (ref : option positive)
    (heard : bool) (T : gmap positive Timer) (U : gmap positive Utterance)
    (next : positive) : Prop :=
  (d < next)%positive /\
  map_Forall (timerOk android d ref T) T /\
  map_Forall (fun _ => utteranceOk android d) U /\
  (heard = true -> android = false /\ T !! d = None /\ ref = None).

Definition sessionInv (d : positive) (s : State) : Prop :=
  session (isAndroid s) d (highlightTimerRef s) (firstBoundaryHeardRef s)
    (timers s) (utterances s) (nextId s).

(** Only reset timeouts and a delayed desktop start are pending. *)
Definition fallbackCancelled (s : State) : Prop :=
  map_Forall (fun _ t => t = GraceReset \/
                exists words rate d, t = SpeakDesktop words rate d) (timers s).

End SessionSpec.

(** ** A program logic for the callbacks *)

Module Logic.

Import Playback.

(** Run from a state satisfying [P], the callback [m] ends in a state that
    satisfies [Q] of its result. *)
Definition hoare {A} (P : State -> Prop) (m : M A) (Q : A -> State -> Prop)
    : Prop :=
  forall s, P s -> Q (m s).1 (m s).2.

(** The callback preserves [P]. *)
Definition keeps {A} (P : State -> Prop) (m : M A) : Prop :=
  hoare P m (fun _ => P).

(** While the stopped-by-user flag is set no error message appears, as long
    as [speak] does not raise ([quiet] selects this second part). *)
Definition flagged (quiet : bool) (s : State) : Prop :=
  stoppedByUserRef s = true /\
  (quiet = true -> error s = None /\ speakThrows s = false).

End Logic.

(** ** Phrases of the story ([chunkStoryToPhrases], [currentPhraseIndex]) *)

Module Phrases.

Import Pacing Words.

(** [a.join(' ')] *)
Fixpoint join (a : list jsstring) : jsstring :=
  match a with
  | [] => []
  | w :: rest =>
      match rest with
      | [] => w
      | _ :: _ => w ++ 32%N :: join rest
      end
  end.

(** [s.split(/\s+/)], without the [filter(Boolean)] of [splitWords]: the
    fields between the maximal runs of white space, the first and the last
    one empty when the string begins or ends with white space; the empty
    string has one field. [inSeparator] tells that the code unit before was
    white space, [cur] is the field being read. *)
Fixpoint splitFrom (inSeparator : bool) (cur : jsstring) (s : jsstring)
    : list jsstring :=
  match s with
  | [] => [cur]
  | c :: s' =>
      if isWhiteSpace c
      then if inSeparator then splitFrom true [] s'
           else cur :: splitFrom true [] s'
      else splitFrom false (cur ++ [c]) s'
  end.

Definition split (s : jsstring) : list jsstring := splitFrom false [] s.

(** [/[.!?]$/.test(w)] *)
Definition endsSentence (w : jsstring) : bool :=
  match last w with
  | Some c => isSentenceEnd c
  | None => false
  end.

(** The [for] loop of [chunkStoryToPhrases] over the tokens that are left,
    with its variables [out] and [buf], and the final push. *)
Fixpoint chunkLoop (target : Z) (tokens : list jsstring)
    (out : list jsstring) (buf : list jsstring) : list jsstring :=
  match tokens with
  | [] =>
      match buf with
      | [] => out
      | _ :: _ => out ++ [join buf]
      end
  | w :: tokens' =>
      let buf := buf ++ [w] in
      if (target <=? Z.of_nat (length buf)) || endsSentence w
      then chunkLoop target tokens' (out ++ [join buf]) []
      else chunkLoop target tokens' out buf
  end.

(** [target] is a number; the component passes 6. *)
Definition chunkStoryToPhrases (text : jsstring) (target : Z) : list jsstring :=
  match text with
  | [] => []
  | _ :: _ => chunkLoop target (splitWords text) [] []
  end.

(** [counts] and [totalWords] of [currentPhraseIndex] *)
Definition counts (phrases : list jsstring) : list Z :=
  (fun p => Z.of_nat (length (split p))) <$> phrases.

Definition totalWords (phrases : list jsstring) : Z :=
  foldl Z.add 0 (counts phrases).

(** The loop of [currentPhraseIndex], with its variables [i] and [acc]:
    the index it returns, [None] when it ends without returning. *)
Fixpoint phraseScan (counts : list Z) (i acc effectiveWordIndex : Z)
    : option Z :=
  match counts with
  | [] => None
  | c :: rest =>
      let acc := acc + c in
      if effectiveWordIndex <? acc then Some i
      else phraseScan rest (i + 1) acc effectiveWordIndex
  end.

(** [currentWordIndex] holds [null] or a word index, on which [Math.floor]
    is the identity. *)
Definition currentPhraseIndex (phrases : list jsstring)
    (currentWordIndex : option nat) : Z :=
  match phrases, currentWordIndex with
  | [], _ => -1
  | _ :: _, None => -1
  | _ :: _, Some k =>
      let effectiveWordIndex :=
        Z.min (totalWords phrases - 1) (Z.max 0 (Z.of_nat k)) in
      default (Z.of_nat (length phrases) - 1)
        (phraseScan (counts phrases) 0 0 effectiveWordIndex)
  end.

(** The phrases the component computes for its story. *)
Definition phrases (story : jsstring) : list jsstring :=
  chunkStoryToPhrases story 6.

End Phrases.

(** ** Statements about words and phrases *)

Module WordsSpec.

Import Words Phrases.

(** A word: not empty, and without white space. *)
Definition isWord (w : jsstring) : Prop :=
  w <> [] /\ Forall (fun c => isWhiteSpace c = false) w.

(** The words of the phrases before phrase [i], put together. *)
Definition wordsBefore (phrases : list jsstring) (i : nat) : list jsstring :=
  concat (split <$> take i phrases).

(** The phrase is closed by the loop: it is full, or its last word ends a
    sentence. *)
Definition closedPhrase (target : Z) (p : jsstring) : Prop :=
  target <= Z.of_nat (length (split p)) \/
  exists w, last (split p) = Some w /\ endsSentence w = true.

(** A sentence end is found only on the last word of the phrase. *)
Definition endsOnlyAtEnd (p : jsstring) : Prop :=
  forall i w, split p !! i = Some w -> endsSentence w = true ->
    S i = length (split p).

(** What the loop keeps of a phrase it has pushed. *)
Definition goodPhrase (target : Z) (p : jsstring) : Prop :=
  Forall isWord (split p) /\
  Z.of_nat (length (split p)) <= Z.max 1 target /\
  endsOnlyAtEnd p.

End WordsSpec.

(** ** Letters and feedback of the quiz and results screens *)

Module Screens.

(** [getLetter]: [String.fromCharCode(65 + idx)], the code unit being taken
    modulo 2^16. *)
Definition getLetter (idx : Z) : jsstring := [Z.to_N ((65 + idx) mod 65536)].

(** [userLetter] and [correctLetter] of the results list: the letter of the
    first option that is [===] to the text, [None] for [null]. *)
Definition letterOf (options : list jsstring) (text : option jsstring)
    : option jsstring :=
  let idx := findIndex (fun o => Results.strictEq o text) options in
  if 0 <=? idx then Some (getLetter idx) else None.

Definition keepPracticing : jsstring := js "Keep practicing!".
Definition excellentJob : jsstring := js "Excellent job!".
Definition goodEffort : jsstring := js "Good effort!".

(** [feedback] of [ResultsScreen]; a comparison with [NaN] is false. *)
Definition feedback (percentage : option Z) : jsstring :=
  match percentage with
  | Some p =>
      if 80 <=? p then excellentJob
      else if 50 <=? p then goodEffort
      else keepPracticing
  | None => keepPracticing
  end.

(** A raw item with its options and a [correctAnswer], as the content
    service sends it. *)
Definition rawQuestion (question : jsstring) (options : list jsstring)
    (correctAnswer : jsstring) : AnyQuiz.t :=
  AnyQuiz.mk question (Some options) (Some correctAnswer) None None None.

(** The item without its [correctAnswerIndex]. *)
Definition withoutIndex (q : AnyQuiz.t) : AnyQuiz.t :=
  AnyQuiz.mk (AnyQuiz.question q) (AnyQuiz.options q) (AnyQuiz.correctAnswer q)
    (AnyQuiz.correct q) (AnyQuiz.answer q) None.

End Screens.

(** ** Statements about the life of one session *)

Module LifecycleSpec.

Import Playback SessionSpec.

(** The id of the delayed start of the session whose first timer is [d]:
    on Android it is that timer, on desktop the one set after the
    arbitration deadline. *)
Definition startId (android : bool) (d : positive) : positive :=
  if android then d else Pos.succ d.

(** A delayed start, of either branch. *)
Definition isStart (t : Timer) : Prop :=
  match t with
  | SpeakAndroid _ _ | SpeakDesktop _ _ _ => True
  | _ => False
  end.

(** The delayed start is the only timer of its kind; while it is pending
    the driver holds no utterance, and it never holds more than one. *)
Definition life (android : bool) (d : positive) (T : gmap positive Timer)
    (U : gmap positive Utterance) (next : positive) : Prop :=
  let st := startId android d in
  (st < next)%positive /\
  (forall id t, T !! id = Some t -> isStart t -> id = st) /\
  (is_Some (T !! st) -> U = ∅) /\
  (forall u u', is_Some (U !! u) -> is_Some (U !! u') -> u = u').

Definition lifecycle (d : positive) (s : State) : Prop :=
  story s <> [] /\
  life (isAndroid s) d (timers s) (utterances s) (nextId s).

(** The state of a session begun by a press of play with no earlier
    session in flight. *)
Definition inSession (d : positive) (s : State) : Prop :=
  sessionInv d s /\ lifecycle d s.

End LifecycleSpec.

(** ** Statements about the duration of the fallback pacing *)

Module PacingSpec.

Import Pacing Words.

(** The ticks the highlight rests on a word that was reached with [pause]
    ms of pause to spend: one, and one more for every tick the pause
    outlasts. [fuel] bounds the count. *)
Fixpoint restTicks (fuel : nat) (msPerWord pause : Z) : nat :=
  match fuel with
  | O => 1
  | S fuel' =>
      if (0 <? pause) && negb (pause - msPerWord <=? 0)
      then S (restTicks fuel' msPerWord (pause - msPerWord))
      else 1
  end.

(** The pause with which word [i] is reached: none for the first word,
    then the one the word before calls for. *)
Definition pauseAt (rate : Q) (words : list jsstring) (i : nat) : Z :=
  match i with
  | O => 0
  | S j => pauseAfter rate (words !! j) 0
  end.

Definition rest (rate : Q) (words : list jsstring) (i : nat) : nat :=
  restTicks 6 (getMsPerWord rate) (pauseAt rate words i).

(** The ticks from the start of the fallback to its end. *)
Definition fallbackTicks (rate : Q) (words : list jsstring) : nat :=
  sum_list (rest rate words <$> seq 0 (length words)).

(** The ticks the end of a sentence adds. *)
Definition sentencePauseTicks (rate : Q) : nat :=
  if ltq rate (11 # 10) then 1 else 2.

End PacingSpec.

(** ** The component: views, quiz flow and handlers of [App] *)

Module VocabularyItem.
Record t := mk {
  word : jsstring;
  definition : jsstring
}.
End VocabularyItem.

Module ConfigOptions.
Record t := mk {
  level : jsstring;
  topic : jsstring;
  wordCount : Z;
  questionCount : Z
}.
End ConfigOptions.

Module App.

Inductive AppView := ViewConfig | ViewStory | ViewQuiz | ViewResults.
Inductive PracticeType := Reading | Listening.

(** The React state of [App] that the claims on playback leave out; the
    states [story], [error], [isSpeaking] and [currentWordIndex], the refs
    and the browser are those of [player]. *)
Record State := mkApp {
  view : AppView;
  practiceType : PracticeType;
  config : ConfigOptions.t;
  quiz : list QuizQuestion.t;
  vocabulary : list VocabularyItem.t;
  (** an entry is a string or [undefined] *)
  userAnswers : list (option jsstring);
  currentQuestionIndex : nat;
  isLoading : bool;
  isVocabularyModalOpen : bool;
  showTranscript : bool;
  player : Playback.State
}.

(** *** Assignments *)

Definition setView (v : AppView) (s : State) : State :=
  mkApp v (practiceType s) (config s) (quiz s) (vocabulary s) (userAnswers s)
    (currentQuestionIndex s) (isLoading s) (isVocabularyModalOpen s)
    (showTranscript s) (player s).

Definition setPracticeType (v : PracticeType) (s : State) : State :=
  mkApp (view s) v (config s) (quiz s) (vocabulary s) (userAnswers s)
    (currentQuestionIndex s) (isLoading s) (isVocabularyModalOpen s)
    (showTranscript s) (player s).

Definition setConfig (v : ConfigOptions.t) (s : State) : State :=
  mkApp (view s) (practiceType s) v (quiz s) (vocabulary s) (userAnswers s)
    (currentQuestionIndex s) (isLoading s) (isVocabularyModalOpen s)
    (showTranscript s) (player s).

Definition setQuiz (v : list QuizQuestion.t) (s : State) : State :=
  mkApp (view s) (practiceType s) (config s) v (vocabulary s) (userAnswers s)
    (currentQuestionIndex s) (isLoading s) (isVocabularyModalOpen s)
    (showTranscript s) (player s).

Definition setVocabulary (v : list VocabularyItem.t) (s : State) : State :=
  mkApp (view s) (practiceType s) (config s) (quiz s) v (userAnswers s)
    (currentQuestionIndex s) (isLoading s) (isVocabularyModalOpen s)
    (showTranscript s) (player s).

Definition setUserAnswers (v : list (option jsstring)) (s : State) : State :=
  mkApp (view s) (practiceType s) (config s) (quiz s) (vocabulary s) v
    (currentQuestionIndex s) (isLoading s) (isVocabularyModalOpen s)
    (showTranscript s) (player s).

Definition setCurrentQuestionIndex (v : nat) (s : State) : State :=
  mkApp (view s) (practiceType s) (config s) (quiz s) (vocabulary s)
    (userAnswers s) v (isLoading s) (isVocabularyModalOpen s)
    (showTranscript s) (player s).

Definition setIsLoading (v : bool) (s : State) : State :=
  mkApp (view s) (practiceType s) (config s) (quiz s) (vocabulary s)
    (userAnswers s) (currentQuestionIndex s) v (isVocabularyModalOpen s)
    (showTranscript s) (player s).

Definition setIsVocabularyModalOpen (v : bool) (s : State) : State :=
  mkApp (view s) (practiceType s) (config s) (quiz s) (vocabulary s)
    (userAnswers s) (currentQuestionIndex s) (isLoading s) v
    (showTranscript s) (player s).

Definition setShowTranscript (v : bool) (s : State) : State :=
  mkApp (view s) (practiceType s) (config s) (quiz s) (vocabulary s)
    (userAnswers s) (currentQuestionIndex s) (isLoading s)
    (isVocabularyModalOpen s) v (player s).

(** A callback of the playback part, run on [player]. *)
Definition onPlayer (m : Playback.M unit) (s : State) : State :=
  mkApp (view s) (practiceType s) (config s) (quiz s) (vocabulary s)
    (userAnswers s) (currentQuestionIndex s) (isLoading s)
    (isVocabularyModalOpen s) (showTranscript s) (Playback.exec m (player s)).

Definition setStory (v : jsstring) : Playback.M unit :=
  Playback.modify (fun p =>
    Playback.mkState v (Playback.isAndroid p) (Playback.speakThrows p)
      (Playback.isSpeaking p) (Playback.currentWordIndex p) (Playback.error p)
      (Playback.utteranceRef p) (Playback.stoppedByUserRef p)
      (Playback.highlightTimerRef p) (Playback.firstBoundaryHeardRef p)
      (Playback.isSpeakingRef p) (Playback.timers p) (Playback.nextId p)
      (Playback.utterances p) (Playback.published p)).

(** *** Arrays with holes *)

(** [a[i] = v] on a copy of [a]: beyond the end the array grows, the
    entries in between being [undefined]. *)
Definition arraySet {A} (a : list (option A)) (i : nat) (v : A)
    : list (option A) :=
  if (i <? length a)%nat then <[i := Some v]> a
  else a ++ replicate (i - length a) None ++ [Some v].

(** [userAnswers[i]]: [undefined] for a hole and beyond the end. *)
Definition answerAt (userAnswers : list (option jsstring)) (i : nat)
    : option jsstring :=
  mjoin (userAnswers !! i).

(** *** Handlers *)

(** The value of [isSpeaking] a handler sees is the one of the render that
    created the handler; [isSpeakingRef] holds the value of the last
    render. *)
Definition renderedIsSpeaking (s : State) : bool :=
  Playback.isSpeakingRef (player s).

(** What [generateStoryAndQuiz] resolves to. *)
Record Generated := mkGenerated {
  g_story : jsstring;
  g_quiz : list AnyQuiz.t;
  g_vocabulary : list VocabularyItem.t
}.

Definition unknownError : jsstring := js "An unknown error occurred.".

Section Handlers.

Variable toLowerCase : jsstring -> jsstring.

(** [handleGenerate] up to its [await] *)
Definition handleGenerate (s : State) : State :=
  let s := setIsLoading true s in
  onPlayer (Playback.setError None) s.

(** [handleGenerate] after the [await], when the promise is fulfilled *)
Definition handleGenerate_fulfilled (result : Generated) (s : State) : State :=
  let s := onPlayer (setStory (g_story result)) s in
  let normalizedQuiz := Quiz.normalizeQuizData toLowerCase (g_quiz result) in
  let s := setQuiz normalizedQuiz s in
  let s := setVocabulary (g_vocabulary result) s in
  let s := setUserAnswers (replicate (length normalizedQuiz) (Some [])) s in
  let s := setView ViewStory s in
  setIsLoading false s.

(** [handleGenerate] after the [await], when the promise is rejected;
    [message] is the message of the value thrown when it is an [Error]. *)
Definition handleGenerate_rejected (message : option jsstring) (s : State)
    : State :=
  let s := onPlayer (Playback.setError (Some (default unknownError message))) s in
  let s := setView ViewConfig s in
  setIsLoading false s.

Definition handleAnswerSelect (answer : jsstring) (s : State) : State :=
  let newAnswers := arraySet (userAnswers s) (currentQuestionIndex s) answer in
  setUserAnswers newAnswers s.

Definition handleNextQuestion (s : State) : State :=
  if Z.of_nat (currentQuestionIndex s) <? Z.of_nat (length (quiz s)) - 1
  then setCurrentQuestionIndex (currentQuestionIndex s + 1) s
  else setView ViewResults s.

Definition startQuiz (s : State) : State :=
  let isSpeaking := renderedIsSpeaking s in
  let s := setCurrentQuestionIndex 0 s in
  let s := setView ViewQuiz s in
  if isSpeaking then onPlayer Playback.stopSpeaking s else s.

Definition resetApp (s : State) : State :=
  let isSpeaking := renderedIsSpeaking s in
  let s := setView ViewConfig s in
  let s := onPlayer (setStory []) s in
  let s := setQuiz [] s in
  let s := setVocabulary [] s in
  let s := setUserAnswers [] s in
  let s := setCurrentQuestionIndex 0 s in
  let s := onPlayer (Playback.setError None) s in
  let s := setIsVocabularyModalOpen false s in
  let s := setShowTranscript false s in
  let s := onPlayer (Playback.setCurrentWordIndex None) s in
  if isSpeaking then onPlayer Playback.stopSpeaking s else s.

(** [handleConfigChange] of the configurator, for each of its selects *)
Definition handleConfigChange_level (v : jsstring) (s : State) : State :=
  setConfig (ConfigOptions.mk v (ConfigOptions.topic (config s))
               (ConfigOptions.wordCount (config s))
               (ConfigOptions.questionCount (config s))) s.

Definition handleConfigChange_topic (v : jsstring) (s : State) : State :=
  setConfig (ConfigOptions.mk (ConfigOptions.level (config s)) v
               (ConfigOptions.wordCount (config s))
               (ConfigOptions.questionCount (config s))) s.

Definition handleConfigChange_wordCount (v : Z) (s : State) : State :=
  setConfig (ConfigOptions.mk (ConfigOptions.level (config s))
               (ConfigOptions.topic (config s)) v
               (ConfigOptions.questionCount (config s))) s.

Definition handleConfigChange_questionCount (v : Z) (s : State) : State :=
  setConfig (ConfigOptions.mk (ConfigOptions.level (config s))
               (ConfigOptions.topic (config s))
               (ConfigOptions.wordCount (config s)) v) s.

(** *** Screens *)

(** [question] of [QuizScreen]; the screen reads [question.question], and
    cannot be rendered when it is [undefined]. *)
Definition question (s : State) : option QuizQuestion.t :=
  quiz s !! currentQuestionIndex s.

(** The buttons and selects of the screens. *)
Inductive Click :=
  (** [ConfigScreen] and the configurator *)
  | ChooseReading
  | ChooseListening
  | SelectLevel (v : jsstring)
  | SelectTopic (v : jsstring)
  | SelectWordCount (v : Z)
  | SelectQuestionCount (v : Z)
  | StartLearning
  (** [HomeButton], on the story, quiz and results screens *)
  | Home
  (** [StoryScreen] *)
  | Play1x
  | PlayHalf
  | StopButton
  | ToggleTranscript
  | StartQuiz
  | ViewVocabulary
  | CloseVocabulary
  (** [QuizScreen]: the button of option [index], and the next button *)
  | ChooseOption (index : nat)
  | NextQuestion
  (** [ResultsScreen] *)
  | TryAnother
  | ReviewStory.

(** The control is on the screen and is not disabled. *)
Definition enabled (c : Click) (s : State) : bool :=
  match view s with
  | ViewConfig =>
      match c with
      | ChooseReading | ChooseListening | SelectLevel _ | SelectTopic _
      | SelectWordCount _ | SelectQuestionCount _ => true
      | StartLearning => negb (isLoading s)
      | _ => false
      end
  | ViewStory =>
      match c with
      | Home | StartQuiz => true
      | Play1x | PlayHalf | StopButton | ToggleTranscript =>
          match practiceType s with Listening => true | Reading => false end
      | ViewVocabulary => (0 <? length (vocabulary s))%nat
      | CloseVocabulary => isVocabularyModalOpen s
      | _ => false
      end
  | ViewQuiz =>
      match question s with
      | None => false
      | Some q =>
          match c with
          | Home => true
          | ChooseOption index =>
              bool_decide (is_Some (QuizQuestion.options q !! index))
          | NextQuestion => truthy (answerAt (userAnswers s) (currentQuestionIndex s))
          | _ => false
          end
      end
  | ViewResults =>
      match c with
      | Home | TryAnother | ReviewStory => true
      | _ => false
      end
  end.

Definition onClick (c : Click) (s : State) : State :=
  match c with
  | ChooseReading => setPracticeType Reading s
  | ChooseListening => setPracticeType Listening s
  | SelectLevel v => handleConfigChange_level v s
  | SelectTopic v => handleConfigChange_topic v s
  | SelectWordCount v => handleConfigChange_wordCount v s
  | SelectQuestionCount v => handleConfigChange_questionCount v s
  | StartLearning => handleGenerate s
  | Home | TryAnother => resetApp s
  | Play1x => onPlayer (Playback.playSpeak 1) s
  | PlayHalf => onPlayer (Playback.playSpeak (1 # 2)) s
  | StopButton => onPlayer Playback.stopSpeaking s
  | ToggleTranscript => setShowTranscript (negb (showTranscript s)) s
  | StartQuiz => startQuiz s
  | ViewVocabulary => setIsVocabularyModalOpen true s
  | CloseVocabulary => setIsVocabularyModalOpen false s
  | ChooseOption index =>
      match question s with
      | Some q =>
          match QuizQuestion.options q !! index with
          | Some option => handleAnswerSelect option s
          | None => s
          end
      | None => s
      end
  | NextQuestion => handleNextQuestion s
  | ReviewStory => setView ViewStory s
  end.

(** What can happen to the component: a click on a control that is
    enabled; the end of the request of [handleGenerate], which is in
    flight exactly while [isLoading] holds; and the events of the playback
    part that are not clicks. *)
Inductive Event :=
  | Clicked (c : Click)
  | Fulfilled (result : Generated)
  | Rejected (message : option jsstring)
  | Env (e : Playback.Event).

Definition step (s : State) (e : Event) : State :=
  match e with
  | Clicked c => if enabled c s then onClick c s else s
  | Fulfilled result =>
      if isLoading s then handleGenerate_fulfilled result s else s
  | Rejected message =>
      if isLoading s then handleGenerate_rejected message s else s
  | Env e =>
      match e with
      | Playback.Play _ | Playback.Stop => s
      | _ => onPlayer (Playback.handle e) s
      end
  end.

Definition run (s : State) (tr : list Event) : State := foldl step s tr.

End Handlers.

(** The first entries of [LEVELS], [TOPICS], [WORD_COUNTS] and
    [QUESTION_COUNTS]. *)
Definition initialConfig : ConfigOptions.t :=
  ConfigOptions.mk (js "basic") (js "daily life") 120 5.

(** The component as mounted. *)
Definition initial (android throws : bool) : State :=
  mkApp ViewConfig Reading initialConfig [] [] [] 0 false false false
    (Playback.initial [] android throws).

End App.

(** ** Statements about the quiz flow *)

Module FlowSpec.

Import App.

(** The answer recorded for question [j] is one of its options and is not
    empty. *)
Definition answered (s : State) (j : nat) : Prop :=
  exists (q : QuizQuestion.t) (a : jsstring),
    quiz s !! j = Some q /\ userAnswers s !! j = Some (Some a) /\
    a <> [] /\ a ∈ QuizQuestion.options q.

(** What every state of the component satisfies. *)
Definition flowInv (s : State) : Prop :=
  length (userAnswers s) = length (quiz s) /\
  (forall j, (j < length (quiz s))%nat ->
     userAnswers s !! j = Some (Some ([] : jsstring)) \/ answered s j) /\
  (quiz s <> [] -> (currentQuestionIndex s < length (quiz s))%nat) /\
  (view s = ViewConfig ->
     Playback.story (player s) = [] /\ quiz s = [] /\ vocabulary s = [] /\
     currentQuestionIndex s = 0%nat) /\
  (view s <> ViewConfig -> isLoading s = false) /\
  (view s = ViewQuiz ->
     forall j, (j < currentQuestionIndex s)%nat -> answered s j) /\
  (view s = ViewResults ->
     quiz s <> [] /\ forall j, (j < length (quiz s))%nat -> answered s j).

(** The answers as the results screen reads them. *)
Definition texts (userAnswers : list (option jsstring)) : list jsstring :=
  (fun a : option jsstring => default [] a) <$> userAnswers.

Definition answers (s : State) : list jsstring := texts (userAnswers s).

(** Choosing option [pick] and pressing the next button, for each
    question in turn. *)
Definition answerAll (picks : list nat) : list Event :=
  picks ≫= (fun pick => [Clicked (ChooseOption pick); Clicked NextQuestion]).

(** The texts of the options chosen. *)
Definition chosen (quiz : list QuizQuestion.t) (picks : list nat)
    : list (option jsstring) :=
  zip_with (fun q pick => QuizQuestion.options q !! pick) quiz picks.

(** A property of the story the player holds. *)
Definition storyIs (Q : jsstring -> Prop) (p : Playback.State) : Prop :=
  Q (Playback.story p).

End FlowSpec.

(** ** The content service client ([generateStoryAndQuiz], [fetchWithRetry]) *)

Module Service.

(** *** Cleaning the text of the answer *)

Definition fenceOpen : jsstring := js "```json".
Definition fenceClose : jsstring := js "```".

(** The first alternative of the pattern of [clean], the opening fence
    followed by white space: it can match at the start of the text only;
    the result is what follows the match. *)
Definition matchOpen (raw : jsstring) : option jsstring :=
  if startsWith fenceOpen raw
  then Some (trimStart (drop (length fenceOpen) raw))
  else None.

(** The second alternative, white space followed by the closing fence at
    the end of the text, matches at a position when what is left of the
    text is white space and the fence. *)
Definition matchesClose (s : jsstring) : bool :=
  eqUnits (trimStart s) fenceClose.

(** The text up to the leftmost match of the second alternative, which
    reaches the end of the text. *)
Fixpoint removeClose (s : jsstring) : jsstring :=
  match s with
  | [] => []
  | c :: s' => if matchesClose s then [] else c :: removeClose s'
  end.

(** [clean]: every match of the pattern replaced by the empty string, then
    [trim()]. *)
Definition clean (raw : jsstring) : jsstring :=
  trim (match matchOpen raw with
        | Some rest => removeClose rest
        | None => removeClose raw
        end).

(** *** Retries *)

(** The response of a call of [fetch]; [text] is [None] when reading the
    body fails. *)
Record Response := mkResponse {
  ok : bool;
  status : Z;
  text : option jsstring
}.

(** What one call of [fetchWithTimeout] comes to: a response, or a
    rejection (the abort of the timeout, a network failure) with the name
    and the message of the value thrown, which has no [status]. *)
Inductive Attempt :=
  | Responded (res : Response)
  | Rejected (name message : jsstring).

(** The value [fetchWithRetry] throws, as far as the code reads it. *)
Record Thrown := mkThrown {
  name : jsstring;
  errStatus : Z;              (* [Number(e?.status || 0)] *)
  message : jsstring
}.

(** A number in a template literal. *)
Definition decimal (n : Z) : jsstring :=
  js (DecimalString.NilZero.string_of_int (Z.to_int n)).

(** The value thrown for a response that is not [ok]. *)
Definition httpError (res : Response) : Thrown :=
  let text := default [] (text res) in
  mkThrown (js "Error") (status res)
    (match text with
     | [] => js "HTTP " ++ decimal (status res)
     | _ :: _ => text
     end).

Definition rejection (name message : jsstring) : Thrown :=
  mkThrown name 0 message.

(** [/temporarily|overloaded|try again/i.test(message)]: without the [u]
    flag a code unit matches a letter of the pattern when it is that
    letter in either case. *)
Definition looksTransient (message : jsstring) : bool :=
  let m := toLowerCaseAscii message in
  includes m (js "temporarily") || includes m (js "overloaded")
  || includes m (js "try again").

Definition retryable (e : Thrown) : bool :=
  eqUnits (name e) (js "AbortError")
  || bool_decide (errStatus e ∈ [429; 502; 503; 504])
  || looksTransient (message e).

(** What [fetchWithRetry] comes to, with the calls of [fetch] it made and
    the delays it waited. *)
Record Outcome := mkOutcome {
  result : Response + option Thrown;   (* [inr None]: [undefined] is thrown *)
  calls : nat;
  delays : list Z
}.

(** The [for] loop from [i] on; [fetch k] is what the call number [k]
    comes to, [left] the iterations that are left. *)
Fixpoint retryLoop (fetch : nat -> Attempt) (tries : nat) (left i : nat)
    (lastErr : option Thrown) (delays : list Z) : Outcome :=
  match left with
  | O => mkOutcome (inr lastErr) i delays
  | S left' =>
      let caught (e : Thrown) : Outcome :=
        if negb (retryable e) || (Z.of_nat i =? Z.of_nat tries - 1)
        then mkOutcome (inr (Some e)) (S i) delays
        else retryLoop fetch tries left' (S i) (Some e)
               (delays ++ [600 * (Z.of_nat i + 1)]) in
      match fetch i with
      | Responded res =>
          if ok res then mkOutcome (inl res) (S i) delays
          else caught (httpError res)
      | Rejected name message => caught (rejection name message)
      end
  end.

Definition fetchWithRetry (fetch : nat -> Attempt) (tries : nat) : Outcome :=
  retryLoop fetch tries tries 0 None [].

(** The failure of call [k], when it fails. *)
Definition failure (fetch : nat -> Attempt) (k : nat) : option Thrown :=
  match fetch k with
  | Responded res => if ok res then None else Some (httpError res)
  | Rejected name message => Some (rejection name message)
  end.

End Service.

(** * Properties *)

(** ** Arrays *)

Section ArrayFacts.
Context {A : Type}.
Implicit Types (a : list A) (p : A -> bool).

Lemma arrayGet_elem a i x : arrayGet a i = Some x -> x ∈ a.
Proof.
  unfold arrayGet. destruct (i <? 0); [done|].
  intros H. eapply list_elem_of_lookup_2, H.
Qed.

Lemma arrayGet_nil i : arrayGet (@nil A) i = None.
Proof. unfold arrayGet. by destruct (i <? 0). Qed.

Lemma arrayGet_beyond a i : Z.of_nat (length a) <= i -> arrayGet a i = None.
Proof.
  intros H. unfold arrayGet. destruct (i <? 0) eqn:E; [done|].
  apply lookup_ge_None. lia.
Qed.

Lemma findIndex_range p a : -1 <= findIndex p a < Z.of_nat (length a).
Proof.
  induction a as [|x a IH]; simpl; [lia|].
  destruct (p x); [lia|].
  destruct (findIndex p a <? 0) eqn:E; lia.
Qed.

Lemma findIndex_found p a :
  0 <= findIndex p a -> exists x, arrayGet a (findIndex p a) = Some x /\ p x = true.
Proof.
  induction a as [|x a IH]; simpl; [lia|].
  destruct (p x) eqn:Px; [intros _; by exists x|].
  destruct (findIndex p a <? 0) eqn:E; [lia|].
  intros _. apply Z.ltb_ge in E. destruct (IH E) as (y & Hy & Py).
  exists y. split; [|done]. revert Hy. unfold arrayGet.
  destruct (findIndex p a <? 0) eqn:E1; [done|].
  destruct (findIndex p a + 1 <? 0) eqn:E2; [lia|].
  replace (Z.to_nat (findIndex p a + 1)) with (S (Z.to_nat (findIndex p a))) by lia.
  done.
Qed.

End ArrayFacts.

(** ** Quiz normalisation *)

Section NormalizeFacts.
Variable toLowerCase : jsstring -> jsstring.
Import Quiz.

Lemma nullish_head_closed (options : list jsstring) :
  closedPick options (nullish (arrayGet options 0) []).
Proof. destruct options; simpl; [done|]. apply list_elem_of_here. Qed.

Lemma pickByIndex_closed options index o :
  pickByIndex options index = Some o -> closedPick options o.
Proof.
  unfold pickByIndex. destruct index as [n|]; [|done].
  destruct (truthy (arrayGet options n)); [|done].
  intros H%arrayGet_elem. destruct options; [by apply elem_of_nil in H|done].
Qed.

Lemma pickByLetter_closed options letter :
  closedPick options (pickByLetter options letter).
Proof.
  unfold pickByLetter.
  destruct (arrayGet options (Z.of_N (toUpperUnit letter) - 65)) as [o|] eqn:E.
  - apply arrayGet_elem in E. destruct options; [by apply elem_of_nil in E|done].
  - apply nullish_head_closed.
Qed.

Lemma pickByText_closed options rawAns :
  closedPick options (pickByText toLowerCase options rawAns).
Proof.
  unfold pickByText.
  set (idx := if _ =? -1 then _ else _).
  destruct (0 <=? idx) eqn:E; [|apply nullish_head_closed].
  apply Z.leb_le in E.
  assert (exists x, arrayGet options idx = Some x) as [x Hx].
  { subst idx. destruct (_ =? -1) eqn:E1.
    - destruct (findIndex_found _ _ E) as (x & Hx & _). eauto.
    - destruct (findIndex_found _ _ E) as (x & Hx & _). eauto. }
  rewrite Hx. simpl. apply arrayGet_elem in Hx.
  destruct options; [by apply elem_of_nil in Hx|done].
Qed.

Lemma normalizeQuestion_options q :
  QuizQuestion.options (normalizeQuestion toLowerCase q) = strippedOptions q.
Proof.
  unfold normalizeQuestion.
  destruct (pickByIndex _ _); [done|]. by destruct (leadingLetter _).
Qed.

Lemma normalizeQuestion_closed q :
  closedPick (QuizQuestion.options (normalizeQuestion toLowerCase q))
             (QuizQuestion.correctAnswer (normalizeQuestion toLowerCase q)).
Proof.
  rewrite normalizeQuestion_options. unfold normalizeQuestion.
  destruct (pickByIndex _ _) as [o|] eqn:E1; simpl.
  - by apply pickByIndex_closed in E1.
  - destruct (leadingLetter _) as [c|]; simpl.
    + apply pickByLetter_closed.
    + apply pickByText_closed.
Qed.

End NormalizeFacts.

(** C5. Normalisation is total and closed over the options: every raw item
    yields one question, whose options are the label-stripped options of
    the item and whose [correctAnswer] is an element of these options when
    there is one, and the empty string when there is none, whichever step
    picks it and whatever the lower-casing function. *)
Theorem normalize_closed_over_options (toLowerCase : jsstring -> jsstring)
    (raw : list AnyQuiz.t) :
  length (Quiz.normalizeQuizData toLowerCase raw) = length raw /\
  forall i q, raw !! i = Some q ->
    exists r, Quiz.normalizeQuizData toLowerCase raw !! i = Some r /\
      QuizQuestion.options r = Quiz.strippedOptions q /\
      (QuizQuestion.options r <> [] ->
         QuizQuestion.correctAnswer r ∈ QuizQuestion.options r) /\
      (QuizQuestion.options r = [] -> QuizQuestion.correctAnswer r = []).
Proof.
  unfold Quiz.normalizeQuizData. split; [by rewrite length_fmap|].
  intros i q Hq. exists (Quiz.normalizeQuestion toLowerCase q).
  rewrite list_lookup_fmap, Hq. split; [done|].
  split; [apply normalizeQuestion_options|].
  pose proof (normalizeQuestion_closed toLowerCase q) as H.
  unfold Quiz.closedPick in H.
  destruct (QuizQuestion.options _); split; done.
Qed.

(** Two raw items: one with four options and a text answer, one without
    options. *)
Lemma normalize_closed_over_options_witness :
  let raw := [Quiz.rawItem ["Cat"; "Dog"; "Bird"; "Fish"]%string "42";
              Quiz.rawItem [] "dog"] in
  exists r1 r2,
    Quiz.normalizeQuizData toLowerCaseAscii raw = [r1; r2] /\
    QuizQuestion.options r1 <> [] /\
    QuizQuestion.correctAnswer r1 ∈ QuizQuestion.options r1 /\
    QuizQuestion.options r2 = [] /\ QuizQuestion.correctAnswer r2 = [].
Proof.
  intros raw.
  destruct (normalize_closed_over_options toLowerCaseAscii raw) as [_ H].
  destruct (H 0%nat _ eq_refl) as (r1 & Hr1 & Ho1 & Hin1 & _).
  destruct (H 1%nat _ eq_refl) as (r2 & Hr2 & Ho2 & _ & Hnil2).
  exists r1, r2.
  assert (QuizQuestion.options r1 <> []) as Hne by (by rewrite Ho1).
  assert (QuizQuestion.options r2 = []) as Hnil by (by rewrite Ho2).
  split; [|split; [exact Hne|split; [exact (Hin1 Hne)|split; [exact Hnil|exact (Hnil2 Hnil)]]]].
  injection Hr1 as <-. injection Hr2 as <-. reflexivity.
Defined.

(** C6. On the options Cat, Dog, Bird, Fish and the raw answer [dog] the
    code takes the letter branch: the leading [d] is read as the label D,
    and the answer becomes the fourth option, Fish, not Dog. *)
Theorem normalize_dog_is_Fish (toLowerCase : jsstring -> jsstring) :
  let q := Quiz.rawItem ["Cat"; "Dog"; "Bird"; "Fish"]%string "dog" in
  Quiz.leadingLetter (Quiz.rawAnswer q) = Some 100%N /\
  QuizQuestion.correctAnswer (Quiz.normalizeQuestion toLowerCase q) = js "Fish" /\
  QuizQuestion.correctAnswer (Quiz.normalizeQuestion toLowerCase q) <> js "Dog".
Proof. vm_compute. repeat split; congruence. Qed.

(** C7. Normalising the labelled options Paris, London, Rome, Berlin with
    the raw answer [B] gives London; normalising that question again reads
    the leading [L] of London as a label out of range and gives Paris. *)
Theorem renormalize_changes_answer (toLowerCase : jsstring -> jsstring) :
  let q := Quiz.rawItem ["A) Paris"; "B) London"; "C) Rome"; "D) Berlin"]%string "B" in
  let once := Quiz.normalizeQuestion toLowerCase q in
  let twice := Quiz.normalizeQuestion toLowerCase (Quiz.asRaw once) in
  QuizQuestion.correctAnswer once = js "London" /\
  QuizQuestion.correctAnswer once ∈ QuizQuestion.options once /\
  QuizQuestion.options twice = QuizQuestion.options once /\
  QuizQuestion.correctAnswer twice = js "Paris" /\
  QuizQuestion.correctAnswer twice <> QuizQuestion.correctAnswer once.
Proof.
  vm_compute. split; [done|]. split; [|split; [done|split; [done|congruence]]].
  apply list_elem_of_lookup. by exists 1%nat.
Qed.

(** The alphabetical index of a letter, as the letter branch computes it. *)
Lemma letterIndex_range c :
  isAsciiLetter c = true -> 0 <= Z.of_N (toUpperUnit c) - 65 <= 25.
Proof.
  unfold isAsciiLetter, toUpperUnit, isUpper, isLower.
  destruct (N.leb_spec 97 c), (N.leb_spec c 122), (N.leb_spec 65 c),
    (N.leb_spec c 90); simpl; try discriminate; intros _; lia.
Qed.

(** C10. When no numeric index applies and the trimmed raw answer begins
    with any ASCII letter, of either case, the answer is the one of the
    letter branch, [options[idx] ?? options[0] ?? ''] with [idx] between 0
    and 25: the text of the raw answer and the lower-casing function play no
    part. When moreover [idx] is outside the non-empty options, the answer
    is the first option. *)
Theorem letter_branch_takes_any_letter (toLowerCase : jsstring -> jsstring)
    (q : AnyQuiz.t) (c : N) (rest : jsstring) :
  Quiz.pickByIndex (Quiz.strippedOptions q) (AnyQuiz.correctAnswerIndex q) = None ->
  Quiz.rawAnswer q = c :: rest ->
  isAsciiLetter c = true ->
  let idx := Z.of_N (toUpperUnit c) - 65 in
  let r := Quiz.normalizeQuestion toLowerCase q in
  0 <= idx <= 25 /\
  QuizQuestion.correctAnswer r = Quiz.pickByLetter (Quiz.strippedOptions q) c /\
  (forall o0 rest0, Quiz.strippedOptions q = o0 :: rest0 ->
     Z.of_nat (length (o0 :: rest0)) <= idx ->
     QuizQuestion.correctAnswer r = o0).
Proof.
  intros Hidx Hraw Hc idx r. split; [by apply letterIndex_range|].
  assert (QuizQuestion.correctAnswer r = Quiz.pickByLetter (Quiz.strippedOptions q) c) as Hr.
  { subst r. unfold Quiz.normalizeQuestion. rewrite Hidx, Hraw. simpl. by rewrite Hc. }
  split; [done|].
  intros o0 rest0 Hopts Hlen. rewrite Hr, Hopts. unfold Quiz.pickByLetter.
  fold idx. by rewrite arrayGet_beyond.
Qed.

(** The options Paris, London, Rome, Berlin with the raw answer [London]:
    the letter L has index 11, and the answer is Paris although London is
    the exact text of the second option. *)
Lemma letter_branch_takes_any_letter_witness :
  let q := Quiz.rawItem ["Paris"; "London"; "Rome"; "Berlin"]%string "London" in
  Quiz.pickByIndex (Quiz.strippedOptions q) (AnyQuiz.correctAnswerIndex q) = None /\
  Quiz.rawAnswer q = 76%N :: js "ondon" /\
  isAsciiLetter 76 = true /\
  Quiz.strippedOptions q = js "Paris" :: (js <$> ["London"; "Rome"; "Berlin"]%string) /\
  Z.of_nat 4 <= Z.of_N (toUpperUnit 76) - 65 /\
  QuizQuestion.correctAnswer (Quiz.normalizeQuestion toLowerCaseAscii q) = js "Paris".
Proof.
  intros q.
  assert (Quiz.pickByIndex (Quiz.strippedOptions q) (AnyQuiz.correctAnswerIndex q) = None)
    as H1 by reflexivity.
  assert (Quiz.rawAnswer q = 76%N :: js "ondon") as H2 by reflexivity.
  assert (isAsciiLetter 76 = true) as H3 by reflexivity.
  assert (Quiz.strippedOptions q
          = js "Paris" :: (js <$> ["London"; "Rome"; "Berlin"]%string)) as H4
    by reflexivity.
  assert (Z.of_nat 4 <= Z.of_N (toUpperUnit 76) - 65) as H5 by (vm_compute; congruence).
  repeat (split; [assumption|]).
  exact (proj2 (proj2 (letter_branch_takes_any_letter toLowerCaseAscii q 76%N
                         (js "ondon") H1 H2 H3)) _ _ H4 H5).
Defined.

(** ** Scoring *)

Section ScoreFacts.
Import Results.

Lemma scoreFrom_count (userAnswers : list jsstring) (quiz : list QuizQuestion.t) :
  forall k acc,
    scoreFrom k quiz userAnswers acc =
    acc + Z.of_nat (length (List.filter
      (fun i => match quiz !! (i - k)%nat, userAnswers !! i with
                | Some q, Some a => bool_decide (a = QuizQuestion.correctAnswer q)
                | _, _ => false
                end) (seq k (length quiz)))).
Proof.
  induction quiz as [|q quiz IH]; intros k acc; simpl; [lia|].
  rewrite IH. replace (k - k)%nat with 0%nat by lia. simpl.
  rewrite (List.filter_ext_in
    (fun i => match (q :: quiz) !! (i - k)%nat, userAnswers !! i with
              | Some q, Some a => bool_decide (a = QuizQuestion.correctAnswer q)
              | _, _ => false
              end)
    (fun i => match quiz !! (i - S k)%nat, userAnswers !! i with
              | Some q, Some a => bool_decide (a = QuizQuestion.correctAnswer q)
              | _, _ => false
              end) (seq (S k) (length quiz))).
  2:{ intros i Hi%in_seq. replace (i - k)%nat with (S (i - S k)) by lia. done. }
  unfold strictEq.
  destruct (userAnswers !! k) as [a|] eqn:E; simpl;
    repeat case_bool_decide; simplify_eq; simpl; lia.
Qed.

Lemma score_correctIndices quiz userAnswers :
  score quiz userAnswers = Z.of_nat (length (correctIndices quiz userAnswers)).
Proof.
  unfold score, correctIndices. rewrite scoreFrom_count, Z.add_0_l.
  f_equal. f_equal. apply List.filter_ext. intros i.
  unfold answeredCorrectly. by replace (i - 0)%nat with i by lia.
Qed.

(** [Math.round] of [score / n * 100] is the integer within one half of the
    exact quotient, the upper one at a tie. *)
Lemma Math_round_percent (s n : Z) :
  0 < n ->
  let p := Math_round ((inject_Z s / inject_Z n) * inject_Z 100)%Q in
  2 * n * p <= 200 * s + n < 2 * n * (p + 1).
Proof.
  intros Hn p. subst p. unfold Math_round.
  set (x := ((inject_Z s / inject_Z n) * inject_Z 100 + (1 # 2))%Q).
  pose proof (Qfloor_le x) as Hle. pose proof (Qlt_floor x) as Hlt.
  generalize dependent (Qfloor x). intros p Hle Hlt.
  destruct n as [|np|np]; try lia.
  assert (x == (200 * s + Z.pos np) # (2 * np))%Q as Hx.
  { subst x. unfold Qeq, Qdiv, Qmult, Qplus, Qinv, inject_Z. simpl. lia. }
  pose proof (Qle_trans _ _ _ Hle (proj2 (Qle_lteq _ _) (or_intror Hx))) as Hle'.
  pose proof (Qle_lt_trans _ _ _
                (proj2 (Qle_lteq _ _) (or_intror (Qeq_sym _ _ Hx))) Hlt) as Hlt'.
  unfold Qle, Qlt, inject_Z in Hle', Hlt'. simpl in Hle', Hlt'.
  lia.
Qed.

(** For the quiz sizes the configurator offers (5, 8 and 10 questions), and
    for every size up to 39, rounding the double gives the integer of the
    exact computation. *)
Lemma percentage_binary64 : everyScore agrees 39 = true.
Proof. by vm_compute. Qed.

Lemma percentage_in_bounds : everyScore inBounds 200 = true.
Proof. by vm_compute. Qed.

Lemma score_le_length quiz userAnswers :
  exists k, score quiz userAnswers = Z.of_nat k /\ (k <= length quiz)%nat.
Proof.
  exists (length (correctIndices quiz userAnswers)).
  split; [apply score_correctIndices|]. unfold correctIndices.
  etransitivity; [apply List.filter_length_le|]. by rewrite length_seq.
Qed.

(** What holds of every score of every size up to [N] holds of the score of
    a quiz of up to [N] questions. *)
Lemma everyScore_quiz check N quiz userAnswers :
  everyScore check N = true -> quiz <> [] -> (length quiz <= N)%nat ->
  check (score quiz userAnswers) (Z.of_nat (length quiz)) = true.
Proof.
  intros H Hne Hlen. destruct (score_le_length quiz userAnswers) as (k & -> & Hk).
  unfold everyScore in H. rewrite forallb_forall in H.
  specialize (H (length quiz)). rewrite forallb_forall in H. apply H.
  - apply in_seq. destruct quiz; [done|]. simpl in *. lia.
  - apply in_seq. lia.
Qed.

Lemma percentage_empty userAnswers : percentage [] userAnswers = None.
Proof. by vm_compute. Qed.

Lemma percentage_exact quiz userAnswers :
  quiz <> [] -> (length quiz <= 39)%nat ->
  percentage quiz userAnswers
  = Some (percentExact (score quiz userAnswers) (Z.of_nat (length quiz))).
Proof.
  intros Hne Hlen. unfold percentage.
  eapply bool_decide_eq_true_1,
    (everyScore_quiz agrees 39 quiz userAnswers percentage_binary64 Hne Hlen).
Qed.

Lemma percentage_checked quiz userAnswers :
  quiz <> [] -> (length quiz <= 200)%nat ->
  let s := score quiz userAnswers in
  let n := Z.of_nat (length quiz) in
  exists p, percentage quiz userAnswers = Some p /\ 0 <= p <= 100 /\
    (s = n -> p = 100) /\ (p = 0 <-> s = 0) /\
    (80 <= p <-> 159 * n <= 200 * s) /\ (50 <= p <-> 99 * n <= 200 * s).
Proof.
  intros Hne Hlen s n.
  pose proof (everyScore_quiz inBounds 200 quiz userAnswers
                percentage_in_bounds Hne Hlen) as H.
  unfold inBounds in H. fold s n in H. unfold percentage. fold s n.
  destruct (percentBinary64 s n) as [p|]; [|done]. exists p.
  rewrite !andb_true_iff, orb_true_iff, negb_true_iff in H.
  destruct H as (((((H0 & H100) & Hfull) & Hzero) & H80) & H50).
  apply Bool.eqb_prop in Hzero, H80, H50.
  split; [done|]. split; [lia|]. split; [|split; [|split]].
  - intros E. destruct Hfull as [Hfull|Hfull]; lia.
  - destruct (Z.eqb_spec p 0), (Z.eqb_spec s 0); done.
  - destruct (Z.leb_spec 80 p), (Z.leb_spec (159 * n) (200 * s)); done || lia.
  - destruct (Z.leb_spec 50 p), (Z.leb_spec (99 * n) (200 * s)); done || lia.
Qed.

End ScoreFacts.

(** C9. The score is the number of indices at which the answer given is
    exactly the correct answer of the question; for a quiz of 1 to 39
    questions the percentage, which the source evaluates in binary64, is
    [100 * score / count] rounded to the nearest integer, a tie going up;
    for the correct answers A, B, C and the answers A, X, C the score is 2
    (of 3) and the percentage 67. *)
Theorem score_and_percentage (quiz : list QuizQuestion.t)
    (userAnswers : list jsstring) :
  Results.score quiz userAnswers
    = Z.of_nat (length (Results.correctIndices quiz userAnswers)) /\
  (forall i, i ∈ Results.correctIndices quiz userAnswers <->
     exists q, quiz !! i = Some q /\
               userAnswers !! i = Some (QuizQuestion.correctAnswer q)) /\
  (quiz <> [] -> (length quiz <= 39)%nat ->
     exists p, Results.percentage quiz userAnswers = Some p /\
       let n := Z.of_nat (length quiz) in
       p = Results.percentExact (Results.score quiz userAnswers) n /\
       2 * n * p <= 200 * Results.score quiz userAnswers + n < 2 * n * (p + 1)) /\
  let quiz3 := Results.questionWith <$> ["A"; "B"; "C"]%string in
  let answers3 := js <$> ["A"; "X"; "C"]%string in
  Results.score quiz3 answers3 = 2 /\ length quiz3 = 3%nat /\
  Results.percentage quiz3 answers3 = Some 67.
Proof.
  split; [apply score_correctIndices|]. split; [|split].
  - intros i. unfold Results.correctIndices.
    rewrite list_elem_of_In, List.filter_In, in_seq.
    unfold Results.answeredCorrectly. split.
    + intros [_ H]. destruct (quiz !! i) as [q|]; [|done].
      destruct (userAnswers !! i) as [a|]; [|done].
      apply bool_decide_eq_true in H. subst. by exists q.
    + intros (q & Hq & Ha). rewrite Hq, Ha. split.
      * apply lookup_lt_Some in Hq. lia.
      * by apply bool_decide_eq_true.
  - intros Hne Hlen. eexists. split; [by apply percentage_exact|].
    split; [done|]. apply Math_round_percent. destruct quiz; [done|].
    simpl length. lia.
  - by vm_compute.
Qed.

(** The quiz of the example: three questions, two answered correctly. *)
Lemma score_and_percentage_witness :
  let quiz := Results.questionWith <$> ["A"; "B"; "C"]%string in
  let answers := js <$> ["A"; "X"; "C"]%string in
  quiz <> [] /\ (length quiz <= 39)%nat /\
  Results.correctIndices quiz answers = [0; 2]%nat /\
  Results.score quiz answers = 2 /\
  exists p, Results.percentage quiz answers = Some p /\
    p = Results.percentExact (Results.score quiz answers) 3 /\
    2 * 3 * p <= 200 * Results.score quiz answers + 3 < 2 * 3 * (p + 1).
Proof.
  intros quiz answers.
  assert (quiz <> []) as Hne by done.
  assert (length quiz <= 39)%nat as Hlen by (simpl; lia).
  destruct (score_and_percentage quiz answers) as (Hs & _ & Hp & _).
  split; [exact Hne|]. split; [exact Hlen|]. split; [reflexivity|].
  split; [exact Hs|exact (Hp Hne Hlen)].
Defined.

(** C9, as the claim words it, fails on a quiz of 40 questions of which 23
    are answered correctly: [100 * 23 / 40] is 57.5, which rounds to 58;
    the double [23 / 40] is just below 0.575, its product with 100 is the
    double just below 57.5, and the source shows 57. *)
Lemma percentage_of_23_in_40 :
  let quiz := Results.questionWith <$> replicate 40 "A"%string in
  let answers := js <$> replicate 23 "A"%string ++ replicate 17 "X"%string in
  length quiz = 40%nat /\ Results.score quiz answers = 23 /\
  Results.percentExact 23 40 = 58 /\
  Results.percentage quiz answers = Some 57 /\
  ~ (exists p, Results.percentage quiz answers = Some p /\
       2 * 40 * p <= 200 * 23 + 40 < 2 * 40 * (p + 1)).
Proof.
  intros quiz answers.
  assert (Results.percentage quiz answers = Some 57) as Hp by (by vm_compute).
  split; [done|]. split; [by vm_compute|]. split; [by vm_compute|].
  split; [exact Hp|]. intros (p & Hp' & Hr). rewrite Hp in Hp'.
  injection Hp' as <-. lia.
Qed.

(** ** Pacing profile *)

Section PacingFacts.
Import Pacing.

Lemma leq_true x y : leq x y = true <-> (x <= y)%Q.
Proof. apply Qle_bool_iff. Qed.

Lemma leq_false x y : leq x y = false <-> (y < x)%Q.
Proof.
  unfold leq. split.
  - intros H. apply Qnot_le_lt. intros Hle%Qle_bool_iff. congruence.
  - intros H. destruct (Qle_bool x y) eqn:E; [|done].
    apply Qle_bool_iff in E. by apply Qlt_not_le in H.
Qed.

Lemma ltq_true x y : ltq x y = true <-> (x < y)%Q.
Proof. unfold ltq. rewrite negb_true_iff. apply leq_false. Qed.

Lemma ltq_false x y : ltq x y = false <-> (y <= x)%Q.
Proof. unfold ltq. rewrite negb_false_iff. apply leq_true. Qed.

Lemma clause_not_sentence c : isClauseEnd c = true -> isSentenceEnd c = false.
Proof.
  unfold isSentenceEnd, isClauseEnd.
  destruct (N.eqb_spec c 46), (N.eqb_spec c 33), (N.eqb_spec c 63),
    (N.eqb_spec c 44), (N.eqb_spec c 58), (N.eqb_spec c 59); simpl;
    try done; lia.
Qed.

End PacingFacts.

(** C8. The pacing profile depends on the rate alone: [msPerWord] is 420 up
    to rate 0.6, 340 strictly between 0.6 and 1.1, and 150 from 1.1 on; at
    every rate the pause after a word ending in a full stop, exclamation or
    question mark is longer than the pause after a word ending in a comma,
    colon or semicolon (800 and 200 ms up to rate 0.6, 400 and 100 ms
    above), and both pauses are longer at a rate up to 0.6 than at any rate
    above it. *)
Theorem pacing_profile (rate : Q) :
  ((rate <= 6 # 10)%Q -> Pacing.getMsPerWord rate = 420) /\
  ((6 # 10 < rate)%Q -> (rate < 11 # 10)%Q -> Pacing.getMsPerWord rate = 340) /\
  ((11 # 10 <= rate)%Q -> Pacing.getMsPerWord rate = 150) /\
  Pacing.PAUSE_MS_COMMA rate < Pacing.PAUSE_MS_SENTENCE rate /\
  (forall w1 w2 c1 c2 pending,
     last w1 = Some c1 -> Pacing.isSentenceEnd c1 = true ->
     last w2 = Some c2 -> Pacing.isClauseEnd c2 = true ->
     Pacing.pauseAfter rate (Some w1) pending = Pacing.PAUSE_MS_SENTENCE rate /\
     Pacing.pauseAfter rate (Some w2) pending = Pacing.PAUSE_MS_COMMA rate /\
     Pacing.pauseAfter rate (Some w2) pending
       < Pacing.pauseAfter rate (Some w1) pending) /\
  (forall faster, (rate <= 6 # 10)%Q -> (6 # 10 < faster)%Q ->
     Pacing.PAUSE_MS_SENTENCE faster < Pacing.PAUSE_MS_SENTENCE rate /\
     Pacing.PAUSE_MS_COMMA faster < Pacing.PAUSE_MS_COMMA rate /\
     Pacing.getMsPerWord faster < Pacing.getMsPerWord rate) /\
  Pacing.getMsPerWord <$> Pacing.supportedRates = [340; 420].
Proof.
  assert (Pacing.PAUSE_MS_COMMA rate < Pacing.PAUSE_MS_SENTENCE rate) as Hlt.
  { unfold Pacing.PAUSE_MS_SENTENCE, Pacing.PAUSE_MS_COMMA.
    destruct (Pacing.leq rate (6 # 10)); lia. }
  assert (forall w1 w2 c1 c2 pending,
     last w1 = Some c1 -> Pacing.isSentenceEnd c1 = true ->
     last w2 = Some c2 -> Pacing.isClauseEnd c2 = true ->
     Pacing.pauseAfter rate (Some w1) pending = Pacing.PAUSE_MS_SENTENCE rate /\
     Pacing.pauseAfter rate (Some w2) pending = Pacing.PAUSE_MS_COMMA rate) as Hp.
  { intros w1 w2 c1 c2 pending H1 Hc1 H2 Hc2. unfold Pacing.pauseAfter.
    rewrite H1, H2, Hc1, Hc2. by rewrite (clause_not_sentence c2 Hc2). }
  unfold Pacing.getMsPerWord, Pacing.PAUSE_MS_SENTENCE, Pacing.PAUSE_MS_COMMA.
  split; [|split; [|split; [|split; [exact Hlt|split; [|split; [|done]]]]]].
  - intros H%leq_true. by rewrite H.
  - intros H1%leq_false H2%ltq_true. by rewrite H1, H2.
  - intros H. assert (6 # 10 < rate)%Q as H1%leq_false.
    { eapply Qlt_le_trans; [|exact H]. reflexivity. }
    apply ltq_false in H. by rewrite H1, H.
  - intros w1 w2 c1 c2 pending H1 Hc1 H2 Hc2.
    destruct (Hp w1 w2 c1 c2 pending H1 Hc1 H2 Hc2) as [E1 E2].
    split; [done|]. split; [done|]. by rewrite E1, E2.
  - intros faster Hslow%leq_true Hfast%leq_false. rewrite Hslow, Hfast.
    destruct (Pacing.ltq faster (11 # 10)); lia.
Qed.

(** The two rates of the play buttons, and the words [end.] and [then,]. *)
Lemma pacing_profile_witness :
  (1 # 2 <= 6 # 10)%Q /\ (6 # 10 < 1)%Q /\ (1 < 11 # 10)%Q /\
  Pacing.getMsPerWord (1 # 2) = 420 /\
  Pacing.pauseAfter (1 # 2) (Some (js "then,")) 0
    < Pacing.pauseAfter (1 # 2) (Some (js "end.")) 0 /\
  Pacing.PAUSE_MS_SENTENCE 1 < Pacing.PAUSE_MS_SENTENCE (1 # 2) /\
  Pacing.PAUSE_MS_COMMA 1 < Pacing.PAUSE_MS_COMMA (1 # 2).
Proof.
  assert (1 # 2 <= 6 # 10)%Q as H1 by (by vm_compute).
  assert (6 # 10 < 1)%Q as H2 by (by vm_compute).
  assert (1 < 11 # 10)%Q as H3 by (by vm_compute).
  destruct (pacing_profile (1 # 2)) as (Hms & _ & _ & _ & Hpause & Hslow & _).
  destruct (Hpause (js "end.") (js "then,") 46%N 44%N 0
              eq_refl eq_refl eq_refl eq_refl) as (_ & _ & Hlt).
  destruct (Hslow 1%Q H1 H2) as (Hs & Hc & _).
  split; [exact H1|]. split; [exact H2|]. split; [exact H3|].
  split; [exact (Hms H1)|]. split; [exact Hlt|]. split; [exact Hs|exact Hc].
Defined.

(** ** Boundary-to-word mapping *)

Section BoundaryFacts.
Import Words.
Implicit Types (words : list jsstring) (w : jsstring).

Lemma cumulative_0 words : cumulative words 0 = 0%nat.
Proof. done. Qed.

Lemma cumulative_cons w words n :
  cumulative (w :: words) (S n) = (length w + 1 + cumulative words n)%nat.
Proof. done. Qed.

Lemma cumulative_mono words n m :
  (n <= m)%nat -> (cumulative words n <= cumulative words m)%nat.
Proof.
  revert n m. induction words as [|w words IH]; intros n m Hnm.
  - unfold cumulative. by rewrite !take_nil.
  - destruct n as [|n]; [rewrite cumulative_0; lia|].
    destruct m as [|m]; [lia|]. rewrite !cumulative_cons.
    specialize (IH n m). lia.
Qed.

(** The scan returns the least [j] whose cumulative length exceeds the
    offset, counted from the loop variables it starts with. *)
Lemma boundaryScan_Some words : forall i count charIndex r,
  boundaryScan words i count charIndex = Some r <->
  exists j, r = (i + j)%nat /\ (j < length words)%nat /\
    (charIndex < count + cumulative words (S j))%nat /\
    (forall k, (k < j)%nat -> (count + cumulative words (S k) <= charIndex)%nat).
Proof.
  induction words as [|w words IH]; intros i count charIndex r; simpl.
  - split; [done|]. intros (j & _ & Hj & _). simpl in Hj. lia.
  - destruct (Nat.ltb_spec charIndex (count + (length w + 1))) as [Hlt|Hge].
    + split.
      * intros [= <-]. exists 0%nat. rewrite cumulative_cons, cumulative_0.
        repeat split; try lia.
      * intros (j & -> & Hj & Hlt' & Hmin). destruct j as [|j]; [f_equal; lia|].
        specialize (Hmin 0%nat ltac:(lia)).
        rewrite cumulative_cons, cumulative_0 in Hmin. lia.
    + rewrite IH. split.
      * intros (j & -> & Hj & Hlt & Hmin). exists (S j).
        rewrite cumulative_cons. repeat split; try lia.
        intros [|k] Hk; rewrite cumulative_cons; [rewrite cumulative_0; lia|].
        specialize (Hmin k ltac:(lia)). lia.
      * intros (j & -> & Hj & Hlt & Hmin). destruct j as [|j].
        { rewrite cumulative_cons, cumulative_0 in Hlt. lia. }
        exists j. rewrite cumulative_cons in Hlt. repeat split; try lia.
        intros k Hk. specialize (Hmin (S k) ltac:(lia)).
        rewrite cumulative_cons in Hmin. lia.
Qed.

Lemma boundaryWord_Some words charIndex r :
  boundaryWord words charIndex = Some r <->
  (r < length words)%nat /\ (charIndex < cumulative words (S r))%nat /\
  (forall k, (k < r)%nat -> (cumulative words (S k) <= charIndex)%nat).
Proof.
  unfold boundaryWord. rewrite boundaryScan_Some. split.
  - intros (j & -> & H). exact H.
  - intros H. exists r. split; [done|exact H].
Qed.

Lemma boundaryScan_None words : forall i count charIndex,
  boundaryScan words i count charIndex = None <->
  (forall j, (j < length words)%nat ->
     (count + cumulative words (S j) <= charIndex)%nat).
Proof.
  induction words as [|w words IH]; intros i count charIndex; simpl.
  - split; [|done]. intros _ j Hj. lia.
  - destruct (Nat.ltb_spec charIndex (count + (length w + 1))) as [Hlt|Hge].
    + split; [done|]. intros H. specialize (H 0%nat ltac:(lia)).
      rewrite cumulative_cons, cumulative_0 in H. lia.
    + rewrite IH. split.
      * intros H [|j] Hj; rewrite cumulative_cons; [rewrite cumulative_0; lia|].
        specialize (H j ltac:(lia)). lia.
      * intros H j Hj. specialize (H (S j) ltac:(lia)).
        rewrite cumulative_cons in H. lia.
Qed.

Lemma boundaryWord_mono words o1 o2 i1 i2 :
  (o1 <= o2)%nat ->
  boundaryWord words o1 = Some i1 -> boundaryWord words o2 = Some i2 ->
  (i1 <= i2)%nat.
Proof.
  intros Ho (H1 & Hlt1 & Hmin1)%boundaryWord_Some (H2 & Hlt2 & Hmin2)%boundaryWord_Some.
  destruct (Nat.le_gt_cases i1 i2) as [|Hgt]; [done|].
  specialize (Hmin1 i2 Hgt). lia.
Qed.

Lemma boundaryWord_earlier words o1 o2 i2 :
  (o1 <= o2)%nat -> boundaryWord words o2 = Some i2 ->
  exists i1, boundaryWord words o1 = Some i1.
Proof.
  intros Ho H2. destruct (boundaryWord words o1) as [i1|] eqn:E; [eauto|].
  unfold boundaryWord in *.
  apply boundaryScan_Some in H2 as (j & _ & Hj & Hlt & _).
  pose proof (proj1 (boundaryScan_None words 0 0 o1) E j Hj). lia.
Qed.

(** The indices computed for a run of offsets: the arguments of the calls
    of [setCurrentWordIndex], an offset past the last word making none. *)
Lemma boundaryIndices_sorted words (offsets : list nat) :
  StronglySorted le offsets ->
  StronglySorted le (omap (boundaryWord words) offsets).
Proof.
  induction 1 as [|o offsets Hs IH Hall]; simpl; [constructor|].
  destruct (boundaryWord words o) as [i|] eqn:E; [|done].
  constructor; [done|].
  apply List.Forall_forall. intros i' Hi'%list_elem_of_In.
  apply list_elem_of_omap in Hi' as (o' & Ho' & Hi').
  rewrite List.Forall_forall in Hall.
  apply list_elem_of_In, Hall in Ho'. by eapply boundaryWord_mono.
Qed.

End BoundaryFacts.

(** ** Playback *)

Import Playback PlaybackSpec.

(** Unfolds the callbacks down to the fields of the state. *)
Ltac handlers :=
  cbv [step exec handle withUtterance forget playSpeak stopSpeaking render fire
       onboundary onend onerror speakAndroid speakDesktop speak newUtterance
       startFallback tick clearHighlightTimer clearTimer setTimer
       speechSynthesis_cancel setIsSpeaking setCurrentWordIndex setError
       setUtteranceRef setStoppedByUserRef setHighlightTimerRef
       setFirstBoundaryHeardRef setIsSpeakingRef setTimers setUtterances
       get modify skip mbind mret M_bind M_ret fst snd
       story isAndroid speakThrows isSpeaking currentWordIndex error
       utteranceRef stoppedByUserRef highlightTimerRef firstBoundaryHeardRef
       isSpeakingRef timers nextId utterances published negb].

Lemma run_app s tr1 tr2 : run s (tr1 ++ tr2) = run (run s tr1) tr2.
Proof. apply foldl_app. Qed.

Lemma run_cons s e tr : run s (e :: tr) = run (step s e) tr.
Proof. done. Qed.

(** *** Fallback pacing *)

Section FallbackFacts.
Import Pacing.
Variables (words : list jsstring) (rate : Q) (id : positive).

Lemma getMsPerWord_bounds : 150 <= getMsPerWord rate <= 420.
Proof.
  unfold getMsPerWord. destruct (leq _ _); [lia|]. destruct (ltq _ _); lia.
Qed.

Lemma pauseAfter_bounds w pause :
  0 <= pause <= 800 -> 0 <= pauseAfter rate w pause <= 800.
Proof.
  intros H. unfold pauseAfter, PAUSE_MS_SENTENCE, PAUSE_MS_COMMA.
  destruct w as [w|]; [|lia]. destruct (last w) as [c|]; [|lia].
  destruct (isSentenceEnd c); [destruct (leq _ _); lia|].
  destruct (isClauseEnd c); [destruct (leq _ _); lia|lia].
Qed.

(** A tick inside a pause that is not over: nothing is published. *)
Lemma tick_pause i pause log s :
  Running words rate id i pause log s ->
  0 < pause - getMsPerWord rate ->
  Running words rate id i (pause - getMsPerWord rate) log (step s (Fire id)).
Proof.
  unfold Running. destruct s. cbn [timers highlightTimerRef isSpeakingRef published].
  intros (Ht & -> & -> & <-) Hp'. pose proof getMsPerWord_bounds.
  handlers. rewrite Ht. handlers.
  destruct (Z.ltb_spec 0 pause); [|lia].
  destruct (Z.leb_spec (pause - getMsPerWord rate) 0); [lia|].
  handlers. rewrite lookup_alter. case_decide; [|done]. by rewrite Ht.
Qed.

(** A tick with no pause left, or ending the pause: the next word is
    published when there is one. *)
Lemma tick_advance i pause log s :
  Running words rate id i pause log s ->
  0 <= pause -> pause - getMsPerWord rate <= 0 ->
  (S i < length words)%nat ->
  exists pause', 0 <= pause' <= 800 /\
    Running words rate id (S i) pause' (log ++ [Some (S i)]) (step s (Fire id)).
Proof.
  unfold Running. destruct s. cbn [timers highlightTimerRef isSpeakingRef published].
  intros (Ht & -> & -> & <-) Hp0 Hp Hi. handlers. rewrite Ht. handlers.
  destruct (Z.ltb_spec 0 pause).
  - destruct (Z.leb_spec (pause - getMsPerWord rate) 0); [|lia].
    destruct (Nat.leb_spec (length words) (S i)); [lia|]. handlers.
    eexists. split; cycle 1.
    { rewrite lookup_alter. case_decide; [|done]. by rewrite Ht. }
    apply pauseAfter_bounds; lia.
  - destruct (Nat.leb_spec (length words) (S i)); [lia|]. handlers.
    assert (pause = 0) as -> by lia.
    eexists. split; cycle 1.
    { rewrite lookup_alter. case_decide; [|done]. by rewrite Ht. }
    apply pauseAfter_bounds; lia.
Qed.

(** The tick that moves past the last word ends the pacing. *)
Lemma tick_finish i pause log s :
  Running words rate id i pause log s ->
  pause - getMsPerWord rate <= 0 ->
  (length words <= S i)%nat ->
  Finished id (log ++ [None]) (step s (Fire id)).
Proof.
  unfold Running, Finished. destruct s.
  cbn [timers highlightTimerRef isSpeakingRef published].
  intros (Ht & -> & -> & <-) Hp Hi. handlers. rewrite Ht. handlers.
  destruct (Z.ltb_spec 0 pause).
  - destruct (Z.leb_spec (pause - getMsPerWord rate) 0); [|lia].
    destruct (Nat.leb_spec (length words) (S i)); [|lia]. handlers.
    rewrite lookup_alter. case_decide; [|done]. by rewrite lookup_delete_eq.
  - destruct (Nat.leb_spec (length words) (S i)); [|lia]. handlers.
    rewrite lookup_alter. case_decide; [|done]. by rewrite lookup_delete_eq.
Qed.

(** Once the pacing has ended, a late firing of its id changes nothing. *)
Lemma tick_after_finish log s :
  Finished id log s -> step s (Fire id) = s.
Proof.
  unfold Finished. destruct s. cbn [timers]. intros (Ht & _).
  handlers. by rewrite Ht.
Qed.

(** From a word that is not the last, finitely many ticks publish the next
    word; from the last word, they end the pacing. [k] bounds the ticks the
    pause can take. *)
Lemma next_word (k : nat) : forall i pause log s,
  Running words rate id i pause log s ->
  0 <= pause <= Z.of_nat k * getMsPerWord rate ->
  exists n, (1 <= n <= S k)%nat /\
    if decide (S i < length words)%nat
    then exists pause', 0 <= pause' <= 800 /\
           Running words rate id (S i) pause' (log ++ [Some (S i)])
             (run s (ticks id n))
    else Finished id (log ++ [None]) (run s (ticks id n)).
Proof.
  pose proof getMsPerWord_bounds as Hms.
  induction k as [|k IH]; intros i pause log s Hrun Hp.
  - exists 1%nat. split; [lia|]. unfold ticks. simpl. case_decide.
    + apply (tick_advance i pause); [done|lia..].
    + apply (tick_finish i pause); [done|lia..].
  - destruct (Z.le_gt_cases (pause - getMsPerWord rate) 0) as [Hle|Hgt].
    + exists 1%nat. split; [lia|]. unfold ticks. simpl. case_decide.
      * apply (tick_advance i pause); [done|lia..].
      * apply (tick_finish i pause); [done|lia..].
    + destruct (IH i (pause - getMsPerWord rate) log (step s (Fire id)))
        as (n & Hn & H); [by apply tick_pause|lia|].
      exists (S n). split; [lia|]. exact H.
Qed.

Lemma ticks_add n m s :
  run s (ticks id (n + m)) = run (run s (ticks id n)) (ticks id m).
Proof. unfold ticks. by rewrite replicate_add, run_app. Qed.

(** From word [i] on, the pacing publishes every later word once, in
    order, and ends. *)
Lemma pace_to_end (m : nat) : forall i pause log s,
  m = (length words - S i)%nat -> (i < length words)%nat ->
  Running words rate id i pause log s -> 0 <= pause <= 800 ->
  exists n, (n <= 7 * (length words - i))%nat /\
    Finished id (log ++ (Some <$> seq (S i) (length words - S i)) ++ [None])
      (run s (ticks id n)).
Proof.
  pose proof getMsPerWord_bounds as Hms.
  induction m as [|m IH]; intros i pause log s Hm Hi Hrun Hp;
    destruct (next_word 6 i pause log s Hrun ltac:(lia)) as (n1 & Hn1 & H);
    case_decide; try lia.
  - exists n1. split; [lia|]. by rewrite <- Hm.
  - destruct H as (pause' & Hp' & Hrun').
    destruct (IH (S i) pause' _ _ ltac:(lia) ltac:(lia) Hrun' Hp') as (n2 & Hn2 & Hfin).
    exists (n1 + n2)%nat. split; [lia|]. rewrite ticks_add.
    replace (length words - S i)%nat with (S (length words - S (S i))) by lia.
    simpl seq. rewrite fmap_cons. by rewrite <- app_assoc in Hfin.
Qed.

(** [startFallback] in a session that is speaking, and the render that
    mirrors [isSpeaking] into [isSpeakingRef]: the interval runs at word 0. *)
Lemma startFallback_running s :
  isSpeaking s = true ->
  Running words rate (nextId s) 0 0 (published s ++ [Some 0%nat])
    (step (exec (startFallback words rate) s) Render).
Proof.
  unfold Running. destruct s. cbn [isSpeaking nextId published].
  intros ->. handlers. destruct isSpeakingRef0; simpl; handlers;
    by rewrite lookup_insert_eq.
Qed.

Lemma ticks_after_finish log k : forall s,
  Finished id log s -> run s (ticks id k) = s.
Proof.
  induction k as [|k IH]; intros s Hfin; [done|].
  unfold ticks. simpl. rewrite (tick_after_finish log s Hfin). by apply IH.
Qed.

(** From the start of the pacing to its end. *)
Lemma pace_from_start log s :
  words <> [] -> Running words rate id 0 0 (log ++ [Some 0%nat]) s ->
  exists n, (n <= 7 * length words)%nat /\
    Finished id (log ++ (Some <$> seq 0 (length words)) ++ [None])
      (run s (ticks id n)).
Proof.
  intros Hne Hrun.
  assert (0 < length words)%nat as Hlen by (destruct words; [done|simpl; lia]).
  destruct (pace_to_end (length words - 1) 0 0 _ s eq_refl Hlen Hrun ltac:(lia))
    as (n & Hn & Hfin).
  exists n. split; [lia|].
  replace (log ++ (Some <$> seq 0 (length words)) ++ [None])
    with ((log ++ [Some 0%nat]) ++ (Some <$> seq 1 (length words - 1)) ++ [None]);
    [done|].
  rewrite <- app_assoc. f_equal.
  destruct (length words) as [|l]; [lia|]. simpl.
  by replace (l - 0)%nat with l by lia.
Qed.

End FallbackFacts.

(** The component as mounted, play pressed, and the timers fired up to the
    start of the fallback: on Android the delayed start, then the render;
    on desktop the delayed start, the render, then the deadline with no
    boundary heard. *)
Lemma fallback_started (android : bool) c story rate :
  let words := Words.splitWords (c :: story) in
  Running words rate (if android then 3 else 4)%positive 0 0 ([None] ++ [Some 0%nat])
    (run (initial (c :: story) android false)
         (if android then [Play rate; Fire 1; Render]
          else [Play rate; Fire 2; Render; Fire 1])%positive).
Proof. intros words. unfold Running. destruct android; repeat split; reflexivity. Qed.

(** C1. Fallback pacing started on a non-empty word list, at any rate and
    in a session that is speaking and is not stopped, runs to completion:
    within seven ticks per word the values published for [currentWordIndex]
    are 0, 1, ..., [length words - 1], each once and in this order, followed
    by [null]; the interval is then cleared, [isSpeaking] is false, the
    index is [null], and a later firing of the interval changes nothing.
    So it is from the mounted component, for every story with a word: on
    Android after play and the delayed start, on desktop when moreover the
    deadline fires with no boundary heard. *)
Theorem fallback_visits_every_word :
  (forall (words : list jsstring) (rate : Q) (s : State),
     words <> [] -> isSpeaking s = true ->
     let id := nextId s in
     let s1 := step (exec (startFallback words rate) s) Render in
     exists n, (n <= 7 * length words)%nat /\
       let s2 := run s1 (ticks id n) in
       published s2
         = published s ++ (Some <$> seq 0 (length words)) ++ [None] /\
       timers s2 !! id = None /\ highlightTimerRef s2 = None /\
       isSpeaking s2 = false /\ currentWordIndex s2 = None /\
       forall k, run s2 (ticks id k) = s2) /\
  (forall (story : jsstring) (rate : Q) (android : bool),
     let words := Words.splitWords story in
     words <> [] ->
     let start := (if android then [Play rate; Fire 1; Render]
                   else [Play rate; Fire 2; Render; Fire 1])%positive in
     let id := (if android then 3 else 4)%positive in
     exists n, (n <= 7 * length words)%nat /\
       let s2 := run (initial story android false) (start ++ ticks id n) in
       published s2 = [None] ++ (Some <$> seq 0 (length words)) ++ [None] /\
       timers s2 !! id = None /\ highlightTimerRef s2 = None /\
       isSpeaking s2 = false /\ currentWordIndex s2 = None).
Proof.
  split.
  - intros words rate s Hne Hlive id s1.
    destruct (pace_from_start words rate id (published s) s1 Hne
                (startFallback_running words rate s Hlive)) as (n & Hn & Hfin).
    exists n. split; [done|]. intros s2.
    pose proof Hfin as (Ht & Hr & Hsp & Hidx & Hlog).
    repeat split; try done. intros k. by eapply ticks_after_finish.
  - intros story rate android words Hne start id.
    destruct story as [|c story]; [done|].
    destruct (pace_from_start words rate id [None] _ Hne
                (fallback_started android c story rate)) as (n & Hn & Hfin).
    exists n. split; [done|]. intros s2. subst s2. rewrite run_app.
    by destruct Hfin as (Ht & Hr & Hsp & Hidx & Hlog).
Qed.

(** A desktop session on the story [Hi there. Bye now] at rate 1, at the
    moment its arbitration deadline starts the fallback; and the same story
    on Android at rate 0.5. *)
Lemma fallback_visits_every_word_witness :
  let words := Words.splitWords (js "Hi there. Bye now") in
  let s := run (initial (js "Hi there. Bye now") false false)
               [Play 1; Fire 2; Render]%positive in
  words <> [] /\ isSpeaking s = true /\
  (exists n, (n <= 7 * length words)%nat /\
     published (run (step (exec (startFallback words 1) s) Render)
                    (ticks (nextId s) n))
       = published s ++ (Some <$> seq 0 (length words)) ++ [None]) /\
  (exists n, (n <= 7 * length words)%nat /\
     published (run (initial (js "Hi there. Bye now") true false)
                    ([Play (1 # 2); Fire 1; Render]%positive ++ ticks 3 n))
       = [None] ++ (Some <$> seq 0 (length words)) ++ [None]).
Proof.
  intros words s.
  assert (words <> []) as Hne by (by vm_compute).
  assert (isSpeaking s = true) as Hlive by (by vm_compute).
  split; [exact Hne|]. split; [exact Hlive|]. split.
  - destruct (proj1 fallback_visits_every_word words 1%Q s Hne Hlive)
      as (n & Hn & Hlog & _).
    exists n. split; [exact Hn|exact Hlog].
  - destruct (proj2 fallback_visits_every_word (js "Hi there. Bye now")
                (1 # 2)%Q true Hne) as (n & Hn & Hlog & _).
    exists n. split; [exact Hn|exact Hlog].
Defined.

(** *** Stop and the grace window *)

Import SessionSpec.

(** Stopping: the effects of [stopSpeaking] on any state. *)
Lemma stopSpeaking_effects s :
  let s1 := step s Stop in
  currentWordIndex s1 = None /\ isSpeaking s1 = false /\ error s1 = None /\
  stoppedByUserRef s1 = true /\ highlightTimerRef s1 = None /\
  timers s1 !! nextId s = Some GraceReset /\
  published s1 = published s ++ [None] /\
  (forall id words rate i pause, highlightTimerRef s = Some id ->
     timers s1 !! id <> Some (Highlight words rate i pause)).
Proof.
  destruct s. handlers. destruct highlightTimerRef0 as [k|]; handlers;
    rewrite lookup_insert_eq; repeat split; try done.
  intros id words rate i pause [= ->]. rewrite lookup_insert.
  case_decide; [done|]. by rewrite lookup_delete_eq.
Qed.

(** *** Rules of the program logic *)

Import Logic.

Section Rules.
Context {A B : Type}.
Implicit Types (P : State -> Prop).

Lemma hoare_ret (x : A) (Q : A -> State -> Prop) : hoare (Q x) (mret x) Q.
Proof. by intros s. Qed.

Lemma hoare_bind P (R : A -> State -> Prop) (Q : B -> State -> Prop)
    (m : M A) (f : A -> M B) :
  hoare P m R -> (forall x, hoare (R x) (f x) Q) -> hoare P (m ≫= f) Q.
Proof.
  intros Hm Hf s HP. specialize (Hm s HP).
  unfold mbind, M_bind. destruct (m s) as [x s']. by apply Hf.
Qed.

Lemma hoare_get P : hoare P get (fun x s => x = s /\ P s).
Proof. by intros s. Qed.

Lemma hoare_modify P (Q : unit -> State -> Prop) (f : State -> State) :
  (forall s, P s -> Q tt (f s)) -> hoare P (modify f) Q.
Proof. intros H s HP. by apply H. Qed.

Lemma hoare_pre P P' (m : M A) (Q : A -> State -> Prop) :
  (forall s, P s -> P' s) -> hoare P' m Q -> hoare P m Q.
Proof. intros HPP Hm s HP. by apply Hm, HPP. Qed.

Lemma hoare_post P (m : M A) (Q Q' : A -> State -> Prop) :
  (forall x s, Q' x s -> Q x s) -> hoare P m Q' -> hoare P m Q.
Proof. intros HQQ Hm s HP. by apply HQQ, Hm. Qed.

Lemma keeps_bind P (m : M A) (f : A -> M B) :
  keeps P m -> (forall x, keeps P (f x)) -> keeps P (m ≫= f).
Proof. intros Hm Hf. by eapply hoare_bind. Qed.

(** A test on the state read by [get] is a test on the current state. *)
Lemma keeps_get_bind P (f : State -> M B) :
  (forall x, P x -> hoare (fun s => s = x) (f x) (fun _ => P)) ->
  keeps P (get ≫= f).
Proof. intros H s HP. by apply (H s HP s). Qed.

End Rules.

Lemma keeps_ret {A} (P : State -> Prop) (x : A) : keeps P (mret x).
Proof. by intros s. Qed.

Lemma keeps_skip (P : State -> Prop) : keeps P skip.
Proof. by intros s. Qed.

Lemma keeps_get (P : State -> Prop) : keeps P get.
Proof. by intros s. Qed.

Lemma keeps_exec {A} (P : State -> Prop) (m : M A) s :
  keeps P m -> P s -> P (exec m s).
Proof. intros H HP. by apply H. Qed.

Lemma exec_get_bind {A} (f : State -> M A) s : exec (get ≫= f) s = exec (f s) s.
Proof. done. Qed.

(** A callback keeps what each of its parts keeps, on every branch. *)
Ltac keeps_seq tac :=
  repeat first
    [ simple apply keeps_skip | simple apply keeps_ret | simple apply keeps_get
    | tac
    | match goal with
      | |- keeps _ (if ?b then _ else _) => destruct b
      | |- keeps _ (let '(_, _) := ?x in _) => destruct x
      | |- keeps _ (match ?x with _ => _ end) => destruct x
      end
    | simple apply keeps_bind; [|intros ?; cbv beta zeta] ].

(** A callback that only assigns fields [P] does not read keeps [P]. *)
Ltac keeps_frame :=
  let s := fresh "s" in let H := fresh "H" in
  intros s H; destruct s; exact H.

(** *** The stopped-by-user flag *)

Section FlagFacts.
Variable quiet : bool.

Lemma flagged_setIsSpeaking b : keeps (flagged quiet) (setIsSpeaking b).
Proof. keeps_frame. Qed.
Lemma flagged_setCurrentWordIndex v : keeps (flagged quiet) (setCurrentWordIndex v).
Proof. keeps_frame. Qed.
Lemma flagged_setUtteranceRef v : keeps (flagged quiet) (setUtteranceRef v).
Proof. keeps_frame. Qed.
Lemma flagged_setHighlightTimerRef v : keeps (flagged quiet) (setHighlightTimerRef v).
Proof. keeps_frame. Qed.
Lemma flagged_setFirstBoundaryHeardRef b :
  keeps (flagged quiet) (setFirstBoundaryHeardRef b).
Proof. keeps_frame. Qed.
Lemma flagged_setIsSpeakingRef b : keeps (flagged quiet) (setIsSpeakingRef b).
Proof. keeps_frame. Qed.
Lemma flagged_setTimers t n : keeps (flagged quiet) (setTimers t n).
Proof. keeps_frame. Qed.
Lemma flagged_setUtterances u : keeps (flagged quiet) (setUtterances u).
Proof. keeps_frame. Qed.
Lemma flagged_setError_None : keeps (flagged quiet) (setError None).
Proof. intros [] [H1 H2]. split; [exact H1|]. intros Hq. split; [done|]. by apply H2. Qed.
Lemma flagged_setStoppedByUserRef_true : keeps (flagged quiet) (setStoppedByUserRef true).
Proof. intros [] [H1 H2]. split; [done|exact H2]. Qed.

Ltac flagged_prim :=
  first
    [ simple apply flagged_setIsSpeaking | simple apply flagged_setCurrentWordIndex
    | simple apply flagged_setUtteranceRef | simple apply flagged_setHighlightTimerRef
    | simple apply flagged_setFirstBoundaryHeardRef | simple apply flagged_setIsSpeakingRef
    | simple apply flagged_setTimers | simple apply flagged_setUtterances
    | simple apply flagged_setError_None | simple apply flagged_setStoppedByUserRef_true ].

Lemma flagged_clearTimer id : keeps (flagged quiet) (clearTimer id).
Proof. unfold clearTimer. keeps_seq flagged_prim. Qed.

Lemma flagged_setTimer t : keeps (flagged quiet) (setTimer t).
Proof. unfold setTimer. keeps_seq flagged_prim. Qed.

Lemma flagged_clearHighlightTimer : keeps (flagged quiet) clearHighlightTimer.
Proof.
  unfold clearHighlightTimer. apply keeps_bind; [apply keeps_get|]. intros x.
  destruct (highlightTimerRef x); keeps_seq ltac:(first [flagged_prim|apply flagged_clearTimer]).
Qed.

Ltac flagged_auto :=
  keeps_seq ltac:(first [ flagged_prim | simple apply flagged_clearTimer
                        | simple apply flagged_setTimer
                        | simple apply flagged_clearHighlightTimer ]).

Lemma flagged_startFallback words rate :
  keeps (flagged quiet) (startFallback words rate).
Proof. unfold startFallback. flagged_auto. Qed.

Lemma flagged_tick words rate i pause :
  keeps (flagged quiet) (tick words rate i pause).
Proof. unfold tick. cbv zeta. flagged_auto. Qed.

Lemma flagged_onend u : keeps (flagged quiet) (onend u).
Proof. unfold onend. flagged_auto. Qed.

Lemma flagged_onboundary u charIndex : keeps (flagged quiet) (onboundary u charIndex).
Proof. unfold onboundary. flagged_auto. Qed.

Lemma flagged_stopSpeaking : keeps (flagged quiet) stopSpeaking.
Proof. unfold stopSpeaking, speechSynthesis_cancel. flagged_auto. Qed.

Lemma flagged_render : keeps (flagged quiet) render.
Proof.
  unfold render.
  keeps_seq ltac:(first [flagged_prim | simple apply flagged_stopSpeaking]).
Qed.

(** With the flag set, [onerror] takes the branch that sets no message. *)
Lemma flagged_onerror u err : keeps (flagged quiet) (onerror u err).
Proof.
  unfold onerror. apply keeps_bind; [flagged_auto|]. intros _.
  apply keeps_bind; [flagged_auto|]. intros _.
  apply keeps_get_bind. intros x Hx. rewrite (proj1 Hx). simpl.
  eapply hoare_pre; [intros s ->; exact Hx|]. flagged_auto.
Qed.

Lemma flagged_forget u : keeps (flagged quiet) (forget u).
Proof. unfold forget. flagged_auto. Qed.

Lemma flagged_setError v : quiet = false -> keeps (flagged quiet) (setError v).
Proof. intros -> [] [H1 _]. by split. Qed.

Lemma flagged_newUtterance : keeps (flagged quiet) newUtterance.
Proof. unfold newUtterance. flagged_auto. Qed.

(** [speak] raises only outside the quiet case. *)
Lemma flagged_speak id u :
  hoare (flagged quiet) (speak id u)
    (fun ok s => flagged quiet s /\ (ok = false -> quiet = false)).
Proof.
  unfold speak. eapply hoare_bind; [apply hoare_get|]. intros x.
  destruct (speakThrows x) eqn:E.
  - intros s [-> Hs]. cbv [mret M_ret fst snd]. split; [done|].
    intros _. destruct quiet; [|done].
    destruct Hs as [_ Hq]. destruct (Hq eq_refl). congruence.
  - eapply hoare_pre; [intros s H; exact (proj2 H)|].
    eapply hoare_bind; [ simple apply flagged_setUtterances|]. intros _ s Hs.
    cbv [mret M_ret fst snd]. by split.
Qed.

Lemma flagged_speakAndroid words rate : keeps (flagged quiet) (speakAndroid words rate).
Proof.
  unfold speakAndroid. apply keeps_bind; [ simple apply flagged_newUtterance|]. intros id.
  apply keeps_bind; [flagged_auto|]. intros _.
  eapply hoare_bind; [ simple apply flagged_speak|]. intros [|].
  - eapply hoare_pre; [intros s H; exact (proj1 H)|].
    keeps_seq ltac:(first [flagged_prim | simple apply flagged_startFallback]).
  - intros s [Hs Hq]. specialize (Hq eq_refl). revert s Hs.
    change (keeps (flagged quiet) (setError (Some audioNotGenerated) ;; setIsSpeaking false)).
    keeps_seq ltac:(first [flagged_prim | by simple apply flagged_setError]).
Qed.

Lemma flagged_speakDesktop words rate d :
  keeps (flagged quiet) (speakDesktop words rate d).
Proof.
  unfold speakDesktop. apply keeps_bind; [ simple apply flagged_newUtterance|]. intros id.
  apply keeps_bind; [flagged_auto|]. intros _.
  eapply hoare_bind; [ simple apply flagged_speak|]. intros [|].
  - eapply hoare_pre; [intros s H; exact (proj1 H)|]. flagged_auto.
  - intros s [Hs Hq]. specialize (Hq eq_refl). revert s Hs.
    change (keeps (flagged quiet)
              (clearTimer d ;; setError (Some audioNotGenerated) ;; setIsSpeaking false)).
    keeps_seq ltac:(first [ flagged_prim | simple apply flagged_clearTimer
                          | by simple apply flagged_setError ]).
Qed.

(** Every event other than play and a firing reset keeps the flag set and,
    in the quiet case, the error message absent. *)
Lemma flagged_step s e :
  match e with
  | Play _ => False
  | Fire id => timers s !! id <> Some GraceReset
  | _ => True
  end ->
  flagged quiet s -> flagged quiet (step s e).
Proof.
  intros He Hs. unfold step. destruct e as [rate| | |id|u c|u|u err]; simpl handle.
  - done.
  - by apply keeps_exec, Hs; apply flagged_stopSpeaking.
  - by apply keeps_exec, Hs; apply flagged_render.
  - unfold fire. rewrite exec_get_bind.
    destruct (timers s !! id) as [[| | | |]|] eqn:E; [done|..|done];
      (apply keeps_exec; [|exact Hs]);
      keeps_seq ltac:(first [ flagged_prim | simple apply flagged_clearTimer
                            | simple apply flagged_startFallback
                            | simple apply flagged_speakAndroid
                            | simple apply flagged_speakDesktop | simple apply flagged_tick ]).
  - unfold withUtterance. rewrite exec_get_bind.
    destruct (utterances s !! u); [by apply keeps_exec, Hs; apply flagged_onboundary|done].
  - unfold withUtterance. rewrite exec_get_bind.
    destruct (utterances s !! u); [|done]. apply keeps_exec; [|exact Hs].
    apply keeps_bind; [apply flagged_onend|intros _; apply flagged_forget].
  - unfold withUtterance. rewrite exec_get_bind.
    destruct (utterances s !! u); [|done]. apply keeps_exec; [|exact Hs].
    apply keeps_bind; [apply flagged_onerror|intros _; apply flagged_forget].
Qed.

End FlagFacts.

Lemma flagged_run quiet tr : forall s,
  withinGrace s tr -> flagged quiet s -> flagged quiet (run s tr).
Proof.
  induction tr as [|e tr IH]; intros s Hw Hs; [done|].
  destruct Hw as [He Hw]. rewrite run_cons. apply IH; [done|].
  by apply flagged_step.
Qed.

(** An error callback always leaves the component idle, and with the flag
    set it leaves the error message as it was. *)
Lemma step_error_known s u ut err :
  utterances s !! u = Some ut ->
  let s' := step s (Error u err) in
  isSpeaking s' = false /\ currentWordIndex s' = None /\
  (stoppedByUserRef s = true -> error s' = error s).
Proof.
  intros H. unfold step. simpl handle. unfold withUtterance.
  rewrite exec_get_bind, H. clear H.
  destruct s, ut, highlightTimerRef0; handlers;
    destruct stoppedByUserRef0; simpl; try done;
    destruct (eqUnits err (js "interrupted") || eqUnits err (js "canceled"));
    done.
Qed.

Lemma step_error_unknown s u err :
  utterances s !! u = None -> step s (Error u err) = s.
Proof.
  intros H. unfold step. simpl handle. unfold withUtterance.
  rewrite exec_get_bind. by rewrite H.
Qed.

(** C3, as amended. Stop makes the index [null] and [isSpeaking] false,
    clears the message, cancels the registered pacing interval, sets the
    stopped-by-user flag and schedules its reset. From then on, through any
    events in which play is not pressed and no reset timeout fires, the flag
    stays set, and an error callback of the driver leaves the message as it
    was (absent, when [speak] does not raise) and the component idle. *)
Theorem stop_discards_errors_while_flag_set (s : State) (tr : list Event)
    (u : positive) (err : jsstring) :
  let s1 := step s Stop in
  withinGrace s1 tr ->
  let s2 := run s1 tr in
  let s3 := step s2 (Error u err) in
  (currentWordIndex s1 = None /\ isSpeaking s1 = false /\ error s1 = None /\
   stoppedByUserRef s1 = true /\ highlightTimerRef s1 = None /\
   timers s1 !! nextId s = Some GraceReset /\
   forall id words rate i pause, highlightTimerRef s = Some id ->
     timers s1 !! id <> Some (Highlight words rate i pause)) /\
  stoppedByUserRef s2 = true /\
  error s3 = error s2 /\
  (speakThrows s = false -> error s3 = None) /\
  (is_Some (utterances s2 !! u) ->
     isSpeaking s3 = false /\ currentWordIndex s3 = None).
Proof.
  intros s1 Hw s2 s3.
  destruct (stopSpeaking_effects s) as (H1 & H2 & H3 & H4 & H5 & H6 & _ & H8).
  fold s1 in H1, H2, H3, H4, H5, H6, H8.
  split; [done|].
  assert (flagged false s1) as Hf1 by done.
  pose proof (flagged_run false tr s1 Hw Hf1) as [Hflag _]. fold s2 in Hflag.
  split; [done|].
  assert (error s3 = error s2) as Herr.
  { subst s3. destruct (utterances s2 !! u) as [ut|] eqn:E.
    - by apply (step_error_known _ _ _ err E).
    - by rewrite step_error_unknown. }
  split; [done|]. split.
  - intros Hq. rewrite Herr.
    assert (flagged true s1) as Hq1.
    { split; [done|]. intros _. split; [done|].
      subst s1. destruct s. revert Hq. handlers. by destruct highlightTimerRef0. }
    by destruct (flagged_run true tr s1 Hw Hq1) as [_ [? _]].
  - intros [ut E]. subst s3.
    pose proof (step_error_known _ _ _ err E) as (? & ? & _). done.
Qed.

(** A session is speaking; stop is pressed; the deadline timer, which stop
    does not cancel, fires and a render commits; the driver then reports a
    failure of synthesis, and no message is shown. *)
Lemma stop_discards_errors_while_flag_set_witness :
  let s := run (initial (js "Hi there. Bye now") false false)
               [Play 1; Fire 2; Render]%positive in
  let tr := [Render; Fire 1; Boundary 3 4]%positive in
  let err := js "synthesis-failed" in
  withinGrace (step s Stop) tr /\ speakThrows s = false /\
  is_Some (utterances (run (step s Stop) tr) !! 3%positive) /\
  error (step (run (step s Stop) tr) (Error 3 err)) = None /\
  isSpeaking (step (run (step s Stop) tr) (Error 3 err)) = false.
Proof.
  intros s tr err.
  assert (withinGrace (step s Stop) tr) as Hw by (by vm_compute).
  assert (speakThrows s = false) as Hq by (by vm_compute).
  assert (is_Some (utterances (run (step s Stop) tr) !! 3%positive)) as Hu
    by (vm_compute; eauto).
  destruct (stop_discards_errors_while_flag_set s tr 3 err Hw)
    as (_ & _ & _ & Hnone & Hidle).
  split; [exact Hw|]. split; [exact Hq|]. split; [exact Hu|].
  split; [exact (Hnone Hq)|exact (proj1 (Hidle Hu))].
Defined.

(** C3, as stated, fails. A session is speaking and stop is pressed; play
    is pressed again, which clears the flag; the driver then reports a
    failure of the stopped utterance. The reset timeout of the stop is
    still pending, yet the message is shown. *)
Lemma error_within_grace_is_shown :
  let s := run (initial (js "Hi there. Bye now") false false)
               [Play 1; Fire 2; Render]%positive in
  let s1 := step s Stop in
  let s2 := run s1 [Play 1] in
  let s3 := step s2 (Error 3 (js "synthesis-failed")) in
  isSpeaking s = true /\
  is_Some (utterances s2 !! 3%positive) /\
  stoppedByUserRef s1 = true /\ error s1 = None /\
  timers s2 !! nextId s = Some GraceReset /\
  error s3 = Some audioUnsupported.
Proof. vm_compute. repeat split; eauto. Qed.

(** *** Boundary events *)

(** A boundary event publishes the word of its offset, or nothing when the
    offset is past the last word, and keeps the utterances. *)
Lemma boundary_step s u words d charIndex :
  utterances s !! u = Some (DesktopUtterance words d) ->
  let s' := step s (Boundary u charIndex) in
  utterances s' = utterances s /\
  published s' = published s ++ (Some <$> option_list (Words.boundaryWord words charIndex)) /\
  currentWordIndex s' =
    match Words.boundaryWord words charIndex with
    | Some i => Some i
    | None => currentWordIndex s
    end.
Proof.
  intros Hu. unfold step. simpl handle. unfold withUtterance.
  rewrite exec_get_bind, Hu. clear Hu.
  destruct s, firstBoundaryHeardRef0, highlightTimerRef0; handlers;
    destruct (Words.boundaryWord words charIndex); handlers;
    by rewrite ?app_nil_r.
Qed.

Lemma boundary_run u words d (offsets : list nat) : forall s,
  utterances s !! u = Some (DesktopUtterance words d) ->
  published (run s (Boundary u <$> offsets))
    = published s ++ (Some <$> omap (Words.boundaryWord words) offsets).
Proof.
  induction offsets as [|o offsets IH]; intros s Hu.
  - simpl. by rewrite app_nil_r.
  - destruct (boundary_step s u words d o Hu) as (HU & Hp & _).
    rewrite fmap_cons, run_cons, IH by (by rewrite HU).
    rewrite Hp, <- app_assoc. f_equal. cbn [omap list_omap].
    by destruct (Words.boundaryWord words o).
Qed.

(** C2. A boundary offset is mapped to the first word whose cumulative
    length, each word counted with one separating space, exceeds the
    offset; when an offset does not exceed another, neither does its word;
    so over a run of boundary events with non-decreasing offsets the
    indices published are non-decreasing. *)
Theorem boundary_indices_monotone (words : list jsstring) :
  (forall charIndex i,
     Words.boundaryWord words charIndex = Some i <->
     (i < length words)%nat /\
     (charIndex < Words.cumulative words (S i))%nat /\
     forall k, (k < i)%nat -> (Words.cumulative words (S k) <= charIndex)%nat) /\
  (forall o1 o2 i1 i2, (o1 <= o2)%nat ->
     Words.boundaryWord words o1 = Some i1 ->
     Words.boundaryWord words o2 = Some i2 -> (i1 <= i2)%nat) /\
  (forall offsets, StronglySorted le offsets ->
     StronglySorted le (omap (Words.boundaryWord words) offsets)) /\
  (forall s u d offsets,
     utterances s !! u = Some (DesktopUtterance words d) ->
     published (run s (Boundary u <$> offsets))
       = published s ++ (Some <$> omap (Words.boundaryWord words) offsets)).
Proof.
  split; [apply boundaryWord_Some|]. split; [apply boundaryWord_mono|].
  split; [apply boundaryIndices_sorted|].
  intros s u d offsets. apply boundary_run.
Qed.

(** The story [Hi there. Bye now] with boundary events at offsets 0, 3, 4,
    10 and 14. *)
Lemma boundary_indices_monotone_witness :
  let words := Words.splitWords (js "Hi there. Bye now") in
  let s := run (initial (js "Hi there. Bye now") false false)
               [Play 1; Fire 2; Render]%positive in
  utterances s !! 3%positive = Some (DesktopUtterance words 1) /\
  StronglySorted le [0; 3; 4; 10; 14]%nat /\
  omap (Words.boundaryWord words) [0; 3; 4; 10; 14]%nat = [0; 1; 1; 2; 3]%nat /\
  StronglySorted le (omap (Words.boundaryWord words) [0; 3; 4; 10; 14]%nat) /\
  published (run s (Boundary 3 <$> [0; 3; 4; 10; 14]%nat))
    = published s ++ (Some <$> omap (Words.boundaryWord words) [0; 3; 4; 10; 14]%nat).
Proof.
  intros words s.
  assert (utterances s !! 3%positive = Some (DesktopUtterance words 1)) as Hu
    by (by vm_compute).
  assert (StronglySorted le [0; 3; 4; 10; 14]%nat) as Hs
    by (repeat constructor; lia).
  destruct (boundary_indices_monotone words) as (_ & _ & Hsorted & Hrun).
  split; [exact Hu|]. split; [exact Hs|]. split; [by vm_compute|].
  split; [exact (Hsorted _ Hs)|exact (Hrun s 3%positive 1%positive _ Hu)].
Defined.

(** *** One session: the invariant on the timer table *)

Section SessionFacts.
Variables (android : bool) (d : positive).
Implicit Types (T : gmap positive Timer) (U : gmap positive Utterance).
Implicit Types (ref : option positive) (next : positive).

Lemma session_registered ref heard T U next id words rate i pause :
  session android d ref heard T U next ->
  T !! id = Some (Highlight words rate i pause) -> ref = Some id.
Proof. intros (_ & HT & _) Hid. by destruct (HT _ _ Hid). Qed.

Lemma session_noHighlight heard T U next :
  session android d None heard T U next -> noHighlight T.
Proof.
  intros Hs id words rate i pause Hid.
  by pose proof (session_registered _ _ _ _ _ _ _ _ _ _ Hs Hid).
Qed.

(** While the timer that starts the fallback is pending, no interval runs. *)
Lemma session_pending ref heard T U next t k :
  session android d ref heard T U next -> T !! d = Some t ->
  noHighlight (delete k T).
Proof.
  intros (_ & HT & _) HTd id words rate i pause [_ Hid]%lookup_delete_Some.
  destruct (HT _ _ Hid) as [_ ?]. congruence.
Qed.

Lemma session_delete ref heard T U next k :
  session android d ref heard T U next ->
  session android d ref heard (delete k T) U next.
Proof.
  intros (Hd & HT & HU & Hh). split; [done|]. split; [|split; [done|]].
  - intros id t [Hne Hid]%lookup_delete_Some. specialize (HT _ _ Hid).
    destruct t; simpl in *; try done. destruct HT as [? HT].
    split; [done|]. apply lookup_delete_None. by right.
  - intros Hheard. destruct (Hh Hheard) as (? & ? & ?). split; [done|].
    split; [|done]. apply lookup_delete_None. by right.
Qed.

Lemma session_clear heard T U next k :
  session android d (Some k) heard T U next ->
  session android d None heard (delete k T) U next.
Proof.
  intros (Hd & HT & HU & Hh). split; [done|]. split; [|split; [done|]].
  - intros id t [Hne Hid]%lookup_delete_Some. specialize (HT _ _ Hid).
    destruct t; simpl in *; try done. destruct HT as [[= ->] _]. done.
  - intros Hheard. by destruct (Hh Hheard) as (_ & _ & ?).
Qed.

Lemma session_insert_grace ref heard T U next :
  session android d ref heard T U next ->
  session android d ref heard (<[next := GraceReset]> T) U (Pos.succ next).
Proof.
  intros (Hd & HT & HU & Hh).
  assert (next <> d) as Hne by lia.
  split; [lia|]. split; [|split; [done|]].
  - intros id t. rewrite lookup_insert. case_decide.
    + by intros [= <-].
    + intros Hid. specialize (HT _ _ Hid). destruct t; simpl in *; try done.
      destruct HT as [? HT]. split; [done|]. by rewrite lookup_insert_ne.
  - intros Hheard. destruct (Hh Hheard) as (? & ? & ?). split; [done|].
    split; [|done]. by rewrite lookup_insert_ne.
Qed.

Lemma session_next ref heard T U next :
  session android d ref heard T U next ->
  session android d ref heard T U (Pos.succ next).
Proof. intros (Hd & HT & HU & Hh). split; [lia|done]. Qed.

Lemma session_speak ref heard T U next u ut :
  utteranceOk android d ut ->
  session android d ref heard T U next ->
  session android d ref heard T (<[u := ut]> U) next.
Proof.
  intros Hut (Hd & HT & HU & Hh). split; [done|]. split; [done|]. split; [|done].
  by apply map_Forall_insert_2.
Qed.

(** The fallback starts: the interval it registers is the only one. *)
Lemma session_start ref T U next words rate i pause :
  session android d ref false T U next ->
  T !! d = None -> noHighlight T ->
  session android d (Some next) false
    (<[next := Highlight words rate i pause]> T) U (Pos.succ next).
Proof.
  intros (Hd & HT & HU & Hh) HTd Hno.
  assert (next <> d) as Hne by lia.
  split; [lia|]. split; [|split; [done|done]].
  intros id t. rewrite lookup_insert. case_decide.
  - intros [= <-]. subst id. split; [done|]. by rewrite lookup_insert_ne.
  - intros Hid. specialize (HT _ _ Hid). destruct t; simpl in *; try done.
    by destruct (Hno _ _ _ _ _ Hid).
Qed.

Lemma session_heard T U next :
  android = false ->
  session android d None false T U next -> T !! d = None ->
  session android d None true T U next.
Proof. intros Ha (Hd & HT & HU & Hh) HTd. by repeat split. Qed.

(** The variables of a running interval are written back. *)
Lemma session_alter ref heard T U next id words rate i pause :
  session android d ref heard T U next ->
  (forall t, T !! id = Some t -> exists w r j p, t = Highlight w r j p) ->
  session android d ref heard
    (alter (fun _ => Highlight words rate i pause) id T) U next.
Proof.
  intros (Hd & HT & HU & Hh) Hid.
  assert (T !! d = None ->
          alter (fun _ : Timer => Highlight words rate i pause) id T !! d = None)
    as Hgone.
  { intros HTd. rewrite lookup_alter. case_decide; [|done]. subst. by rewrite HTd. }
  split; [done|]. split; [|split; [done|]].
  - intros id' t. rewrite lookup_alter. case_decide.
    + subst id'. destruct (T !! id) as [t0|] eqn:E; [|done].
      intros [= <-]. destruct (Hid _ eq_refl) as (w & r & j & p & ->).
      destruct (HT _ _ E) as [? HTd]. split; [done|]. by apply Hgone.
    + intros E. specialize (HT _ _ E). destruct t; simpl in *; try done.
      destruct HT as [? HTd]. split; [done|]. by apply Hgone.
  - intros Hheard. destruct (Hh Hheard) as (? & HTd & ?). split; [done|].
    split; [|done]. by apply Hgone.
Qed.

(** Once a boundary was heard, only reset timeouts and a delayed desktop
    start are pending. *)
Lemma session_heard_cancelled ref T U next :
  session android d ref true T U next ->
  map_Forall (fun _ t => t = GraceReset \/
                exists words rate d', t = SpeakDesktop words rate d') T.
Proof.
  intros (Hd & HT & HU & Hh) id t Hid. destruct (Hh eq_refl) as (Ha & HTd & ->).
  specialize (HT _ _ Hid). destruct t; simpl in *.
  - by left.
  - destruct HT as [_ ->]. congruence.
  - destruct HT as [? _]. congruence.
  - right. eauto.
  - by destruct HT.
Qed.

End SessionFacts.

Section SessionKeeps.
Variable d : positive.

(** Reduces a goal on the state after a callback to its fields. *)
Ltac on_fields :=
  let s := fresh "s" in let H := fresh "H" in
  intros s H; destruct s; unfold sessionInv in *;
  cbn [isAndroid highlightTimerRef firstBoundaryHeardRef timers utterances nextId]
    in H;
  handlers.

Lemma inv_setIsSpeaking b : keeps (sessionInv d) (setIsSpeaking b).
Proof. keeps_frame. Qed.
Lemma inv_setCurrentWordIndex v : keeps (sessionInv d) (setCurrentWordIndex v).
Proof. keeps_frame. Qed.
Lemma inv_setError v : keeps (sessionInv d) (setError v).
Proof. keeps_frame. Qed.
Lemma inv_setUtteranceRef v : keeps (sessionInv d) (setUtteranceRef v).
Proof. keeps_frame. Qed.
Lemma inv_setStoppedByUserRef b : keeps (sessionInv d) (setStoppedByUserRef b).
Proof. keeps_frame. Qed.
Lemma inv_setIsSpeakingRef b : keeps (sessionInv d) (setIsSpeakingRef b).
Proof. keeps_frame. Qed.

Lemma inv_clearTimer k : keeps (sessionInv d) (clearTimer k).
Proof. on_fields. by apply session_delete. Qed.

Lemma inv_setTimer_grace : keeps (sessionInv d) (setTimer GraceReset).
Proof. on_fields. by apply session_insert_grace. Qed.

Lemma inv_newUtterance : keeps (sessionInv d) newUtterance.
Proof. on_fields. by apply session_next. Qed.

Lemma inv_clearHighlightTimer : keeps (sessionInv d) clearHighlightTimer.
Proof.
  on_fields. destruct highlightTimerRef0 as [k|]; handlers; [|done].
  by apply session_clear.
Qed.

Ltac inv_prim :=
  first
    [ simple apply inv_setIsSpeaking | simple apply inv_setCurrentWordIndex
    | simple apply inv_setError | simple apply inv_setUtteranceRef
    | simple apply inv_setStoppedByUserRef | simple apply inv_setIsSpeakingRef
    | simple apply inv_clearTimer | simple apply inv_setTimer_grace
    | simple apply inv_newUtterance | simple apply inv_clearHighlightTimer ].

Ltac inv_auto := keeps_seq inv_prim.

Lemma inv_forget u : keeps (sessionInv d) (forget u).
Proof.
  on_fields. destruct H as (Hd & HT & HU & Hh). split; [done|]. split; [done|].
  split; [|done]. by apply map_Forall_delete.
Qed.

Lemma inv_stopSpeaking : keeps (sessionInv d) stopSpeaking.
Proof. unfold stopSpeaking, speechSynthesis_cancel. inv_auto. Qed.

Lemma inv_render : keeps (sessionInv d) render.
Proof. unfold render. keeps_seq ltac:(first [inv_prim | simple apply inv_stopSpeaking]). Qed.

Lemma inv_onend u : keeps (sessionInv d) (onend u).
Proof. unfold onend. inv_auto. Qed.

Lemma inv_onerror u err : keeps (sessionInv d) (onerror u err).
Proof. unfold onerror. inv_auto. Qed.

(** The first boundary cancels the deadline and the registered interval. *)
Lemma inv_onboundary ut charIndex s :
  sessionInv d s -> utteranceOk (isAndroid s) d ut ->
  sessionInv d (exec (onboundary ut charIndex) s).
Proof.
  destruct ut as [|words d']; [by intros Hs _|].
  revert s. on_fields. cbn [isAndroid]. intros [-> ->].
  destruct firstBoundaryHeardRef0; handlers.
  - by destruct (Words.boundaryWord words charIndex).
  - assert (session false d None true
              (match highlightTimerRef0 with
               | Some k => delete k (delete d timers0)
               | None => delete d timers0
               end) utterances0 nextId0) as Hs.
    { apply (session_delete _ d _ _ _ _ _ d) in H.
      destruct highlightTimerRef0 as [k|].
      - apply session_clear in H. apply session_heard; [done..|].
        apply lookup_delete_None. right. apply lookup_delete_eq.
      - apply session_heard; [done..|]. apply lookup_delete_eq. }
    destruct highlightTimerRef0 as [k|]; handlers;
      by destruct (Words.boundaryWord words charIndex).
Qed.

Lemma inv_speak id ut s :
  sessionInv d s -> utteranceOk (isAndroid s) d ut ->
  sessionInv d (exec (speak id ut) s).
Proof.
  revert s. on_fields. cbn [isAndroid]. intros Hut.
  destruct speakThrows0; handlers; [done|]. by apply session_speak.
Qed.

End SessionKeeps.

Section SessionSteps.
Variable d : positive.

Ltac on_state s H :=
  destruct s; unfold sessionInv in *;
  cbn [isAndroid highlightTimerRef firstBoundaryHeardRef timers utterances nextId]
    in *.

Lemma inv_fire_deadline s id words rate :
  timers s !! id = Some (FallbackDeadline words rate) ->
  sessionInv d s -> sessionInv d (step s (Fire id)).
Proof.
  intros E H. destruct (proj1 (proj2 H) _ _ E) as [_ ->].
  on_state s H. handlers. rewrite E. handlers.
  destruct firstBoundaryHeardRef0; handlers.
  - destruct H as (_ & _ & _ & Hh). destruct (Hh eq_refl) as (_ & ? & _). congruence.
  - eapply session_start.
    + apply session_delete. exact H.
    + apply lookup_delete_eq.
    + by eapply session_pending.
Qed.

Lemma inv_fire_speakAndroid s id words rate :
  timers s !! id = Some (SpeakAndroid words rate) ->
  sessionInv d s -> sessionInv d (step s (Fire id)).
Proof.
  intros E H. destruct (proj1 (proj2 H) _ _ E) as [Ha ->].
  on_state s H. subst isAndroid0. handlers. rewrite E. handlers.
  assert (firstBoundaryHeardRef0 = false) as ->.
  { destruct firstBoundaryHeardRef0; [|done].
    destruct H as (_ & _ & _ & Hh). by destruct (Hh eq_refl). }
  destruct speakThrows0; handlers.
  - by apply session_next, session_delete.
  - eapply session_start.
    + apply session_speak; [done|]. apply session_next, session_delete. exact H.
    + apply lookup_delete_eq.
    + by eapply session_pending.
Qed.

Lemma inv_fire_speakDesktop s id words rate fallbackTimer :
  timers s !! id = Some (SpeakDesktop words rate fallbackTimer) ->
  sessionInv d s -> sessionInv d (step s (Fire id)).
Proof.
  intros E H. destruct (proj1 (proj2 H) _ _ E) as [Ha ->].
  on_state s H. subst isAndroid0. handlers. rewrite E. handlers.
  destruct speakThrows0; handlers.
  - by apply session_delete, session_next, session_delete.
  - apply session_speak; [done|]. by apply session_next, session_delete.
Qed.

Lemma inv_fire_highlight s id words rate i pause :
  timers s !! id = Some (Highlight words rate i pause) ->
  sessionInv d s -> sessionInv d (step s (Fire id)).
Proof.
  intros E H. destruct (proj1 (proj2 H) _ _ E) as [Href _].
  on_state s H. subst highlightTimerRef0.
  assert (forall w r j p,
            session isAndroid0 d None firstBoundaryHeardRef0
              (alter (fun _ => Highlight w r j p) id (delete id timers0))
              utterances0 nextId0) as Hcleared.
  { intros w r j p. apply session_alter; [by apply session_clear|].
    intros t. by rewrite lookup_delete_eq. }
  assert (forall w r j p,
            session isAndroid0 d (Some id) firstBoundaryHeardRef0
              (alter (fun _ => Highlight w r j p) id timers0)
              utterances0 nextId0) as Hkept.
  { intros w r j p. apply session_alter; [done|].
    intros t. rewrite E. intros [= <-]. eauto. }
  handlers. rewrite E. handlers. destruct isSpeakingRef0; handlers.
  - destruct (0 <? pause); [destruct (pause - Pacing.getMsPerWord rate <=? 0)|];
      handlers; try done;
      destruct (length words <=? S i)%nat; handlers; done.
  - done.
Qed.

(** Every event but a press of play keeps the invariant of the session. *)
Lemma inv_step s e :
  match e with Play _ => False | _ => True end ->
  sessionInv d s -> sessionInv d (step s e).
Proof.
  intros He Hs. destruct e as [rate| | |id|u c|u|u err]; [done|..].
  - unfold step. simpl handle. apply keeps_exec; [apply inv_stopSpeaking|exact Hs].
  - unfold step. simpl handle. apply keeps_exec; [apply inv_render|exact Hs].
  - destruct (timers s !! id) as [t|] eqn:E.
    + destruct t.
      * unfold step. simpl handle. unfold fire. rewrite exec_get_bind, E.
        apply keeps_exec; [|exact Hs].
        keeps_seq ltac:(first [ simple apply inv_clearTimer
                              | simple apply inv_setStoppedByUserRef ]).
      * by eapply inv_fire_deadline.
      * by eapply inv_fire_speakAndroid.
      * by eapply inv_fire_speakDesktop.
      * by eapply inv_fire_highlight.
    + unfold step. simpl handle. unfold fire. by rewrite exec_get_bind, E.
  - unfold step. simpl handle. unfold withUtterance. rewrite exec_get_bind.
    destruct (utterances s !! u) as [ut|] eqn:E; [|done].
    apply inv_onboundary; [done|]. exact (proj1 (proj2 (proj2 Hs)) _ _ E).
  - unfold step. simpl handle. unfold withUtterance. rewrite exec_get_bind.
    destruct (utterances s !! u) as [ut|] eqn:E; [|done].
    apply keeps_exec; [|exact Hs].
    apply keeps_bind; [apply inv_onend|intros _; apply inv_forget].
  - unfold step. simpl handle. unfold withUtterance. rewrite exec_get_bind.
    destruct (utterances s !! u) as [ut|] eqn:E; [|done].
    apply keeps_exec; [|exact Hs].
    apply keeps_bind; [apply inv_onerror|intros _; apply inv_forget].
Qed.

Lemma inv_run tr : forall s,
  noPlay tr -> sessionInv d s -> sessionInv d (run s tr).
Proof.
  induction tr as [|e tr IH]; intros s Hn Hs; [done|].
  apply Forall_cons in Hn as [He Hn]. rewrite run_cons. apply IH; [done|].
  by apply inv_step.
Qed.

End SessionSteps.

(** Play pressed with no earlier session in flight starts a session; the
    timer that will start its fallback takes the next id. *)
Lemma inv_play s rate :
  quiescent s -> sessionInv (nextId s) (step s (Play rate)).
Proof.
  intros (Hstory & HU & HT). destruct s. unfold sessionInv.
  cbn [story isAndroid utterances timers nextId] in *. subst.
  destruct story0 as [|c story0]; [done|]. handlers.
  assert (forall (T : gmap positive Timer) ref,
            map_Forall (fun _ t => t = GraceReset) T ->
            map_Forall (timerOk isAndroid0 nextId0 None ref) T) as Hold.
  { intros T ref HG id t Hid. by rewrite (HG _ _ Hid). }
  assert (forall k, map_Forall (fun _ t => t = GraceReset) (delete k timers0))
    as Hdel by (intros k; by apply map_Forall_delete).
  destruct isAndroid0, highlightTimerRef0 as [k|]; handlers;
    (split; [lia|]); (split; [|split; [apply map_Forall_empty|done]]);
    intros id t; rewrite ?lookup_insert; repeat case_decide;
    try (by intros [= <-]); intros Hid;
    first [ by rewrite (HT _ _ Hid) | by rewrite (Hdel _ _ _ Hid) ].
Qed.

(** *** Arbitration between boundary events and the fallback *)

(** The first boundary event of an utterance, on any state. *)
Lemma first_boundary_cancels s u words d charIndex :
  utterances s !! u = Some (DesktopUtterance words d) ->
  firstBoundaryHeardRef s = false ->
  let s' := step s (Boundary u charIndex) in
  firstBoundaryHeardRef s' = true /\ timers s' !! d = None /\
  highlightTimerRef s' = None /\
  (forall id, highlightTimerRef s = Some id -> timers s' !! id = None).
Proof.
  intros Hu Hh. unfold step. simpl handle. unfold withUtterance.
  rewrite exec_get_bind, Hu. clear Hu. destruct s.
  cbn [firstBoundaryHeardRef] in Hh. subst.
  destruct highlightTimerRef0 as [k|]; handlers;
    destruct (Words.boundaryWord words charIndex); handlers;
    repeat split; try done;
    try (intros id [= <-]); rewrite ?lookup_delete_eq; try done;
    apply lookup_delete_None; right; apply lookup_delete_eq.
Qed.

(** A tick of the registered interval once the session is no longer live. *)
Lemma stale_tick_clears s id words rate i pause :
  timers s !! id = Some (Highlight words rate i pause) ->
  highlightTimerRef s = Some id ->
  isSpeakingRef s = false ->
  let s' := step s (Fire id) in
  timers s' !! id = None /\ highlightTimerRef s' = None /\
  published s' = published s /\ currentWordIndex s' = currentWordIndex s /\
  isSpeaking s' = isSpeaking s.
Proof.
  destruct s. cbn [timers highlightTimerRef isSpeakingRef].
  intros E -> ->. handlers. rewrite E. handlers.
  rewrite lookup_alter. case_decide; [|done]. by rewrite lookup_delete_eq.
Qed.

(** When only reset timeouts and a delayed desktop start are pending, no
    timer that fires writes the index. *)
Lemma fire_publishes_nothing s id :
  fallbackCancelled s ->
  published (step s (Fire id)) = published s /\
  currentWordIndex (step s (Fire id)) = currentWordIndex s.
Proof.
  intros Hc. unfold step. simpl handle. unfold fire. rewrite exec_get_bind.
  destruct (timers s !! id) as [t|] eqn:E; [|done].
  destruct (Hc _ _ E) as [->|(words & rate & d & ->)]; destruct s; handlers;
    [done|].
  by destruct speakThrows0.
Qed.

(** C4. Play pressed twice in a row, on desktop, before the delayed start
    of the first press has run: [playSpeak] clears the registered interval
    only, so the deadline of the first press stays pending beside the one
    of the second. With no boundary event before the two deadlines, each
    starts a fallback interval and the second registration overwrites the
    first in [highlightTimerRef]. The first boundary event then sets the
    latch and clears the registered interval; the other interval keeps
    running, and its next tick writes [currentWordIndex]. After a stop, a
    tick of that interval finds the liveness flag false and clears the
    registered interval, which is none: the interval itself is never
    cleared. *)
Lemma double_press_orphans_interval :
  let s0 := initial (js "Hi there. Bye now") false false in
  let s := run s0 [Play 1; Play (1 # 2); Fire 2; Render; Fire 4; Render;
                   Fire 1; Fire 3]%positive in
  let s1 := step s (Boundary 5 0) in
  let s2 := run s1 [Stop; Render] in
  firstBoundaryHeardRef s = false /\ highlightTimerRef s = Some 8%positive /\
  firstBoundaryHeardRef s1 = true /\ highlightTimerRef s1 = None /\
  timers s1 !! 8%positive = None /\
  timers s1 !! 7%positive
    = Some (Highlight (Words.splitWords (js "Hi there. Bye now")) 1 0 0) /\
  published (step s1 (Fire 7)) = published s1 ++ [Some 1%nat] /\
  currentWordIndex (step s1 (Fire 7)) = Some 1%nat /\
  isSpeakingRef s2 = false /\ is_Some (timers s2 !! 7%positive) /\
  timers (step s2 (Fire 7)) !! 7%positive = timers s2 !! 7%positive /\
  published (step s2 (Fire 7)) = published s2.
Proof. vm_compute. repeat split; by eexists. Qed.

(** X24. (1) The first boundary event of an utterance sets the latch,
    cancels the arbitration deadline of its session and the registered
    pacing interval. (2) In a session started by play with no earlier
    session in flight, on desktop and on Android, a pacing interval that
    runs is always the registered one; and at every moment at which a
    boundary has been heard the only timers pending are reset timeouts and
    a delayed start: no deadline and no pacing interval, and no timer that
    fires from there writes [currentWordIndex]. (3) A tick of the registered
    interval that finds the liveness flag false clears the interval and
    writes nothing. *)
Theorem boundary_and_fallback_exclusive :
  (forall s u words d charIndex,
     utterances s !! u = Some (DesktopUtterance words d) ->
     firstBoundaryHeardRef s = false ->
     let s' := step s (Boundary u charIndex) in
     firstBoundaryHeardRef s' = true /\ timers s' !! d = None /\
     highlightTimerRef s' = None /\
     (forall id, highlightTimerRef s = Some id -> timers s' !! id = None)) /\
  (forall s0 rate tr,
     quiescent s0 -> noPlay tr ->
     let s := run (step s0 (Play rate)) tr in
     (forall id words r i pause,
        timers s !! id = Some (Highlight words r i pause) ->
        highlightTimerRef s = Some id) /\
     (firstBoundaryHeardRef s = true ->
      fallbackCancelled s /\ noHighlight (timers s) /\
      forall id, published (step s (Fire id)) = published s /\
                 currentWordIndex (step s (Fire id)) = currentWordIndex s)) /\
  (forall s id words rate i pause,
     timers s !! id = Some (Highlight words rate i pause) ->
     highlightTimerRef s = Some id ->
     isSpeakingRef s = false ->
     let s' := step s (Fire id) in
     timers s' !! id = None /\ highlightTimerRef s' = None /\
     published s' = published s /\ currentWordIndex s' = currentWordIndex s /\
     isSpeaking s' = isSpeaking s).
Proof.
  split; [exact first_boundary_cancels|]. split; [|exact stale_tick_clears].
  intros s0 rate tr Hq Hn s.
  pose proof (inv_run _ tr _ Hn (inv_play s0 rate Hq)) as Hs. fold s in Hs.
  split; [intros id words r i pause; by eapply session_registered|].
  intros Hheard. unfold sessionInv in Hs. rewrite Hheard in Hs.
  assert (fallbackCancelled s) as Hc by (by eapply session_heard_cancelled).
  split; [done|]. split.
  - intros id words r i pause E. by destruct (Hc _ _ E) as [?|(? & ? & ? & ?)].
  - intros id. by apply fire_publishes_nothing.
Qed.

(** A second desktop session on [Hi there. Bye now], pressed at rate 0.5
    after a first one was heard to its end: the deadline starts the
    fallback, one tick shows the second word, then the first boundary event
    arrives at offset 4. *)
Lemma boundary_and_fallback_exclusive_witness :
  let s0 := run (initial (js "Hi there. Bye now") false false)
                [Play 1; Fire 2; Render; Boundary 3 0; End 3; Render]%positive in
  let tr := [Fire 6; Render; Fire 5; Fire 8; Boundary 7 4]%positive in
  let s := run (step s0 (Play (1 # 2))) tr in
  quiescent s0 /\ noPlay tr /\ firstBoundaryHeardRef s = true /\
  published s = published s0 ++ [None; Some 0; Some 1; Some 1]%nat /\
  fallbackCancelled s /\
  published (step s (Fire 8)) = published s.
Proof.
  intros s0 tr s.
  assert (quiescent s0) as Hq.
  { split; [by vm_compute|]. split; [by vm_compute|].
    replace (timers s0) with ({[4%positive := GraceReset]} : gmap positive Timer)
      by (by vm_compute).
    by apply map_Forall_singleton. }
  assert (noPlay tr) as Hn by (by repeat constructor).
  assert (firstBoundaryHeardRef s = true) as Hh by (by vm_compute).
  destruct (proj1 (proj2 boundary_and_fallback_exclusive) s0 (1 # 2)%Q tr Hq Hn)
    as (_ & Hheard).
  destruct (Hheard Hh) as (Hc & _ & Hfire).
  split; [exact Hq|]. split; [exact Hn|]. split; [exact Hh|].
  split; [by vm_compute|]. split; [exact Hc|exact (proj1 (Hfire 8%positive))].
Defined.

(** ** Words and phrases *)

Section WordFacts.
Import Words Phrases WordsSpec.

Implicit Types (w cur s : jsstring) (ws : list jsstring).

Lemma wordsFrom_words s : forall cur,
  Forall (fun c => isWhiteSpace c = false) cur -> Forall isWord (wordsFrom cur s).
Proof.
  induction s as [|c s IH]; intros cur Hcur; simpl.
  - destruct cur; [constructor|]. constructor; [by split|constructor].
  - destruct (isWhiteSpace c) eqn:E.
    + destruct cur; [by apply IH|]. constructor; [done|]. by apply IH.
    + apply IH. apply Forall_app. by repeat constructor.
Qed.

Lemma wordsFrom_concat s : forall cur,
  concat (wordsFrom cur s)
  = cur ++ List.filter (fun c => negb (isWhiteSpace c)) s.
Proof.
  induction s as [|c s IH]; intros cur; simpl.
  - destruct cur; simpl; [done|]. by rewrite !app_nil_r.
  - destruct (isWhiteSpace c) eqn:E; simpl.
    + destruct cur; simpl; rewrite IH; done.
    + rewrite IH. by rewrite <- app_assoc.
Qed.

Lemma wordsFrom_app w s : forall cur,
  Forall (fun c => isWhiteSpace c = false) w -> wordsFrom cur (w ++ s) = wordsFrom (cur ++ w) s.
Proof.
  induction w as [|c w IH]; intros cur Hw; simpl.
  - by rewrite app_nil_r.
  - inversion_clear Hw as [|? ? Hc Hw']. rewrite Hc, IH by done.
    by rewrite <- app_assoc.
Qed.

Lemma splitWords_join ws : Forall isWord ws -> splitWords (join ws) = ws.
Proof.
  unfold splitWords. induction 1 as [|w ws [Hne Hw] Hws IH]; [done|].
  destruct ws as [|w' ws].
  - simpl. rewrite <- (app_nil_r w) at 1. rewrite wordsFrom_app by done.
    simpl. by destruct w.
  - change (join (w :: w' :: ws)) with (w ++ 32%N :: join (w' :: ws)).
    rewrite wordsFrom_app by done.
    change (wordsFrom ([] ++ w) (32%N :: join (w' :: ws)))
      with (match w with
            | [] => wordsFrom [] (join (w' :: ws))
            | _ :: _ => w :: wordsFrom [] (join (w' :: ws))
            end).
    rewrite IH. by destruct w.
Qed.

Lemma splitFrom_app w s : forall cur,
  Forall (fun c => isWhiteSpace c = false) w -> splitFrom false cur (w ++ s) = splitFrom false (cur ++ w) s.
Proof.
  induction w as [|c w IH]; intros cur Hw; simpl.
  - by rewrite app_nil_r.
  - inversion_clear Hw as [|? ? Hc Hw']. rewrite Hc, IH by done.
    by rewrite <- app_assoc.
Qed.

Lemma splitFrom_word b w s :
  isWord w -> splitFrom b [] (w ++ s) = splitFrom false w s.
Proof.
  intros [Hne Hw]. destruct w as [|c w]; [done|].
  inversion_clear Hw as [|? ? Hc Hw']. simpl. rewrite Hc.
  by rewrite splitFrom_app.
Qed.

Lemma splitFrom_join ws b :
  ws <> [] -> Forall isWord ws -> splitFrom b [] (join ws) = ws.
Proof.
  intros Hne Hws. revert b. induction Hws as [|w ws Hw Hws IH]; [done|].
  intros b. destruct ws as [|w' ws].
  - simpl. rewrite <- (app_nil_r w) at 1. by rewrite splitFrom_word.
  - change (join (w :: w' :: ws)) with (w ++ 32%N :: join (w' :: ws)).
    rewrite splitFrom_word by done.
    change (splitFrom false w (32%N :: join (w' :: ws)))
      with (w :: splitFrom true [] (join (w' :: ws))).
    by rewrite IH.
Qed.

Lemma split_join ws : ws <> [] -> Forall isWord ws -> split (join ws) = ws.
Proof. apply splitFrom_join. Qed.

Lemma splitFrom_nonempty s : forall b cur, splitFrom b cur s <> [].
Proof.
  induction s as [|c s IH]; intros b cur; simpl; [done|].
  destruct (isWhiteSpace c); [destruct b|]; [apply IH|done|apply IH].
Qed.

Lemma split_length s : (1 <= length (split s))%nat.
Proof.
  pose proof (splitFrom_nonempty s false []) as H. unfold split.
  destruct (splitFrom false [] s); [done|simpl; lia].
Qed.

End WordFacts.

Section PhraseFacts.
Import Words Phrases WordsSpec.

#[local] Arguments join : simpl never.

Implicit Types (w p : jsstring) (ws tokens out buf : list jsstring).

Lemma chunkLoop_words target tokens : forall out buf,
  Forall isWord tokens -> Forall isWord buf ->
  concat (split <$> chunkLoop target tokens out buf)
  = concat (split <$> out) ++ buf ++ tokens.
Proof.
  induction tokens as [|w tokens IH]; intros out buf Htok Hbuf; simpl.
  - destruct buf as [|b buf]; [by rewrite app_nil_r|].
    rewrite fmap_app, concat_app. simpl.
    by rewrite split_join, !app_nil_r.
  - inversion_clear Htok as [|? ? Hw Htok'].
    assert (Forall isWord (buf ++ [w])) as Hbuf'
      by (apply Forall_app; split; [done|]; constructor; [done|constructor]).
    destruct (_ || _).
    + rewrite IH by (done || constructor).
      rewrite fmap_app, concat_app. simpl.
      rewrite split_join by (done || by destruct buf).
      by rewrite !app_nil_r, <- !app_assoc.
    + rewrite IH by done. by rewrite <- !app_assoc.
Qed.

Lemma chunk_concat text target :
  concat (split <$> chunkStoryToPhrases text target) = splitWords text.
Proof.
  unfold chunkStoryToPhrases. destruct text as [|c text]; [done|].
  rewrite chunkLoop_words; [done| |constructor].
  apply wordsFrom_words. constructor.
Qed.

Lemma chunkLoop_cut target tokens : forall out buf,
  Forall isWord tokens ->
  Forall (fun p => goodPhrase target p /\ closedPhrase target p) out ->
  Forall isWord buf ->
  Z.of_nat (length buf) < Z.max 1 target ->
  Forall (fun w => endsSentence w = false) buf ->
  let res := chunkLoop target tokens out buf in
  Forall (goodPhrase target) res /\
  forall i p, res !! i = Some p -> (S i < length res)%nat -> closedPhrase target p.
Proof.
  induction tokens as [|w tokens IH]; intros out buf Htok Hout Hbuf Hlen Hends; simpl.
  - assert (forall i p, out !! i = Some p -> closedPhrase target p) as Hclosed.
    { intros i p Hp. by destruct (proj1 (Forall_lookup _ _) Hout i p Hp). }
    destruct buf as [|b buf].
    + split; [eapply Forall_impl; [exact Hout|by intros ? []]|]. eauto.
    + split.
      * apply Forall_app. split; [eapply Forall_impl; [exact Hout|by intros ? []]|].
        constructor; [|constructor]. unfold goodPhrase, endsOnlyAtEnd.
        rewrite split_join by done. split; [done|]. split; [lia|].
        intros i x Hx Hend.
        rewrite (proj1 (Forall_lookup _ _) Hends i x Hx) in Hend. done.
      * intros i p Hp Hi. rewrite length_app in Hi. simpl in Hi.
        rewrite lookup_app_l in Hp by lia. eauto.
  - inversion_clear Htok as [|? ? Hw Htok'].
    assert (Forall isWord (buf ++ [w])) as Hbuf'
      by (apply Forall_app; split; [done|]; constructor; [done|constructor]).
    assert (buf ++ [w] <> []) as Hne by (by destruct buf).
    rewrite length_app. simpl length.
    destruct (_ || _) eqn:E.
    + apply IH; [done| |constructor|simpl; lia|constructor].
      apply Forall_app. split; [done|]. constructor; [|constructor].
      unfold goodPhrase, closedPhrase, endsOnlyAtEnd.
      rewrite split_join by done. rewrite length_app. simpl length.
      split; [split; [done|split; [lia|]]|].
      * intros i x Hx Hend. destruct (decide (i < length buf)%nat) as [Hi|Hi].
        -- rewrite lookup_app_l in Hx by done.
           rewrite (proj1 (Forall_lookup _ _) Hends i x Hx) in Hend. done.
        -- apply lookup_lt_Some in Hx. rewrite length_app in Hx. simpl in Hx. lia.
      * apply orb_true_iff in E as [E|E]; [apply Z.leb_le in E; left; lia|].
        right. exists w. by rewrite last_snoc.
    + apply orb_false_iff in E as [E1 E2]. apply Z.leb_gt in E1.
      apply IH; [done|done|done| |].
      * rewrite length_app. simpl. lia.
      * apply Forall_app. split; [done|]. by repeat constructor.
Qed.

Lemma foldl_add (l : list Z) : forall a, foldl Z.add a l = a + foldl Z.add 0 l.
Proof.
  induction l as [|x l IH]; intros a; simpl; [lia|].
  rewrite IH, (IH (0 + x)). lia.
Qed.

Lemma totalWords_concat (ps : list jsstring) :
  totalWords ps = Z.of_nat (length (concat (split <$> ps))).
Proof.
  unfold totalWords, counts. induction ps as [|p ps IH]; [done|].
  csimpl. rewrite foldl_add, IH, length_app. lia.
Qed.

Lemma totalWords_length (ps : list jsstring) :
  Z.of_nat (length ps) <= totalWords ps.
Proof.
  rewrite totalWords_concat. induction ps as [|p ps IH]; [done|].
  csimpl. rewrite length_app. pose proof (split_length p).
  rewrite Nat2Z.inj_succ, Nat2Z.inj_add. lia.
Qed.

(** The scan stops at the phrase whose range of word indices contains the
    index. *)
Lemma phraseScan_spec (ps : list jsstring) : forall i0 acc e,
  acc <= e < acc + totalWords ps ->
  exists j, phraseScan (counts ps) i0 acc e = Some (i0 + Z.of_nat j) /\
    (j < length ps)%nat /\
    acc + Z.of_nat (length (wordsBefore ps j)) <= e
      < acc + Z.of_nat (length (wordsBefore ps (S j))).
Proof.
  unfold wordsBefore.
  induction ps as [|p ps IH]; intros i0 acc e He.
  - unfold totalWords in He. simpl in He. lia.
  - rewrite totalWords_concat in He. csimpl in He. rewrite length_app in He.
    unfold counts. csimpl. fold (counts ps).
    destruct (e <? acc + Z.of_nat (length (split p))) eqn:E.
    + apply Z.ltb_lt in E. exists 0%nat. rewrite Z.add_0_r. split; [done|].
      split; [lia|]. rewrite app_nil_r. simpl length. lia.
    + apply Z.ltb_ge in E.
      destruct (IH (i0 + 1) (acc + Z.of_nat (length (split p))) e)
        as (j & Hj & Hlen & Hrange); [rewrite totalWords_concat; lia|].
      exists (S j). rewrite Hj. split; [f_equal; lia|]. split; [simpl; lia|].
      csimpl. rewrite !length_app. lia.
Qed.

Lemma concat_lookup {A} (L : list (list A)) (j k : nat) (l : list A) :
  L !! j = Some l ->
  (length (concat (take j L)) <= k < length (concat (take (S j) L)))%nat ->
  concat L !! k = l !! (k - length (concat (take j L)))%nat.
Proof.
  intros Hj Hk. rewrite <- (take_drop_middle L j l Hj) at 1.
  rewrite (take_S_r L j l Hj), concat_app, length_app in Hk. simpl in Hk.
  rewrite app_nil_r in Hk.
  rewrite concat_app, lookup_app_r by lia. simpl.
  by rewrite lookup_app_l by lia.
Qed.

End PhraseFacts.

Section PhraseIndexFacts.
Import Words Phrases WordsSpec.

Lemma wordsBefore_mono (ps : list jsstring) (i j : nat) :
  (i <= j)%nat -> (length (wordsBefore ps i) <= length (wordsBefore ps j))%nat.
Proof.
  intros Hij. unfold wordsBefore.
  replace j with (i + (j - i))%nat by lia.
  rewrite <- take_take_drop, fmap_app, concat_app, length_app. lia.
Qed.

Lemma wordsBefore_all (ps : list jsstring) (i : nat) :
  (length ps <= i)%nat -> wordsBefore ps i = concat (split <$> ps).
Proof. intros Hi. unfold wordsBefore. by rewrite take_ge. Qed.

(** The index found for word [k] of non-empty phrases. *)
Lemma currentPhraseIndex_spec (ps : list jsstring) (k : nat) :
  ps <> [] ->
  exists i, currentPhraseIndex ps (Some k) = Z.of_nat i /\ (i < length ps)%nat /\
    let e := Z.min (totalWords ps - 1) (Z.of_nat k) in
    Z.of_nat (length (wordsBefore ps i)) <= e
      < Z.of_nat (length (wordsBefore ps (S i))).
Proof.
  intros Hne. unfold currentPhraseIndex. destruct ps as [|p ps]; [done|].
  set (P := p :: ps). pose proof (totalWords_length P) as Htot.
  assert (0 < Z.of_nat (length P)) by (subst P; simpl; lia).
  rewrite Z.max_r by lia.
  destruct (phraseScan_spec P 0 0 (Z.min (totalWords P - 1) (Z.of_nat k)))
    as (j & Hj & Hlen & Hrange); [lia|].
  rewrite Hj. simpl. exists j. split; [done|]. split; [done|]. simpl. lia.
Qed.

End PhraseIndexFacts.

(** X1. Every word the story is split into is non-empty and free of white
    space, and the words put end to end are the story without its white
    space: splitting loses nothing else. *)
Theorem story_words_are_words (story : jsstring) :
  Forall WordsSpec.isWord (Words.splitWords story) /\
  concat (Words.splitWords story)
  = List.filter (fun c => negb (isWhiteSpace c)) story.
Proof.
  split; [apply wordsFrom_words; constructor|].
  unfold Words.splitWords. by rewrite wordsFrom_concat.
Qed.

(** X2. Words joined with single spaces split back into the same words,
    with [filter(Boolean)] as [playSpeak] splits its story and without it
    as [currentPhraseIndex] counts the words of a phrase. *)
Theorem joined_words_split_back (ws : list jsstring) :
  Forall WordsSpec.isWord ws ->
  Words.splitWords (Phrases.join ws) = ws /\
  (ws <> [] -> Phrases.split (Phrases.join ws) = ws).
Proof.
  intros Hws. split; [by apply splitWords_join|].
  intros Hne. by apply split_join.
Qed.

Lemma joined_words_split_back_witness :
  let ws := [js "Hi"; js "there."] in
  Forall WordsSpec.isWord ws /\
  Phrases.join ws = js "Hi there." /\
  Words.splitWords (Phrases.join ws) = ws /\
  Phrases.split (Phrases.join ws) = ws.
Proof.
  intros ws.
  assert (Forall WordsSpec.isWord ws) as Hws.
  { repeat (constructor; [split; [done|by repeat constructor]|]). constructor. }
  assert (ws <> []) as Hne by done.
  destruct (joined_words_split_back ws Hws) as [H1 H2].
  split; [exact Hws|]. split; [reflexivity|]. split; [exact H1|exact (H2 Hne)].
Defined.

(** X3. [chunkStoryToPhrases] keeps the words of the text and their order:
    the words of its phrases, put together, are the words of the text, for
    every target; so the total the phrase index is clamped to is the number
    of words of the story, and there are no phrases exactly when there are
    no words. *)
Theorem chunk_keeps_the_words (text : jsstring) (target : Z) :
  let phrases := Phrases.chunkStoryToPhrases text target in
  concat (Phrases.split <$> phrases) = Words.splitWords text /\
  Phrases.totalWords phrases = Z.of_nat (length (Words.splitWords text)) /\
  (phrases = [] <-> Words.splitWords text = []).
Proof.
  intros phrases. pose proof (chunk_concat text target) as H. fold phrases in H.
  split; [done|]. split; [by rewrite totalWords_concat, H|].
  rewrite <- H. split; [by intros ->|].
  destruct phrases as [|p ps]; [done|]. csimpl.
  pose proof (split_length p). destruct (Phrases.split p); [simpl in *; lia|done].
Qed.

(** X4. Every phrase of [chunkStoryToPhrases] is made of one word at
    least and of [target] words at most (of one word when [target] is less
    than 1); a word that ends a sentence is the last of its phrase; and
    every phrase but the last one is full or ends with the end of a
    sentence. *)
Theorem chunk_phrases_are_cut (text : jsstring) (target : Z) :
  let phrases := Phrases.chunkStoryToPhrases text target in
  forall i p, phrases !! i = Some p ->
    Forall WordsSpec.isWord (Phrases.split p) /\
    1 <= Z.of_nat (length (Phrases.split p)) <= Z.max 1 target /\
    WordsSpec.endsOnlyAtEnd p /\
    ((S i < length phrases)%nat -> WordsSpec.closedPhrase target p).
Proof.
  intros phrases i p Hp. subst phrases. unfold Phrases.chunkStoryToPhrases in *.
  destruct text as [|c text]; [done|].
  assert (Forall WordsSpec.isWord (Words.splitWords (c :: text))) as Htok
    by (apply wordsFrom_words; constructor).
  destruct (chunkLoop_cut target (Words.splitWords (c :: text)) [] [] Htok)
    as [Hgood Hclosed]; [constructor|constructor|simpl; lia|constructor|].
  destruct (proj1 (Forall_lookup _ _) Hgood i p Hp) as (Hw & Hlen & Hend).
  pose proof (split_length p).
  split; [done|]. split; [lia|]. split; [done|]. eauto.
Qed.

Lemma chunk_phrases_are_cut_witness :
  let text := js "Hi there. How are you?" in
  Phrases.chunkStoryToPhrases text 6 = [js "Hi there."; js "How are you?"] /\
  Forall WordsSpec.isWord (Phrases.split (js "Hi there.")) /\
  WordsSpec.endsOnlyAtEnd (js "Hi there.") /\
  WordsSpec.closedPhrase 6 (js "Hi there.").
Proof.
  intros text. split; [reflexivity|].
  destruct (chunk_phrases_are_cut text 6 0%nat (js "Hi there.") eq_refl)
    as (Hw & _ & He & Hc).
  split; [exact Hw|]. split; [exact He|]. apply Hc. vm_compute. lia.
Defined.

(** X5. [currentPhraseIndex] is -1 when there is no phrase or no current
    word. Otherwise it is the index of the phrase whose words include the
    current word, the word index being clamped to the last word: it lies
    within the phrases (the final [return] of the source is never
    reached), and it does not decrease when the word index grows. *)
Theorem phrase_index_in_range (ps : list jsstring) :
  Phrases.currentPhraseIndex [] None = -1 /\
  (forall k, Phrases.currentPhraseIndex [] (Some k) = -1) /\
  Phrases.currentPhraseIndex ps None = -1 /\
  (ps <> [] ->
   (forall k, exists i,
      Phrases.currentPhraseIndex ps (Some k) = Z.of_nat i /\
      (i < length ps)%nat /\
      let e := Z.min (Phrases.totalWords ps - 1) (Z.of_nat k) in
      Z.of_nat (length (WordsSpec.wordsBefore ps i)) <= e
        < Z.of_nat (length (WordsSpec.wordsBefore ps (S i)))) /\
   (forall k1 k2, (k1 <= k2)%nat ->
      Phrases.currentPhraseIndex ps (Some k1)
        <= Phrases.currentPhraseIndex ps (Some k2))).
Proof.
  split; [done|]. split; [done|]. split; [by destruct ps|].
  intros Hne. split; [intros k; by apply currentPhraseIndex_spec|].
  intros k1 k2 Hk.
  destruct (currentPhraseIndex_spec ps k1 Hne) as (i1 & -> & _ & H1).
  destruct (currentPhraseIndex_spec ps k2 Hne) as (i2 & -> & _ & H2).
  simpl in H1, H2.
  destruct (decide (i1 <= i2)%nat) as [|Hgt]; [lia|].
  pose proof (wordsBefore_mono ps (S i2) i1 ltac:(lia)). lia.
Qed.

Lemma phrase_index_in_range_witness :
  let ps := [js "Hi there."; js "Bye now"] in
  ps <> [] /\
  Phrases.currentPhraseIndex ps (Some 2%nat) = 1 /\
  Phrases.currentPhraseIndex ps (Some 1%nat)
    <= Phrases.currentPhraseIndex ps (Some 7%nat).
Proof.
  intros ps. assert (ps <> []) as Hne by done.
  destruct (phrase_index_in_range ps) as (_ & _ & _ & H).
  destruct (H Hne) as [_ Hmono].
  split; [exact Hne|]. split; [reflexivity|]. apply Hmono. lia.
Defined.

(** X6. The phrase index of the component agrees with its word index: for
    word [k] of the story, [currentPhraseIndex] over the phrases of the
    story is the index of a phrase, and word [k] of the story is the word
    of that phrase at the position left after the words of the phrases
    before it. *)
Theorem phrase_index_locates_word (story : jsstring) (target : Z)
    (k : nat) (w : jsstring) :
  Words.splitWords story !! k = Some w ->
  let phrases := Phrases.chunkStoryToPhrases story target in
  exists i p,
    Phrases.currentPhraseIndex phrases (Some k) = Z.of_nat i /\
    phrases !! i = Some p /\
    let before := length (WordsSpec.wordsBefore phrases i) in
    (before <= k)%nat /\ Phrases.split p !! (k - before)%nat = Some w.
Proof.
  intros Hw phrases.
  pose proof (chunk_concat story target) as Hcat. fold phrases in Hcat.
  assert (phrases <> []) as Hne.
  { intros E. rewrite E in Hcat. simpl in Hcat. by rewrite <- Hcat in Hw. }
  destruct (currentPhraseIndex_spec phrases k Hne) as (i & Hi & Hlen & Hrange).
  destruct (lookup_lt_is_Some_2 phrases i Hlen) as [p Hp].
  exists i, p. split; [done|]. split; [done|].
  rewrite totalWords_concat, Hcat in Hrange. apply lookup_lt_Some in Hw as Hk.
  simpl in Hrange. rewrite Z.min_r in Hrange by lia.
  split; [lia|]. rewrite <- Hw, <- Hcat. symmetry.
  unfold WordsSpec.wordsBefore in *. rewrite !fmap_take in *.
  apply concat_lookup; [by rewrite list_lookup_fmap, Hp|lia].
Qed.

Lemma phrase_index_locates_word_witness :
  let story := js "One two three four five six seven. Eight nine" in
  Words.splitWords story !! 7%nat = Some (js "Eight") /\
  Phrases.phrases story = [js "One two three four five six"; js "seven.";
                           js "Eight nine"] /\
  Phrases.currentPhraseIndex (Phrases.phrases story) (Some 7%nat) = 2 /\
  exists i p, Phrases.phrases story !! i = Some p /\
    Phrases.split p
      !! (7 - length (WordsSpec.wordsBefore (Phrases.phrases story) i))%nat
    = Some (js "Eight").
Proof.
  intros story.
  assert (Words.splitWords story !! 7%nat = Some (js "Eight")) as Hw
    by reflexivity.
  destruct (phrase_index_locates_word story 6 7 (js "Eight") Hw)
    as (i & p & _ & Hp & _ & Hat).
  split; [exact Hw|]. split; [reflexivity|]. split; [reflexivity|].
  exists i, p. split; [exact Hp|exact Hat].
Defined.

(** ** Boundary events on a story with single spaces *)

Section JoinedStoryFacts.
Import Words Phrases WordsSpec.

Lemma drop_cumulative (ws : list jsstring) : forall k,
  (k < length ws)%nat -> drop (cumulative ws k) (join ws) = join (drop k ws).
Proof.
  induction ws as [|w ws IH]; intros k Hk; [simpl in Hk; lia|].
  destruct k as [|k]; [done|]. simpl in Hk.
  rewrite cumulative_cons. destruct ws as [|w' ws]; [simpl in Hk; lia|].
  change (join (w :: w' :: ws)) with (w ++ 32%N :: join (w' :: ws)).
  rewrite <- Nat.add_assoc, <- drop_drop, drop_app_length.
  change (drop (S k) (w :: w' :: ws)) with (drop k (w' :: ws)).
  rewrite <- IH by lia. done.
Qed.

Lemma join_head (w : jsstring) (ws : list jsstring) :
  take (length w) (join (w :: ws)) = w.
Proof.
  destruct ws as [|w' ws]; simpl.
  - by rewrite take_ge.
  - by rewrite take_app_length.
Qed.

Lemma cumulative_join (ws : list jsstring) :
  ws <> [] -> cumulative ws (length ws) = (length (join ws) + 1)%nat.
Proof.
  induction ws as [|w ws IH]; [done|]. intros _. simpl length.
  rewrite cumulative_cons. destruct ws as [|w' ws].
  - unfold cumulative. simpl. lia.
  - change (join (w :: w' :: ws)) with (w ++ 32%N :: join (w' :: ws)).
    rewrite IH by done. rewrite length_app. simpl. lia.
Qed.

Lemma cumulative_S (ws : list jsstring) : forall k w,
  ws !! k = Some w ->
  cumulative ws (S k) = (cumulative ws k + (length w + 1))%nat.
Proof.
  induction ws as [|w' ws IH]; intros k w Hk; [done|].
  destruct k as [|k].
  - injection Hk as ->. rewrite cumulative_cons, !cumulative_0. lia.
  - rewrite !cumulative_cons, (IH k w Hk). lia.
Qed.

End JoinedStoryFacts.

(** X7. On a story that is its words joined by single spaces, word [k]
    stands at the offset that [onboundary] accumulates for it, and a
    boundary event at the offset of any code unit of the word, or of the
    space after it, sets [currentWordIndex] to [k]; an offset beyond the
    end of the story leaves [currentWordIndex] as it was. *)
Theorem boundary_highlights_spoken_word (ws : list jsstring) (k : nat)
    (w : jsstring) (s : Playback.State) (u d : positive) :
  Forall WordsSpec.isWord ws -> ws !! k = Some w ->
  let story := Phrases.join ws in
  let start := Words.cumulative ws k in
  Playback.utterances s !! u
    = Some (Playback.DesktopUtterance (Words.splitWords story) d) ->
  take (length w) (drop start story) = w /\
  (forall o, (o <= length w)%nat ->
     Words.boundaryWord (Words.splitWords story) (start + o) = Some k /\
     Playback.currentWordIndex
       (Playback.step s (Playback.Boundary u (start + o))) = Some k) /\
  (forall o, (length story < o)%nat ->
     Playback.currentWordIndex (Playback.step s (Playback.Boundary u o))
     = Playback.currentWordIndex s).
Proof.
  intros Hws Hk story start Hu. subst story start.
  rewrite splitWords_join in * by done.
  apply lookup_lt_Some in Hk as Hlt.
  split; [|split].
  - rewrite drop_cumulative by done. rewrite (drop_S _ _ _ Hk). apply join_head.
  - intros o Ho.
    assert (Words.boundaryWord ws (Words.cumulative ws k + o) = Some k) as Hb.
    { apply boundaryWord_Some. split; [done|].
      assert (Words.cumulative ws (S k)
              = (Words.cumulative ws k + (length w + 1))%nat) as ->.
      by (by apply cumulative_S).
      split; [lia|]. intros j Hj.
      pose proof (cumulative_mono ws (S j) k ltac:(lia)). lia. }
    split; [done|].
    destruct (boundary_step s u ws d (Words.cumulative ws k + o) Hu) as (_ & _ & ->).
    by rewrite Hb.
  - intros o Ho.
    destruct (boundary_step s u ws d o Hu) as (_ & _ & ->).
    assert (Words.boundaryWord ws o = None) as ->; [|done].
    apply boundaryScan_None. intros j Hj.
    pose proof (cumulative_mono ws (S j) (length ws) ltac:(lia)).
    rewrite cumulative_join in * by (by destruct ws). lia.
Qed.

Lemma boundary_highlights_spoken_word_witness :
  let ws := [js "Hi"; js "there."; js "Bye"] in
  let s := Playback.run (Playback.initial (js "Hi there. Bye") false false)
             [Playback.Play 1; Playback.Fire 2; Playback.Render]%positive in
  Forall WordsSpec.isWord ws /\
  Phrases.join ws = js "Hi there. Bye" /\
  Words.cumulative ws 1 = 3%nat /\
  take 6 (drop 3 (js "Hi there. Bye")) = js "there." /\
  Playback.currentWordIndex
    (Playback.step s (Playback.Boundary 3 (3 + 6))) = Some 1%nat /\
  Playback.currentWordIndex (Playback.step s (Playback.Boundary 3 14)) = None.
Proof.
  intros ws s.
  assert (Forall WordsSpec.isWord ws) as Hws.
  { repeat (constructor; [split; [done|by repeat constructor]|]). constructor. }
  assert (Playback.utterances s !! 3%positive
          = Some (Playback.DesktopUtterance
                    (Words.splitWords (Phrases.join ws)) 1)) as Hu
    by reflexivity.
  destruct (boundary_highlights_spoken_word ws 1 (js "there.") s 3 1 Hws eq_refl Hu)
    as (Hat & Hin & Hout).
  split; [exact Hws|]. split; [reflexivity|]. split; [reflexivity|].
  split; [exact Hat|].
  split; [exact (proj2 (Hin 6%nat ltac:(simpl; lia)))|].
  exact (Hout 14%nat ltac:(simpl; lia)).
Defined.

(** ** Letters, indices and text answers of the normaliser *)

Section LetterFacts.
Import Quiz Screens.

Lemma findIndex_first {A} (p : A -> bool) (a : list A) (k : nat) (x : A) :
  a !! k = Some x -> p x = true ->
  (forall j y, (j < k)%nat -> a !! j = Some y -> p y = false) ->
  findIndex p a = Z.of_nat k.
Proof.
  revert k. induction a as [|y a IH]; intros k Hk Hx Hfirst; [done|].
  destruct k as [|k]; simpl.
  - injection Hk as ->. by rewrite Hx.
  - rewrite (Hfirst 0%nat y) by (done || lia).
    rewrite (IH k Hk Hx).
    + destruct (Z.of_nat k <? 0) eqn:E; lia.
    + intros j z Hj Hz. apply (Hfirst (S j) z); [lia|done].
Qed.

Lemma findIndex_none {A} (p : A -> bool) (a : list A) :
  (forall x, x ∈ a -> p x = false) -> findIndex p a = -1.
Proof.
  induction a as [|y a IH]; intros Hall; [done|]. simpl.
  rewrite (Hall y) by apply list_elem_of_here.
  rewrite IH; [done|]. intros x Hx. apply Hall. by apply list_elem_of_further.
Qed.

Lemma findIndex_least {A} (p : A -> bool) (a : list A) (j : nat) (y : A) :
  (Z.of_nat j < findIndex p a) -> a !! j = Some y -> p y = false.
Proof.
  revert j. induction a as [|x a IH]; intros j Hj Hy; [done|].
  simpl in Hj. destruct (p x) eqn:Px; [lia|].
  destruct j as [|j]; [by injection Hy as <-|].
  destruct (findIndex p a <? 0) eqn:E; [lia|].
  apply (IH j); [lia|done].
Qed.

Lemma upper_not_space (c : N) : isUpper c = true -> isWhiteSpace c = false.
Proof.
  unfold isUpper, isWhiteSpace. rewrite andb_true_iff, !N.leb_le. intros Hc.
  apply not_true_is_false. intros H.
  rewrite !orb_true_iff, !andb_true_iff, !N.leb_le, !N.eqb_eq in H. lia.
Qed.

Lemma getLetter_head (i : nat) :
  (i < 26)%nat ->
  exists c, getLetter (Z.of_nat i) = [c] /\ isUpper c = true /\
    Z.of_N (toUpperUnit c) - 65 = Z.of_nat i.
Proof.
  intros Hi. exists (Z.to_N (65 + Z.of_nat i)). unfold getLetter.
  rewrite Z.mod_small by lia. split; [done|].
  assert (isUpper (Z.to_N (65 + Z.of_nat i)) = true) as Hup.
  { unfold isUpper. rewrite andb_true_iff, !N.leb_le. lia. }
  split; [done|]. unfold toUpperUnit.
  assert (isLower (Z.to_N (65 + Z.of_nat i)) = false) as ->; [|lia].
  unfold isLower. apply not_true_is_false.
  rewrite andb_true_iff, !N.leb_le. lia.
Qed.

Lemma trimStart_idem s : trimStart (trimStart s) = trimStart s.
Proof.
  induction s as [|c s IH]; [done|]. simpl.
  destruct (isWhiteSpace c) eqn:E; [done|]. simpl. by rewrite E.
Qed.

Lemma trim_trimStart s : trim (trimStart s) = trim s.
Proof. unfold trim. by rewrite trimStart_idem. Qed.

End LetterFacts.

(** X8. The letter the quiz screen shows for option [i] is read back by
    the normaliser as option [i]: for a raw item with no numeric index
    whose answer is [getLetter i], with [i] below 26 and within the
    options, the normalised answer is the label-stripped option [i]; and
    when that option is written with its label "A) " to "D) ", the answer
    is its text. *)
Theorem letter_answer_picks_its_option (toLowerCase : jsstring -> jsstring)
    (question : jsstring) (options : list jsstring) (i : nat) (o : jsstring) :
  (i < 26)%nat -> options !! i = Some o ->
  let q := Screens.rawQuestion question options
             (Screens.getLetter (Z.of_nat i)) in
  let r := Quiz.normalizeQuestion toLowerCase q in
  QuizQuestion.correctAnswer r = Quiz.stripLabel o /\
  QuizQuestion.options r !! i = Some (QuizQuestion.correctAnswer r) /\
  (forall text, (i < 4)%nat ->
     o = Screens.getLetter (Z.of_nat i) ++ js ") " ++ text ->
     QuizQuestion.correctAnswer r = trim text).
Proof.
  intros Hi Ho q r.
  destruct (getLetter_head i Hi) as (c & Hc & Hup & Hidx).
  pose proof (upper_not_space c Hup) as Hws.
  assert (Quiz.rawAnswer q = [c]) as Hraw.
  { change (Quiz.rawAnswer q) with (trim (Screens.getLetter (Z.of_nat i))).
    rewrite Hc. unfold trim, trimEnd. cbn [trimStart]. rewrite Hws.
    change (reverse [c]) with [c]. cbn [trimStart]. by rewrite Hws. }
  assert (Quiz.strippedOptions q = Quiz.stripLabel <$> options) as Hopts
    by reflexivity.
  assert (QuizQuestion.correctAnswer r = Quiz.stripLabel o) as Hr.
  { subst r. unfold Quiz.normalizeQuestion.
    change (AnyQuiz.correctAnswerIndex q) with (@None Z).
    cbn [Quiz.pickByIndex]. rewrite Hraw, Hopts. unfold Quiz.leadingLetter.
    unfold isAsciiLetter. rewrite Hup. cbn [orb QuizQuestion.correctAnswer].
    unfold Quiz.pickByLetter. rewrite Hidx. unfold arrayGet.
    destruct (Z.of_nat i <? 0) eqn:E; [lia|].
    by rewrite Nat2Z.id, list_lookup_fmap, Ho. }
  split; [done|]. split.
  - subst r. rewrite normalizeQuestion_options, Hr.
    by rewrite Hopts, list_lookup_fmap, Ho.
  - intros text Hi4 ->. rewrite Hr.
    assert (i = 0 \/ i = 1 \/ i = 2 \/ i = 3)%nat as Hcases by lia.
    unfold Quiz.stripLabel, Quiz.matchLabel.
    destruct Hcases as [-> | [-> | [-> | ->]]]; simpl; apply trim_trimStart.
Qed.

Lemma letter_answer_picks_its_option_witness :
  let options := js <$> ["A) Paris"; "B) London"; "C) Rome"; "D) Berlin"]%string in
  let q := Screens.rawQuestion (js "Q") options (Screens.getLetter 1) in
  options !! 1%nat = Some (Screens.getLetter 1 ++ js ") " ++ js "London") /\
  Screens.getLetter 1 = js "B" /\
  QuizQuestion.correctAnswer (Quiz.normalizeQuestion toLowerCaseAscii q)
    = js "London".
Proof.
  intros options q.
  assert (options !! 1%nat = Some (Screens.getLetter 1 ++ js ") " ++ js "London"))
    as Ho by reflexivity.
  destruct (letter_answer_picks_its_option toLowerCaseAscii (js "Q") options 1 _
              ltac:(lia) Ho) as (_ & _ & Htext).
  split; [exact Ho|]. split; [reflexivity|].
  exact (Htext (js "London") ltac:(lia) eq_refl).
Defined.

(** X9. A numeric [correctAnswerIndex] that designates a non-empty option
    decides the answer, whatever the raw answer says; an index outside the
    options, negative, or designating an empty option is ignored, the item
    being normalised as if it had no index. *)
Theorem explicit_index_decides (toLowerCase : jsstring -> jsstring)
    (q : AnyQuiz.t) (n : Z) :
  AnyQuiz.correctAnswerIndex q = Some n ->
  let r := Quiz.normalizeQuestion toLowerCase q in
  (forall o, arrayGet (Quiz.strippedOptions q) n = Some o -> o <> [] ->
     QuizQuestion.correctAnswer r = o) /\
  (arrayGet (Quiz.strippedOptions q) n = None \/
   arrayGet (Quiz.strippedOptions q) n = Some [] ->
   r = Quiz.normalizeQuestion toLowerCase (Screens.withoutIndex q)).
Proof.
  intros Hn r. subst r. unfold Quiz.normalizeQuestion. rewrite Hn.
  unfold Quiz.pickByIndex. split.
  - intros o Ho Hne. rewrite Ho. by destruct o.
  - intros [-> | ->]; reflexivity.
Qed.

Lemma explicit_index_decides_witness :
  let q := AnyQuiz.mk (js "Q") (Some (js <$> ["Cat"; "Dog"; "Bird"]%string))
             (Some (js "A")) None None (Some 2) in
  let q' := AnyQuiz.mk (js "Q") (Some (js <$> ["Cat"; "Dog"; "Bird"]%string))
             (Some (js "B")) None None (Some 3) in
  QuizQuestion.correctAnswer (Quiz.normalizeQuestion toLowerCaseAscii q)
    = js "Bird" /\
  QuizQuestion.correctAnswer (Quiz.normalizeQuestion toLowerCaseAscii q')
    = js "Dog".
Proof.
  intros q q'.
  destruct (explicit_index_decides toLowerCaseAscii q 2 eq_refl) as [H1 _].
  destruct (explicit_index_decides toLowerCaseAscii q' 3 eq_refl) as [_ H2].
  split; [exact (H1 (js "Bird") eq_refl ltac:(done))|].
  rewrite (H2 (or_introl eq_refl)). reflexivity.
Defined.

(** X10. A raw answer that does not begin with a letter, on an item with no
    usable index, is matched as text, its label stripped and all texts
    lower-cased: the first option equal to it is the answer, even after an
    option that only contains it; with no equal option, the first option
    that contains it; with none, the first option, or the empty string
    when there is no option. *)
Theorem text_answer_prefers_exact_match (toLowerCase : jsstring -> jsstring)
    (q : AnyQuiz.t) :
  Quiz.pickByIndex (Quiz.strippedOptions q) (AnyQuiz.correctAnswerIndex q) = None ->
  Quiz.leadingLetter (Quiz.rawAnswer q) = None ->
  let options := Quiz.strippedOptions q in
  let norm := toLowerCase (Quiz.stripLabel (Quiz.rawAnswer q)) in
  let answer := QuizQuestion.correctAnswer (Quiz.normalizeQuestion toLowerCase q) in
  (forall k o, options !! k = Some o -> toLowerCase o = norm ->
     (forall j o', (j < k)%nat -> options !! j = Some o' -> toLowerCase o' <> norm) ->
     answer = o) /\
  ((forall o, o ∈ options -> toLowerCase o <> norm) ->
   (forall k o, options !! k = Some o -> includes (toLowerCase o) norm = true ->
      (forall j o', (j < k)%nat -> options !! j = Some o' ->
         includes (toLowerCase o') norm = false) ->
      answer = o) /\
   ((forall o, o ∈ options -> includes (toLowerCase o) norm = false) ->
    answer = default [] (head options))).
Proof.
  intros Hidx Hletter options norm answer. subst answer.
  unfold Quiz.normalizeQuestion. rewrite Hidx, Hletter.
  cbn [QuizQuestion.correctAnswer]. unfold Quiz.pickByText.
  fold options. fold norm.
  assert (forall k o, options !! k = Some o ->
            nullish (arrayGet options (Z.of_nat k)) [] = o) as Hget.
  { intros k o Ho. unfold arrayGet.
    destruct (Z.ltb_spec (Z.of_nat k) 0) as [E|E]; [clear -E; lia|].
    by rewrite Nat2Z.id, Ho. }
  split.
  - intros k o Ho Heq Hfirst.
    rewrite (findIndex_first _ options k o Ho).
    + destruct (Z.eqb_spec (Z.of_nat k) (-1)) as [E|E]; [clear -E; lia|].
      destruct (Z.leb_spec 0 (Z.of_nat k)) as [E'|E']; [|clear -E'; lia].
      by apply Hget.
    + unfold eqUnits. by apply bool_decide_eq_true.
    + intros j o' Hj Ho'. unfold eqUnits. apply bool_decide_eq_false. eauto.
  - intros Hnone.
    rewrite (findIndex_none (fun o => eqUnits (toLowerCase o) norm) options).
    2:{ intros o Ho. unfold eqUnits. apply bool_decide_eq_false. eauto. }
    change (-1 =? -1) with true. cbv iota. split.
    + intros k o Ho Hin Hfirst. rewrite (findIndex_first _ options k o Ho Hin Hfirst).
      destruct (Z.leb_spec 0 (Z.of_nat k)) as [E'|E']; [|clear -E'; lia].
      by apply Hget.
    + intros Hnone'. rewrite findIndex_none by done.
      change (0 <=? -1) with false. cbv iota. by destruct options.
Qed.

Lemma text_answer_prefers_exact_match_witness :
  let q := Quiz.rawItem ["142"; "42"; "7"]%string "42" in
  Quiz.leadingLetter (Quiz.rawAnswer q) = None /\
  includes (toLowerCaseAscii (js "142")) (toLowerCaseAscii (js "42")) = true /\
  QuizQuestion.correctAnswer (Quiz.normalizeQuestion toLowerCaseAscii q) = js "42".
Proof.
  intros q.
  destruct (text_answer_prefers_exact_match toLowerCaseAscii q eq_refl eq_refl)
    as [Hexact _].
  split; [reflexivity|]. split; [reflexivity|].
  apply (Hexact 1%nat (js "42") eq_refl eq_refl).
  intros j o' Hj Ho'. assert (j = 0)%nat as -> by lia.
  injection Ho' as <-. by vm_compute.
Defined.

(** ** Results screen: letters, bounds and feedback *)

Section ResultsFacts.
Import Results Screens.

Lemma letterOf_member (options : list jsstring) (text : jsstring) :
  text ∈ options ->
  exists idx, (idx < length options)%nat /\
    findIndex (fun o => strictEq o (Some text)) options = Z.of_nat idx /\
    options !! idx = Some text /\
    (forall j, (j < idx)%nat -> options !! j <> Some text).
Proof.
  induction options as [|o options IH]; [by intros ?%elem_of_nil|].
  intros Hin. simpl. unfold strictEq at 1.
  destruct (decide (o = text)) as [->|Hne].
  - rewrite bool_decide_eq_true_2 by done. exists 0%nat.
    split; [simpl; lia|]. split; [done|]. split; [done|]. intros j Hj. lia.
  - rewrite bool_decide_eq_false_2 by congruence.
    apply elem_of_cons in Hin as [->|Hin]; [done|].
    destruct (IH Hin) as (idx & Hlen & Hidx & Hat & Hfirst).
    exists (S idx). rewrite Hidx.
    destruct (Z.of_nat idx <? 0) eqn:E; [lia|].
    split; [simpl; lia|]. split; [lia|]. split; [done|].
    intros [|j] Hj; simpl; [congruence|]. apply Hfirst. lia.
Qed.

Lemma score_all_correct (quiz : list QuizQuestion.t) :
  score quiz (QuizQuestion.correctAnswer <$> quiz) = Z.of_nat (length quiz).
Proof.
  rewrite score_correctIndices. f_equal. unfold correctIndices.
  rewrite List.forallb_filter_id; [apply length_seq|].
  apply forallb_forall. intros i Hi%in_seq.
  unfold answeredCorrectly. rewrite list_lookup_fmap.
  destruct (quiz !! i) as [x|] eqn:E; simpl.
  - by apply bool_decide_eq_true.
  - apply lookup_ge_None in E. lia.
Qed.

Lemma feedback_strings :
  excellentJob <> goodEffort /\ excellentJob <> keepPracticing /\
  goodEffort <> keepPracticing.
Proof. by vm_compute. Qed.

End ResultsFacts.

(** X11. The results screen finds a letter for a text exactly when the text
    is one of the options, and it is the letter of the first option with
    that text; so every normalised question that has options is shown with
    the letter of its correct answer, and that letter designates an option
    whose text is the correct answer. *)
Theorem correct_answer_has_a_letter (toLowerCase : jsstring -> jsstring) :
  (forall options text, text ∈ options ->
     exists idx,
       Screens.letterOf options (Some text)
         = Some (Screens.getLetter (Z.of_nat idx)) /\
       options !! idx = Some text /\
       forall j, (j < idx)%nat -> options !! j <> Some text) /\
  (forall options text, text ∉ options ->
     Screens.letterOf options (Some text) = None) /\
  (forall options, Screens.letterOf options None = None) /\
  (forall q,
     let r := Quiz.normalizeQuestion toLowerCase q in
     QuizQuestion.options r <> [] ->
     exists idx,
       Screens.letterOf (QuizQuestion.options r)
         (Some (QuizQuestion.correctAnswer r))
         = Some (Screens.getLetter (Z.of_nat idx)) /\
       QuizQuestion.options r !! idx = Some (QuizQuestion.correctAnswer r)).
Proof.
  assert (forall options text, text ∈ options ->
     exists idx,
       Screens.letterOf options (Some text)
         = Some (Screens.getLetter (Z.of_nat idx)) /\
       options !! idx = Some text /\
       forall j, (j < idx)%nat -> options !! j <> Some text) as Hmember.
  { intros options text Hin.
    destruct (letterOf_member options text Hin) as (idx & _ & Hidx & Hat & Hfirst).
    exists idx. unfold Screens.letterOf. rewrite Hidx.
    destruct (0 <=? Z.of_nat idx) eqn:E; [done|lia]. }
  split; [exact Hmember|]. split; [|split].
  - intros options text Hnot. unfold Screens.letterOf.
    rewrite findIndex_none; [done|].
    intros o Ho. unfold Results.strictEq. apply bool_decide_eq_false.
    intros [= ->]. done.
  - intros options. unfold Screens.letterOf.
    rewrite findIndex_none; [done|]. intros o _. by apply bool_decide_eq_false.
  - intros q r Hne. pose proof (normalizeQuestion_closed toLowerCase q) as Hc.
    fold r in Hc. unfold Quiz.closedPick in Hc.
    destruct (QuizQuestion.options r) as [|o os] eqn:E; [done|].
    destruct (Hmember _ _ Hc) as (idx & Hl & Hat & _). by exists idx.
Qed.

Lemma correct_answer_has_a_letter_witness :
  let q := Quiz.rawItem ["A) Paris"; "B) London"; "C) Rome"]%string "C" in
  let r := Quiz.normalizeQuestion toLowerCaseAscii q in
  QuizQuestion.options r <> [] /\
  QuizQuestion.correctAnswer r = js "Rome" /\
  Screens.letterOf (QuizQuestion.options r) (Some (js "Rome")) = Some (js "C") /\
  exists idx,
    Screens.letterOf (QuizQuestion.options r) (Some (QuizQuestion.correctAnswer r))
      = Some (Screens.getLetter (Z.of_nat idx)).
Proof.
  intros q r. assert (QuizQuestion.options r <> []) as Hne by done.
  destruct (proj2 (proj2 (proj2 (correct_answer_has_a_letter toLowerCaseAscii)))
              q Hne) as (idx & Hl & _).
  split; [exact Hne|]. split; [reflexivity|]. split; [reflexivity|].
  exists idx. exact Hl.
Defined.

(** X12. For a quiz of 1 to 200 questions the percentage the source
    computes, in binary64, lies between 0 and 100, is 100 when the score is
    the number of questions, and is 0 exactly when the score is 0; the
    answers that repeat the correct answers score the number of questions,
    100 per cent and the best feedback. *)
Theorem percentage_bounds (quiz : list QuizQuestion.t)
    (userAnswers : list jsstring) :
  quiz <> [] -> (length quiz <= 200)%nat ->
  let n := Z.of_nat (length quiz) in
  (exists p, Results.percentage quiz userAnswers = Some p /\ 0 <= p <= 100 /\
     (Results.score quiz userAnswers = n -> p = 100) /\
     (p = 0 <-> Results.score quiz userAnswers = 0)) /\
  Results.score quiz (QuizQuestion.correctAnswer <$> quiz) = n /\
  Results.percentage quiz (QuizQuestion.correctAnswer <$> quiz) = Some 100 /\
  Screens.feedback (Results.percentage quiz (QuizQuestion.correctAnswer <$> quiz))
    = Screens.excellentJob.
Proof.
  intros Hne Hlen n.
  split; [|split; [apply score_all_correct|]].
  - destruct (percentage_checked quiz userAnswers Hne Hlen)
      as (p & Hp & Hrange & Hfull & Hzero & _).
    exists p. split; [exact Hp|]. split; [exact Hrange|].
    split; [exact Hfull|exact Hzero].
  - destruct (percentage_checked quiz (QuizQuestion.correctAnswer <$> quiz)
                Hne Hlen) as (p & Hp & _ & Hfull & _).
    rewrite Hp, (Hfull (score_all_correct quiz)). by split.
Qed.

Lemma percentage_bounds_witness :
  let quiz := Results.questionWith <$> ["A"; "B"; "C"]%string in
  quiz <> [] /\ (length quiz <= 200)%nat /\
  Results.percentage quiz (js <$> ["A"; "B"; "C"]%string) = Some 100 /\
  exists p, Results.percentage quiz (js <$> ["B"; "B"; "B"]%string) = Some p /\
    0 <= p <= 100.
Proof.
  intros quiz. assert (quiz <> []) as Hne by done.
  assert (length quiz <= 200)%nat as Hlen by (simpl; lia).
  destruct (percentage_bounds quiz (js <$> ["B"; "B"; "B"]%string) Hne Hlen)
    as ((p & Hp & Hrange & _) & _ & Hfull & _).
  split; [exact Hne|]. split; [exact Hlen|]. split; [exact Hfull|].
  exists p. split; [exact Hp|exact Hrange].
Defined.

(** X13. The feedback of the results screen in terms of the score, the
    percentage being evaluated in binary64 as the source does: for a quiz
    of 1 to 200 questions, the best one from 79.5 per cent of correct
    answers, the middle one from 49.5 per cent, the lowest one below; and
    the lowest one for an empty quiz, whose percentage is not a number. *)
Theorem feedback_thresholds (quiz : list QuizQuestion.t)
    (userAnswers : list jsstring) :
  let s := Results.score quiz userAnswers in
  let n := Z.of_nat (length quiz) in
  let f := Screens.feedback (Results.percentage quiz userAnswers) in
  (quiz = [] ->
     Results.percentage quiz userAnswers = None /\ f = Screens.keepPracticing) /\
  (quiz <> [] -> (length quiz <= 200)%nat ->
     (f = Screens.excellentJob <-> 159 * n <= 200 * s) /\
     (f = Screens.goodEffort <-> 99 * n <= 200 * s < 159 * n) /\
     (f = Screens.keepPracticing <-> 200 * s < 99 * n)).
Proof.
  intros s n f. split.
  { intros ->. subst f. by rewrite percentage_empty. }
  intros Hne Hlen.
  destruct (percentage_checked quiz userAnswers Hne Hlen)
    as (p & Hp & _ & _ & _ & H80 & H50). fold s n in H80, H50.
  destruct feedback_strings as (H1 & H2 & H3).
  subst f. rewrite Hp. unfold Screens.feedback.
  split; [|split].
  - destruct (Z.leb_spec 80 p); [split; [intros _; lia|done]|].
    destruct (Z.leb_spec 50 p); (split; [congruence|intros; lia]).
  - destruct (Z.leb_spec 80 p); [split; [congruence|intros; lia]|].
    destruct (Z.leb_spec 50 p); [split; [intros _; lia|done]|].
    split; [congruence|intros; lia].
  - destruct (Z.leb_spec 80 p); [split; [congruence|intros; lia]|].
    destruct (Z.leb_spec 50 p); [split; [congruence|intros; lia]|].
    split; [intros _; lia|done].
Qed.

Lemma feedback_thresholds_witness :
  let quiz := Results.questionWith <$> ["A"; "B"; "C"; "D"; "E"]%string in
  let answers := js <$> ["A"; "B"; "C"; "D"; "X"]%string in
  quiz <> [] /\ (length quiz <= 200)%nat /\ Results.score quiz answers = 4 /\
  Results.percentage quiz answers = Some 80 /\
  Screens.feedback (Results.percentage quiz answers) = Screens.excellentJob.
Proof.
  intros quiz answers. assert (quiz <> []) as Hne by done.
  assert (length quiz <= 200)%nat as Hlen by (simpl; lia).
  destruct (proj2 (feedback_thresholds quiz answers) Hne Hlen) as (He & _ & _).
  assert (Results.score quiz answers = 4) as Hs by reflexivity.
  split; [exact Hne|]. split; [exact Hlen|]. split; [exact Hs|].
  split; [by vm_compute|]. apply He. rewrite Hs. simpl. lia.
Defined.

(** ** The idle component *)

Section IdleFacts.
Import Playback SessionSpec.

Lemma quiescent_timers (T : gmap positive Timer) (k : positive) :
  map_Forall (fun _ t => t = GraceReset) T ->
  map_Forall (fun (_ : positive) t => t = GraceReset) (delete k T).
Proof. apply map_Forall_delete. Qed.

Lemma quiescent_grace (T : gmap positive Timer) (n : positive) :
  map_Forall (fun _ t => t = GraceReset) T ->
  map_Forall (fun (_ : positive) t => t = GraceReset) (<[n := GraceReset]> T).
Proof. intros H. by apply map_Forall_insert_2. Qed.

(** An event other than a press of play, on a component with no session in
    flight: no session appears, and what is published is [null] at most. *)
Ltac idle_goal :=
  split;
  [ split; [done|split; [done|]];
    cbn [timers]; auto using quiescent_grace, quiescent_timers
  | split; [first [by left | by right]|by split] ].

Lemma idle_step s e :
  match e with Play _ => False | _ => True end ->
  quiescent s ->
  quiescent (step s e) /\
  (published (step s e) = published s \/
   published (step s e) = published s ++ [None]) /\
  (isSpeaking s = false -> isSpeaking (step s e) = false) /\
  speakThrows (step s e) = speakThrows s.
Proof.
  intros He (Hstory & HU & HT). destruct s.
  cbn [story utterances timers published isSpeaking speakThrows] in *. subst.
  destruct e as [rate| | |id|u c|u|u err]; [done|..]; handlers.
  - destruct highlightTimerRef0 as [k|]; handlers; idle_goal.
  - case_bool_decide; handlers; [idle_goal|].
    destruct isSpeakingRef0; handlers; [|idle_goal].
    destruct highlightTimerRef0 as [k|]; handlers; idle_goal.
  - destruct (timers0 !! id) as [t|] eqn:E; handlers; [|idle_goal].
    rewrite (HT _ _ E). handlers. idle_goal.
  - rewrite lookup_empty. handlers. idle_goal.
  - rewrite lookup_empty. handlers. idle_goal.
  - rewrite lookup_empty. handlers. idle_goal.
Qed.

Lemma idle_run tr : forall s,
  noPlay tr -> quiescent s ->
  quiescent (run s tr) /\
  (exists k, published (run s tr) = published s ++ replicate k None) /\
  (isSpeaking s = false -> isSpeaking (run s tr) = false) /\
  speakThrows (run s tr) = speakThrows s.
Proof.
  induction tr as [|e tr IH]; intros s Hn Hq.
  - split; [done|]. split; [exists 0%nat; by rewrite app_nil_r|done].
  - apply Forall_cons in Hn as [He Hn]. rewrite run_cons.
    destruct (idle_step s e He Hq) as (Hq' & Hp & Hsp & Hth).
    destruct (IH _ Hn Hq') as (Hq'' & (k & Hk) & Hsp' & Hth').
    split; [done|]. split; [|split; [auto|congruence]].
    destruct Hp as [Hp|Hp]; rewrite Hp in Hk.
    + by exists k.
    + exists (S k). rewrite Hk, <- app_assoc. by rewrite replicate_S.
Qed.

End IdleFacts.

(** X14. Nothing starts by itself: on a component that has no session in
    flight (no utterance with the driver and no timer pending but reset
    timeouts of earlier stops), whatever happens short of a press of play
    (stop, renders, timers, stray driver events) leaves it so, starts no
    highlight interval and publishes no word index, only [null]. *)
Theorem nothing_starts_without_play (s : Playback.State)
    (tr : list Playback.Event) :
  SessionSpec.quiescent s -> SessionSpec.noPlay tr ->
  let s' := Playback.run s tr in
  SessionSpec.quiescent s' /\
  SessionSpec.noHighlight (Playback.timers s') /\
  (exists k, Playback.published s'
             = Playback.published s ++ replicate k None) /\
  (Playback.isSpeaking s = false -> Playback.isSpeaking s' = false).
Proof.
  intros Hq Hn s'. destruct (idle_run tr s Hn Hq) as (Hq' & Hk & Hsp & _).
  split; [done|]. split; [|done].
  intros id words rate i pause E. by specialize (proj2 (proj2 Hq') _ _ E).
Qed.

Lemma nothing_starts_without_play_witness :
  let s := Playback.run (Playback.initial (js "Hi there.") false false)
             [Playback.Play 1; Playback.Fire 2; Playback.Render;
              Playback.Boundary 3 0; Playback.End 3]%positive in
  let tr := [Playback.Render; Playback.Fire 4; Playback.Stop;
             Playback.Boundary 3 4; Playback.Fire 1]%positive in
  SessionSpec.quiescent s /\ SessionSpec.noPlay tr /\
  SessionSpec.quiescent (Playback.run s tr) /\
  Playback.published (Playback.run s tr)
    = Playback.published s ++ [None; None].
Proof.
  intros s tr.
  assert (SessionSpec.quiescent s) as Hq.
  { split; [by vm_compute|]. split; [by vm_compute|].
    replace (Playback.timers s) with (∅ : gmap positive Playback.Timer)
      by (by vm_compute).
    apply map_Forall_empty. }
  assert (SessionSpec.noPlay tr) as Hn by (by repeat constructor).
  destruct (nothing_starts_without_play s tr Hq Hn) as (Hq' & _).
  split; [exact Hq|]. split; [exact Hn|]. split; [exact Hq'|]. by vm_compute.
Defined.

(** ** The life of one session *)

Section LifeFacts.
Import Playback SessionSpec LifecycleSpec Logic.
Variables (android : bool) (d : positive).
Implicit Types (T : gmap positive Timer) (U : gmap positive Utterance).

Lemma life_delete T U next k :
  life android d T U next -> life android d (delete k T) U next.
Proof.
  intros (Hn & Hst & Hpend & Hone). split; [done|]. split; [|split; [|done]].
  - intros id t [_ E]%lookup_delete_Some. eauto.
  - intros [t [_ E]%lookup_delete_Some]. eauto.
Qed.

Lemma life_insert T U next t :
  ~ isStart t ->
  life android d T U next -> life android d (<[next := t]> T) U (Pos.succ next).
Proof.
  intros Ht (Hn & Hst & Hpend & Hone). split; [lia|]. split; [|split; [|done]].
  - intros id t' [[<- <-]|[_ E]]%lookup_insert_Some; [done|eauto].
  - rewrite lookup_insert_ne by lia. done.
Qed.

Lemma life_next T U next :
  life android d T U next -> life android d T U (Pos.succ next).
Proof. intros (Hn & H). split; [lia|done]. Qed.

Lemma life_forget T U next u :
  life android d T U next -> life android d T (delete u U) next.
Proof.
  intros (Hn & Hst & Hpend & Hone). split; [done|]. split; [done|]. split.
  - intros E. rewrite (Hpend E). apply delete_empty.
  - intros u1 u2 [x [_ E1]%lookup_delete_Some] [y [_ E2]%lookup_delete_Some].
    eauto.
Qed.

Lemma life_alter T U next id t :
  ~ isStart t ->
  life android d T U next -> life android d (alter (fun _ => t) id T) U next.
Proof.
  intros Ht (Hn & Hst & Hpend & Hone). split; [done|]. split; [|split; [|done]].
  - intros id' t'. rewrite lookup_alter. case_decide as E; [|by eauto].
    subst id'. destruct (T !! id); [|done]. by intros [= <-].
  - intros [t' E]. apply Hpend. revert E. rewrite lookup_alter.
    case_decide as E'; [|by eauto]. rewrite <- E'. by destruct (T !! id).
Qed.

Lemma life_speak T next u ut :
  T !! startId android d = None ->
  life android d T ∅ next -> life android d T (<[u := ut]> ∅) next.
Proof.
  intros E (Hn & Hst & Hpend & Hone). split; [done|]. split; [done|]. split.
  - rewrite E. by intros [? ?].
  - intros u1 u2 [x E1] [y E2].
    apply lookup_insert_Some in E1 as [[<- _]|[_ E1]]; [|by rewrite lookup_empty in E1].
    apply lookup_insert_Some in E2 as [[<- _]|[_ E2]]; [done|by rewrite lookup_empty in E2].
Qed.

(** With an utterance held, nothing is left of the session but its
    deadline and its registered interval. *)
Lemma life_held ref heard T U next u ut id t :
  session android d ref heard T U next -> life android d T U next ->
  U !! u = Some ut -> T !! id = Some t ->
  t = GraceReset \/ (android = false /\ id = d) \/ ref = Some id.
Proof.
  intros (_ & HT & _) (_ & Hst & Hpend & _) Hu E.
  assert (~ isStart t) as Hns.
  { intros Hs. rewrite (Hst _ _ E Hs) in E.
    rewrite (Hpend (mk_is_Some _ _ E)) in Hu. by rewrite lookup_empty in Hu. }
  specialize (HT _ _ E). destruct t; simpl in *; tauto.
Qed.

Lemma life_only T U next u ut :
  life android d T U next -> U !! u = Some ut -> delete u U = ∅.
Proof.
  intros (_ & _ & _ & Hone) Hu. apply map_empty. intros i.
  destruct (decide (i = u)) as [->|Hne]; [apply lookup_delete_eq|].
  rewrite lookup_delete_ne by done.
  destruct (U !! i) eqn:E; [|done]. destruct Hne. eauto.
Qed.

End LifeFacts.

Section LifeKeeps.
Import Playback SessionSpec LifecycleSpec Logic.
Variable d : positive.

Ltac on_life :=
  let s := fresh "s" in let H := fresh "H" in
  intros s H; destruct s; unfold lifecycle in *;
  cbn [story isAndroid timers utterances nextId] in H;
  destruct H as [? H]; handlers.

Lemma life_setIsSpeaking b : keeps (lifecycle d) (setIsSpeaking b).
Proof. keeps_frame. Qed.
Lemma life_setCurrentWordIndex v : keeps (lifecycle d) (setCurrentWordIndex v).
Proof. keeps_frame. Qed.
Lemma life_setError v : keeps (lifecycle d) (setError v).
Proof. keeps_frame. Qed.
Lemma life_setUtteranceRef v : keeps (lifecycle d) (setUtteranceRef v).
Proof. keeps_frame. Qed.
Lemma life_setStoppedByUserRef b : keeps (lifecycle d) (setStoppedByUserRef b).
Proof. keeps_frame. Qed.
Lemma life_setHighlightTimerRef v : keeps (lifecycle d) (setHighlightTimerRef v).
Proof. keeps_frame. Qed.
Lemma life_setFirstBoundaryHeardRef b :
  keeps (lifecycle d) (setFirstBoundaryHeardRef b).
Proof. keeps_frame. Qed.
Lemma life_setIsSpeakingRef b : keeps (lifecycle d) (setIsSpeakingRef b).
Proof. keeps_frame. Qed.

Lemma life_clearTimer k : keeps (lifecycle d) (clearTimer k).
Proof. on_life. split; [easy|]. by apply life_delete. Qed.

Lemma life_setTimer_grace : keeps (lifecycle d) (setTimer GraceReset).
Proof. on_life. split; [easy|]. apply life_insert; [by intros []|easy]. Qed.

Lemma life_setTimer_highlight words rate i pause :
  keeps (lifecycle d) (setTimer (Highlight words rate i pause)).
Proof. on_life. split; [easy|]. apply life_insert; [by intros []|easy]. Qed.

Lemma life_newUtterance : keeps (lifecycle d) newUtterance.
Proof. on_life. split; [easy|]. by apply life_next. Qed.

Lemma life_forgets u : keeps (lifecycle d) (forget u).
Proof. on_life. split; [easy|]. by apply life_forget. Qed.

Ltac life_prim :=
  first
    [ simple apply life_setIsSpeaking | simple apply life_setCurrentWordIndex
    | simple apply life_setError | simple apply life_setUtteranceRef
    | simple apply life_setStoppedByUserRef | simple apply life_setHighlightTimerRef
    | simple apply life_setFirstBoundaryHeardRef | simple apply life_setIsSpeakingRef
    | simple apply life_clearTimer | simple apply life_setTimer_grace
    | simple apply life_setTimer_highlight | simple apply life_newUtterance
    | simple apply life_forgets ].

Ltac life_auto := keeps_seq life_prim.

Lemma life_clearHighlightTimer : keeps (lifecycle d) clearHighlightTimer.
Proof. unfold clearHighlightTimer. life_auto. Qed.

Lemma life_stopSpeaking : keeps (lifecycle d) stopSpeaking.
Proof.
  unfold stopSpeaking, speechSynthesis_cancel.
  keeps_seq ltac:(first [life_prim | simple apply life_clearHighlightTimer]).
Qed.

Lemma life_render : keeps (lifecycle d) render.
Proof. unfold render. keeps_seq ltac:(first [life_prim | simple apply life_stopSpeaking]). Qed.

Lemma life_onend u : keeps (lifecycle d) (onend u).
Proof.
  unfold onend. keeps_seq ltac:(first [life_prim | simple apply life_clearHighlightTimer]).
Qed.

Lemma life_onerror u err : keeps (lifecycle d) (onerror u err).
Proof.
  unfold onerror. keeps_seq ltac:(first [life_prim | simple apply life_clearHighlightTimer]).
Qed.

Lemma life_onboundary u charIndex : keeps (lifecycle d) (onboundary u charIndex).
Proof.
  unfold onboundary.
  keeps_seq ltac:(first [life_prim | simple apply life_clearHighlightTimer]).
Qed.

Lemma life_startFallback words rate : keeps (lifecycle d) (startFallback words rate).
Proof. unfold startFallback. life_auto. Qed.

Lemma life_tick words rate i pause : keeps (lifecycle d) (tick words rate i pause).
Proof.
  unfold tick. cbv zeta.
  keeps_seq ltac:(first [life_prim | simple apply life_clearHighlightTimer]).
Qed.

Lemma life_fire_highlight s id words rate i pause :
  timers s !! id = Some (Highlight words rate i pause) ->
  lifecycle d s -> lifecycle d (step s (Fire id)).
Proof.
  intros E Hs. unfold step. simpl handle. unfold fire.
  rewrite exec_get_bind, E. apply keeps_exec; [|exact Hs].
  apply keeps_bind; [apply life_tick|]. intros [i' pause'].
  apply keeps_get_bind. intros x Hx s' ->. destruct x. unfold lifecycle in *.
  cbn [story isAndroid timers utterances nextId] in Hx. destruct Hx as [? Hx].
  handlers. split; [easy|]. apply life_alter; [by intros []|easy].
Qed.

Lemma life_fire_start s id t :
  timers s !! id = Some t -> isStart t ->
  lifecycle d s -> lifecycle d (step s (Fire id)).
Proof.
  intros E Ht [Hstory H].
  pose proof (proj1 (proj2 H) _ _ E Ht) as ->.
  assert (utterances s = ∅) as HU by (apply H; eauto).
  destruct s. unfold lifecycle. cbn [story isAndroid timers utterances nextId] in *.
  subst utterances0. handlers. rewrite E.
  assert (forall k, delete (startId isAndroid0 d) timers0 !! startId isAndroid0 d = None
            /\ delete k (delete (startId isAndroid0 d) timers0)
                 !! startId isAndroid0 d = None) as Hgone.
  { intros k. split; [apply lookup_delete_eq|].
    apply lookup_delete_None. right. apply lookup_delete_eq. }
  pose proof (proj1 H) as Hlt.
  destruct t as [|?|words rate|words rate f|]; try done; handlers;
    destruct speakThrows0; handlers; (split; [done|]).
  - by apply life_next, life_delete.
  - apply life_insert; [by intros []|].
    apply life_speak; [apply (Hgone 1%positive)|]. by apply life_next, life_delete.
  - by apply life_delete, life_next, life_delete.
  - apply life_speak; [apply (Hgone 1%positive)|]. by apply life_next, life_delete.
Qed.

(** Every event but a press of play keeps the life of the session. *)
Lemma life_step s e :
  match e with Play _ => False | _ => True end ->
  lifecycle d s -> lifecycle d (step s e).
Proof.
  intros He Hs. destruct e as [rate| | |id|u c|u|u err]; [done|..].
  - unfold step. simpl handle. apply keeps_exec; [apply life_stopSpeaking|exact Hs].
  - unfold step. simpl handle. apply keeps_exec; [apply life_render|exact Hs].
  - destruct (timers s !! id) as [t|] eqn:E.
    + destruct t.
      * unfold step. simpl handle. unfold fire. rewrite exec_get_bind, E.
        apply keeps_exec; [|exact Hs]. keeps_seq life_prim.
      * unfold step. simpl handle. unfold fire. rewrite exec_get_bind, E.
        apply keeps_exec; [|exact Hs].
        keeps_seq ltac:(first [life_prim | simple apply life_startFallback]).
      * by eapply life_fire_start.
      * by eapply life_fire_start.
      * by eapply life_fire_highlight.
    + unfold step. simpl handle. unfold fire. by rewrite exec_get_bind, E.
  - unfold step. simpl handle. unfold withUtterance. rewrite exec_get_bind.
    destruct (utterances s !! u) as [ut|] eqn:E; [|done].
    apply keeps_exec; [apply life_onboundary|exact Hs].
  - unfold step. simpl handle. unfold withUtterance. rewrite exec_get_bind.
    destruct (utterances s !! u) as [ut|] eqn:E; [|done].
    apply keeps_exec; [|exact Hs].
    apply keeps_bind; [apply life_onend|intros _; apply life_forgets].
  - unfold step. simpl handle. unfold withUtterance. rewrite exec_get_bind.
    destruct (utterances s !! u) as [ut|] eqn:E; [|done].
    apply keeps_exec; [|exact Hs].
    apply keeps_bind; [apply life_onerror|intros _; apply life_forgets].
Qed.

Lemma life_run tr : forall s,
  noPlay tr -> lifecycle d s -> lifecycle d (run s tr).
Proof.
  induction tr as [|e tr IH]; intros s Hn Hs; [done|].
  apply Forall_cons in Hn as [He Hn]. rewrite run_cons. apply IH; [done|].
  by apply life_step.
Qed.

End LifeKeeps.

Section LifeStart.
Import Playback SessionSpec LifecycleSpec.

Lemma life_play s rate :
  quiescent s -> lifecycle (nextId s) (step s (Play rate)).
Proof.
  intros (Hstory & HU & HT). destruct s. unfold lifecycle.
  cbn [story utterances timers nextId isAndroid] in *. subst utterances0.
  handlers. destruct story0 as [|c story0]; [done|].
  assert (forall k id t, delete k timers0 !! id = Some t -> ~ isStart t) as Hd.
  { intros k id t [_ E]%lookup_delete_Some. rewrite (HT _ _ E). by intros []. }
  assert (forall id t, timers0 !! id = Some t -> ~ isStart t) as Hd'.
  { intros id t E. rewrite (HT _ _ E). by intros []. }
  destruct highlightTimerRef0 as [k|]; handlers;
    destruct isAndroid0; handlers; (split; [done|]);
    (split; [simpl; lia|]); (split; [|split; [done|by intros ? ? [? ?]]]);
    intros id t E Ht; simpl;
    repeat (apply lookup_insert_Some in E as [[<- <-]|[? E]]; [done || by destruct Ht|]);
    exfalso; first [exact (Hd _ _ _ E Ht) | exact (Hd' _ _ E Ht)].
Qed.

Lemma inSession_run s0 rate tr :
  quiescent s0 -> noPlay tr ->
  inSession (nextId s0) (run (step s0 (Play rate)) tr).
Proof.
  intros Hq Hn. split.
  - by apply inv_run, inv_play.
  - by apply life_run, life_play.
Qed.

End LifeStart.

Section LifeEnds.
Import Playback SessionSpec LifecycleSpec.

Ltac all_grace Hheld :=
  let id := fresh "id" in let t := fresh "t" in let E := fresh "E" in
  intros id t E; cbn [timers] in E;
  repeat (apply lookup_delete_Some in E as [? E]);
  destruct (Hheld _ _ E) as [?|[[? ?]|?]]; congruence.

(** When the utterance of a session ends, by its [end] or its [error]
    event, nothing of the session is left. *)
Lemma ended_quiescent d s u ut (m : M unit) :
  inSession d s -> utterances s !! u = Some ut ->
  m = onend ut \/ (exists err, m = onerror ut err) ->
  let s' := exec (m ;; forget u) s in
  quiescent s' /\ isSpeaking s' = false /\ currentWordIndex s' = None /\
  highlightTimerRef s' = None.
Proof.
  intros [Hinv [Hstory Hlife]] Hu Hm.
  pose proof (proj1 (proj2 (proj2 Hinv)) _ _ Hu) as Hut.
  pose proof (fun id t => life_held _ _ _ _ _ _ _ _ _ id t Hinv Hlife Hu) as Hheld.
  pose proof (life_only _ _ _ _ _ _ _ Hlife Hu) as Hone.
  destruct s. unfold sessionInv in *.
  cbn [story isAndroid highlightTimerRef firstBoundaryHeardRef timers utterances
       nextId] in *.
  destruct Hm as [->|[err ->]]; destruct ut as [|words f]; simpl in Hut;
    [|destruct Hut as [-> ->]| |destruct Hut as [-> ->]];
    handlers; destruct highlightTimerRef0 as [k|]; handlers;
    repeat match goal with
           | |- context [if ?b then _ else _] => destruct b; handlers
           end;
    (split; [split; [done|split; [done|all_grace Hheld]]|done]).
Qed.

(** A delayed start whose [speak] raises, before the deadline of the
    session has fired: nothing of the session is left. *)
Lemma failed_start_quiescent d s id t :
  inSession d s -> speakThrows s = true ->
  timers s !! id = Some t -> isStart t ->
  (isAndroid s = false -> is_Some (timers s !! d)) ->
  let s' := step s (Fire id) in
  error s' = Some audioNotGenerated /\ isSpeaking s' = false /\
  quiescent s' /\ published s' = published s.
Proof.
  intros [Hinv [Hstory Hlife]] Hthrows E Ht Hdead.
  pose proof (proj1 (proj2 Hlife) _ _ E Ht) as ->.
  assert (utterances s = ∅) as HU by (apply Hlife; eauto).
  pose proof (proj1 (proj2 Hinv)) as HT.
  pose proof (HT _ _ E) as Hok.
  assert (forall id' t', timers s !! id' = Some t' ->
            t' = GraceReset \/ id' = d \/ id' = startId (isAndroid s) d) as Hheld.
  { intros id' t' E'. specialize (HT _ _ E').
    destruct t'; simpl in HT; [by left|tauto|tauto| |].
    - right. right. by apply (proj1 (proj2 Hlife) _ _ E').
    - exfalso. destruct HT as [_ Hnone].
      destruct (isAndroid s) eqn:Ea; simpl in *; [congruence|].
      destruct (Hdead eq_refl). congruence. }
  destruct s. unfold sessionInv in *.
  cbn [story isAndroid speakThrows highlightTimerRef firstBoundaryHeardRef timers
       utterances nextId] in *.
  subst. handlers. rewrite E.
  destruct t as [|?|words rate|words rate f|]; try done; handlers;
    simpl in Hok; destruct Hok as [-> Hf]; simpl in *.
  - split; [done|]. split; [done|]. split; [|done].
    split; [done|]. split; [done|]. intros id' t' E'. cbn [timers] in E'.
    apply lookup_delete_Some in E' as [? E'].
    destruct (Hheld _ _ E') as [?|[?|?]]; congruence.
  - subst f. split; [done|]. split; [done|]. split; [|done].
    split; [done|]. split; [done|]. intros id' t' E'. cbn [timers] in E'.
    apply lookup_delete_Some in E' as [? E'].
    apply lookup_delete_Some in E' as [? E'].
    destruct (Hheld _ _ E') as [?|[?|?]]; congruence.
Qed.

End LifeEnds.

(** X15. A session leaves nothing behind when its utterance ends: after a
    press of play with no earlier session in flight, and whatever follows
    short of another press, the [end] event, or an [error] event, of the
    utterance the driver holds leaves the component with no utterance and
    no timer but reset timeouts of stops, not speaking, with no current
    word and no highlight interval: ready for the next press of play. *)
Theorem session_ends_clean (s0 : Playback.State) (rate : Q)
    (tr : list Playback.Event) (u : positive) :
  SessionSpec.quiescent s0 -> SessionSpec.noPlay tr ->
  let s := Playback.run (Playback.step s0 (Playback.Play rate)) tr in
  is_Some (Playback.utterances s !! u) ->
  forall e, e = Playback.End u \/ (exists err, e = Playback.Error u err) ->
    let s' := Playback.step s e in
    SessionSpec.quiescent s' /\ Playback.isSpeaking s' = false /\
    Playback.currentWordIndex s' = None /\ Playback.highlightTimerRef s' = None.
Proof.
  intros Hq Hn s [ut Hu] e He s'.
  pose proof (inSession_run s0 rate tr Hq Hn) as Hs. fold s in Hs.
  subst s'. unfold Playback.step.
  destruct He as [->|[err ->]]; simpl Playback.handle;
    unfold Playback.withUtterance; rewrite exec_get_bind, Hu;
    eapply ended_quiescent; eauto.
Qed.

Lemma session_ends_clean_witness :
  let s0 := Playback.initial (js "Hi there. Bye now") false false in
  let tr := [Playback.Fire 2; Playback.Render; Playback.Fire 1;
             Playback.Fire 4; Playback.Stop]%positive in
  let s := Playback.run (Playback.step s0 (Playback.Play 1)) tr in
  SessionSpec.quiescent s0 /\ SessionSpec.noPlay tr /\
  is_Some (Playback.utterances s !! 3%positive) /\
  is_Some (Playback.timers s !! 5%positive) /\
  SessionSpec.quiescent (Playback.step s (Playback.Error 3 (js "interrupted"))).
Proof.
  intros s0 tr s.
  assert (SessionSpec.quiescent s0) as Hq.
  { split; [by vm_compute|]. split; [done|]. apply map_Forall_empty. }
  assert (SessionSpec.noPlay tr) as Hn by (by repeat constructor).
  assert (is_Some (Playback.utterances s !! 3%positive)) as Hu by (vm_compute; by eexists).
  split; [exact Hq|]. split; [exact Hn|]. split; [exact Hu|].
  split; [vm_compute; by eexists|].
  exact (proj1 (session_ends_clean s0 1%Q tr 3 Hq Hn Hu _
                  (or_intror (ex_intro _ (js "interrupted") eq_refl)))).
Defined.

(** X16. When [speechSynthesis.speak] raises, the play attempt is given up
    and reported: after a press of play with no earlier session in flight,
    the delayed start that fires while the deadline of the session is
    still pending (always so on Android, which has none) sets the message
    that the audio could not be generated, leaves the component not
    speaking and with nothing of the session left, and publishes nothing. *)
Theorem speak_failure_is_reported (s0 : Playback.State) (rate : Q)
    (tr : list Playback.Event) (id : positive) (t : Playback.Timer) :
  SessionSpec.quiescent s0 -> SessionSpec.noPlay tr ->
  let s := Playback.run (Playback.step s0 (Playback.Play rate)) tr in
  Playback.speakThrows s = true ->
  Playback.timers s !! id = Some t -> LifecycleSpec.isStart t ->
  (Playback.isAndroid s = false ->
   is_Some (Playback.timers s !! Playback.nextId s0)) ->
  let s' := Playback.step s (Playback.Fire id) in
  Playback.error s' = Some Playback.audioNotGenerated /\
  Playback.isSpeaking s' = false /\
  SessionSpec.quiescent s' /\
  Playback.published s' = Playback.published s.
Proof.
  intros Hq Hn s Hthrows E Ht Hdead.
  pose proof (inSession_run s0 rate tr Hq Hn) as Hs. fold s in Hs.
  by eapply failed_start_quiescent.
Qed.

Lemma speak_failure_is_reported_witness :
  let s0 := Playback.initial (js "Hi there. Bye now") false true in
  let tr := [Playback.Render; Playback.Stop] in
  let s := Playback.run (Playback.step s0 (Playback.Play 1)) tr in
  SessionSpec.quiescent s0 /\ SessionSpec.noPlay tr /\
  Playback.timers s !! 2%positive
    = Some (Playback.SpeakDesktop (Words.splitWords (js "Hi there. Bye now")) 1 1) /\
  Playback.error (Playback.step s (Playback.Fire 2))
    = Some Playback.audioNotGenerated /\
  SessionSpec.quiescent (Playback.step s (Playback.Fire 2)).
Proof.
  intros s0 tr s.
  assert (SessionSpec.quiescent s0) as Hq.
  { split; [by vm_compute|]. split; [done|]. apply map_Forall_empty. }
  assert (SessionSpec.noPlay tr) as Hn by (by repeat constructor).
  assert (Playback.timers s !! 2%positive
    = Some (Playback.SpeakDesktop (Words.splitWords (js "Hi there. Bye now")) 1 1))
    as E by reflexivity.
  destruct (speak_failure_is_reported s0 1%Q tr 2 _ Hq Hn eq_refl E I
              ltac:(intros _; vm_compute; by eexists)) as (Herr & _ & Hq' & _).
  split; [exact Hq|]. split; [exact Hn|]. split; [exact E|].
  split; [exact Herr|exact Hq'].
Defined.

(** ** The clean-up effect and the error message *)

(** X17. A message set by [onerror] while the component is rendered as
    speaking does not outlive the next render: the handler sets the message
    and [isSpeaking] to false, and the render that commits this change runs
    the clean-up of the effect on [isSpeaking], which calls [stopSpeaking]
    and so clears the message, sets the stopped-by-user flag and arms a
    reset timeout. *)
Theorem error_message_cleared_by_render (s : Playback.State) (u : positive)
    (ut : Playback.Utterance) (err : jsstring) :
  Playback.utterances s !! u = Some ut ->
  Playback.isSpeakingRef s = true ->
  let s1 := Playback.step s (Playback.Error u err) in
  let s2 := Playback.step s1 Playback.Render in
  (Playback.stoppedByUserRef s = false ->
   err <> js "interrupted" -> err <> js "canceled" ->
   Playback.error s1 = Some Playback.audioUnsupported) /\
  Playback.isSpeaking s1 = false /\
  Playback.error s2 = None /\
  Playback.stoppedByUserRef s2 = true /\
  Playback.isSpeakingRef s2 = false /\
  Playback.timers s2 !! Playback.nextId s1 = Some Playback.GraceReset.
Proof.
  intros Hu Href s1 s2.
  assert (Playback.stoppedByUserRef s = false ->
          err <> js "interrupted" -> err <> js "canceled" ->
          Playback.stoppedByUserRef s || eqUnits err (js "interrupted")
            || eqUnits err (js "canceled") = false) as Hb.
  { intros -> H1 H2. unfold eqUnits. by rewrite !bool_decide_eq_false_2. }
  subst s2 s1. destruct s.
  cbn [Playback.utterances Playback.isSpeakingRef Playback.stoppedByUserRef] in *.
  subst. handlers. rewrite Hu.
  destruct ut as [|words f]; handlers;
    destruct highlightTimerRef0 as [k|]; handlers;
    destruct (stoppedByUserRef0 || _ || _) eqn:Eb; handlers;
    (case_bool_decide; [done|]); handlers;
    rewrite ?lookup_insert_eq; repeat split; try done;
    intros H1 H2 H3; pose proof (Hb H1 H2 H3); congruence.
Qed.

Lemma error_message_cleared_by_render_witness :
  let s := Playback.run (Playback.initial (js "Hi there.") false false)
             [Playback.Play 1; Playback.Fire 2; Playback.Render]%positive in
  let s1 := Playback.step s (Playback.Error 3 (js "synthesis-failed")) in
  Playback.utterances s !! 3%positive
    = Some (Playback.DesktopUtterance (Words.splitWords (js "Hi there.")) 1) /\
  Playback.isSpeakingRef s = true /\
  Playback.error s1 = Some Playback.audioUnsupported /\
  Playback.error (Playback.step s1 Playback.Render) = None.
Proof.
  intros s s1.
  assert (Playback.utterances s !! 3%positive
    = Some (Playback.DesktopUtterance (Words.splitWords (js "Hi there.")) 1))
    as Hu by reflexivity.
  assert (Playback.isSpeakingRef s = true) as Href by reflexivity.
  destruct (error_message_cleared_by_render s 3 _ (js "synthesis-failed") Hu Href)
    as (Hset & _ & Hclear & _).
  split; [exact Hu|]. split; [exact Href|].
  split; [apply Hset; [reflexivity|by vm_compute|by vm_compute]|exact Hclear].
Defined.

(** ** Duration of the fallback pacing *)

Section DurationFacts.
Import Pacing Words Phrases Playback PlaybackSpec PacingSpec.
Variables (words : list jsstring) (rate : Q) (id : positive).

(** The tick that leaves a word for the next one arms the pause the word
    calls for. *)
Lemma tick_advance_exact i pause log s :
  Running words rate id i pause log s ->
  0 <= pause -> pause - getMsPerWord rate <= 0 ->
  (S i < length words)%nat ->
  Running words rate id (S i) (pauseAt rate words (S i)) (log ++ [Some (S i)])
    (step s (Fire id)).
Proof.
  unfold Running. destruct s. cbn [timers highlightTimerRef isSpeakingRef published].
  intros (Ht & -> & -> & <-) Hp0 Hp Hi. handlers. rewrite Ht. handlers.
  unfold pauseAt. replace (S i - 1)%nat with i by lia.
  destruct (Z.ltb_spec 0 pause).
  - destruct (Z.leb_spec (pause - getMsPerWord rate) 0); [|lia].
    destruct (Nat.leb_spec (length words) (S i)); [lia|]. handlers.
    rewrite lookup_alter. case_decide; [|done]. by rewrite Ht.
  - destruct (Nat.leb_spec (length words) (S i)); [lia|]. handlers.
    assert (pause = 0) as -> by lia.
    rewrite lookup_alter. case_decide; [|done]. by rewrite Ht.
Qed.

(** The highlight rests [restTicks] ticks on word [i], then moves on. *)
Lemma rest_on_word (fuel : nat) : forall i pause log s,
  Running words rate id i pause log s ->
  0 <= pause <= Z.of_nat fuel * getMsPerWord rate ->
  let k := restTicks fuel (getMsPerWord rate) pause in
  (forall j, (j < k)%nat ->
     exists pause', Running words rate id i pause' log (run s (ticks id j))) /\
  if decide (S i < length words)%nat
  then Running words rate id (S i) (pauseAt rate words (S i))
         (log ++ [Some (S i)]) (run s (ticks id k))
  else Finished id (log ++ [None]) (run s (ticks id k)).
Proof.
  pose proof (getMsPerWord_bounds rate) as Hms.
  assert (forall i pause log s,
            Running words rate id i pause log s ->
            0 <= pause -> pause - getMsPerWord rate <= 0 ->
            (forall j, (j < 1)%nat ->
               exists pause', Running words rate id i pause' log (run s (ticks id j))) /\
            if decide (S i < length words)%nat
            then Running words rate id (S i) (pauseAt rate words (S i))
                   (log ++ [Some (S i)]) (run s (ticks id 1))
            else Finished id (log ++ [None]) (run s (ticks id 1))) as Hone.
  { intros i pause log s Hrun Hp0 Hp. split.
    - intros j Hj. assert (j = 0)%nat as -> by lia. by exists pause.
    - unfold ticks. simpl. case_decide.
      + by apply (tick_advance_exact i pause).
      + apply (tick_finish words rate id i pause); [done|lia..]. }
  induction fuel as [|fuel IH]; intros i pause log s Hrun Hp k; subst k.
  - simpl. apply (Hone i pause); [done|lia..].
  - simpl restTicks.
    destruct (Z.ltb_spec 0 pause); simpl andb; [|apply (Hone i pause); [done|lia..]].
    destruct (Z.leb_spec (pause - getMsPerWord rate) 0); simpl negb; cbv iota;
      [apply (Hone i pause); [done|lia..]|].
    destruct (IH i (pause - getMsPerWord rate) log (step s (Fire id)))
      as [Hbefore Hat]; [by apply (tick_pause words rate id i pause)|lia|].
    split; [|exact Hat].
    intros [|j] Hj; [by exists pause|]. apply (Hbefore j). lia.
Qed.

Lemma pauseAt_bounds i : 0 <= pauseAt rate words i <= 6 * getMsPerWord rate.
Proof.
  pose proof (getMsPerWord_bounds rate).
  destruct i as [|i]; simpl; [lia|].
  pose proof (pauseAfter_bounds rate (words !! i) 0 ltac:(lia)). lia.
Qed.

(** From word [i], reached with its pause, the pacing takes the rests of
    the words that are left, and is not over before. *)
Lemma pace_exact (m : nat) : forall i log0 s,
  m = (length words - i)%nat -> (i < length words)%nat ->
  Running words rate id i (pauseAt rate words i)
    (log0 ++ (Some <$> seq 0 (S i))) s ->
  let n := sum_list (rest rate words <$> seq i m) in
  Finished id (log0 ++ (Some <$> seq 0 (length words)) ++ [None])
    (run s (ticks id n)) /\
  forall j, (j < n)%nat ->
    exists i' pause', (i' < length words)%nat /\
      Running words rate id i' pause' (log0 ++ (Some <$> seq 0 (S i')))
        (run s (ticks id j)).
Proof.
  induction m as [|m IH]; intros i log0 s Hm Hi Hrun n; [lia|].
  subst n. simpl seq. rewrite fmap_cons. simpl sum_list.
  destruct (rest_on_word 6 i _ _ s Hrun (pauseAt_bounds i)) as [Hbefore Hat].
  fold (rest rate words i) in Hbefore, Hat.
  destruct (decide (S i < length words)%nat) as [Hlt|Hge].
  - rewrite <- app_assoc, <- fmap_snoc, <- seq_S in Hat.
    destruct (IH (S i) log0 _ ltac:(lia) Hlt Hat) as [Hfin Hrest].
    split; [by rewrite ticks_add|].
    intros j Hj. destruct (decide (j < rest rate words i)%nat) as [Hj'|Hj'].
    + destruct (Hbefore j Hj') as [pause' Hr]. by exists i, pause'.
    + replace j with (rest rate words i + (j - rest rate words i))%nat by lia.
      rewrite ticks_add. apply Hrest. lia.
  - assert (m = 0)%nat as -> by lia. simpl. rewrite Nat.add_0_r.
    assert (length words = S i) as Hlen by lia. split.
    + rewrite Hlen. by rewrite <- app_assoc in Hat.
    + intros j Hj. destruct (Hbefore j Hj) as [pause' Hr]. by exists i, pause'.
Qed.

(** The rest on the word after [w]. *)
Lemma rest_after j w :
  words !! j = Some w ->
  rest rate words (S j)
  = (1 + if endsSentence w then sentencePauseTicks rate else 0)%nat.
Proof.
  intros Hw. unfold rest, pauseAt, pauseAfter, endsSentence. rewrite Hw.
  assert (leq rate (6 # 10) = true -> ltq rate (11 # 10) = true) as Hband.
  { intros H%leq_true. apply ltq_true. eapply Qle_lt_trans; [exact H|done]. }
  unfold sentencePauseTicks, getMsPerWord, PAUSE_MS_SENTENCE, PAUSE_MS_COMMA.
  destruct (last w) as [c|]; [|by destruct (leq _ _), (ltq _ _)].
  destruct (isSentenceEnd c) eqn:Es.
  - destruct (leq rate (6 # 10)); [by rewrite Hband|]. by destruct (ltq _ _).
  - destruct (isClauseEnd c); by destruct (leq _ _), (ltq _ _).
Qed.

Lemma rest_sum (l : list jsstring) : forall rest',
  words = l ++ rest' ->
  sum_list ((fun j => rest rate words (S j)) <$> seq 0 (length l))
  = (length l
     + sentencePauseTicks rate * length (List.filter endsSentence l))%nat.
Proof.
  induction l as [|w l IH] using rev_ind; intros rest' Hwords; [simpl; lia|].
  rewrite length_app. simpl length. rewrite Nat.add_1_r, seq_S, fmap_app.
  rewrite sum_list_with_app, (IH ([w] ++ rest')) by (by rewrite Hwords, <- app_assoc).
  simpl. rewrite (rest_after (length l) w).
  2:{ rewrite Hwords, <- app_assoc. by apply list_lookup_middle. }
  rewrite List.filter_app, length_app. simpl.
  destruct (endsSentence w); simpl; lia.
Qed.

Lemma fallbackTicks_closed :
  words <> [] ->
  fallbackTicks rate words
  = (length words
     + sentencePauseTicks rate
       * length (List.filter endsSentence (take (length words - 1) words)))%nat.
Proof.
  intros Hne. unfold fallbackTicks.
  destruct (length words) as [|n] eqn:Hlen; [by destruct words|].
  simpl seq. rewrite fmap_cons, <- fmap_S_seq, <- list_fmap_compose.
  replace (S n - 1)%nat with n by lia.
  assert (length (take n words) = n) as Hn by (rewrite length_take; lia).
  pose proof (rest_sum (take n words) (drop n words)
                ltac:(by rewrite take_drop)) as Hsum.
  rewrite Hn in Hsum. simpl. unfold compose. by rewrite Hsum.
Qed.

End DurationFacts.

(** X18. The fallback pacing takes one tick for every word and, for every
    word but the last that ends a sentence, one more tick, or two at a rate
    of 1.1 and above; a comma, colon or semicolon adds none at any rate,
    the pause it calls for being shorter than a tick. Started on a
    non-empty word list in a session that is speaking and is not stopped,
    the pacing ends at exactly that tick, and at every tick before it the
    interval is still running and a word is highlighted. *)
Theorem fallback_pacing_duration (words : list jsstring) (rate : Q)
    (s : Playback.State) :
  words <> [] -> Playback.isSpeaking s = true ->
  let id := Playback.nextId s in
  let s1 := Playback.step (Playback.exec (Playback.startFallback words rate) s)
              Playback.Render in
  let n := PacingSpec.fallbackTicks rate words in
  n = (length words
       + PacingSpec.sentencePauseTicks rate
         * length (List.filter Phrases.endsSentence
                     (take (length words - 1) words)))%nat /\
  PlaybackSpec.Finished id
    (Playback.published s ++ (Some <$> seq 0 (length words)) ++ [None])
    (Playback.run s1 (PlaybackSpec.ticks id n)) /\
  (forall j, (j < n)%nat ->
     let sj := Playback.run s1 (PlaybackSpec.ticks id j) in
     exists i, (i < length words)%nat /\
       Playback.published sj = Playback.published s ++ (Some <$> seq 0 (S i)) /\
       Playback.highlightTimerRef sj = Some id /\
       is_Some (Playback.timers sj !! id)) /\
  (forall j w, words !! j = Some w ->
     PacingSpec.rest rate words (S j)
     = (1 + if Phrases.endsSentence w
            then PacingSpec.sentencePauseTicks rate else 0)%nat).
Proof.
  intros Hne Hlive id s1 n.
  assert (0 < length words)%nat as Hlen by (destruct words; [done|simpl; lia]).
  pose proof (startFallback_running words rate s Hlive) as Hrun.
  destruct (pace_exact words rate id (length words) 0 (Playback.published s) s1
              ltac:(lia) Hlen Hrun) as [Hfin Hbefore].
  split; [by apply fallbackTicks_closed|]. split; [exact Hfin|].
  split; [|intros j w; apply rest_after].
  intros j Hj sj. destruct (Hbefore j Hj) as (i & pause & Hi & Ht & Href & _ & Hlog).
  exists i. split; [done|]. split; [done|]. split; [done|]. by eexists.
Qed.

Lemma fallback_pacing_duration_witness :
  let words := Words.splitWords (js "Hi there. Bye, now") in
  let s := Playback.run (Playback.initial (js "Hi there. Bye, now") true false)
             [Playback.Play 1]%positive in
  let s0 := Playback.exec (Playback.setIsSpeaking true) s in
  words <> [] /\ Playback.isSpeaking s0 = true /\
  PacingSpec.fallbackTicks 1 words = 5%nat /\
  PlaybackSpec.Finished (Playback.nextId s0)
    (Playback.published s0 ++ (Some <$> seq 0 4) ++ [None])
    (Playback.run
       (Playback.step (Playback.exec (Playback.startFallback words 1) s0)
          Playback.Render)
       (PlaybackSpec.ticks (Playback.nextId s0) 5)).
Proof.
  intros words s s0.
  assert (words <> []) as Hne by (by vm_compute).
  assert (Playback.isSpeaking s0 = true) as Hlive by reflexivity.
  destruct (fallback_pacing_duration words 1%Q s0 Hne Hlive) as (_ & Hfin & _).
  split; [exact Hne|]. split; [exact Hlive|]. split; [reflexivity|exact Hfin].
Defined.

(** ** The quiz flow *)

Section StoryKept.
Import Playback Logic FlowSpec.
Variable Q : jsstring -> Prop.

(** The callbacks of the playback part never assign [story]. *)
Lemma story_setIsSpeaking b : keeps (storyIs Q) (setIsSpeaking b).
Proof. keeps_frame. Qed.
Lemma story_setCurrentWordIndex v : keeps (storyIs Q) (setCurrentWordIndex v).
Proof. keeps_frame. Qed.
Lemma story_setError v : keeps (storyIs Q) (setError v).
Proof. keeps_frame. Qed.
Lemma story_setUtteranceRef v : keeps (storyIs Q) (setUtteranceRef v).
Proof. keeps_frame. Qed.
Lemma story_setStoppedByUserRef b : keeps (storyIs Q) (setStoppedByUserRef b).
Proof. keeps_frame. Qed.
Lemma story_setHighlightTimerRef v : keeps (storyIs Q) (setHighlightTimerRef v).
Proof. keeps_frame. Qed.
Lemma story_setFirstBoundaryHeardRef b :
  keeps (storyIs Q) (setFirstBoundaryHeardRef b).
Proof. keeps_frame. Qed.
Lemma story_setIsSpeakingRef b : keeps (storyIs Q) (setIsSpeakingRef b).
Proof. keeps_frame. Qed.
Lemma story_setTimers t n : keeps (storyIs Q) (setTimers t n).
Proof. keeps_frame. Qed.
Lemma story_setUtterances u : keeps (storyIs Q) (setUtterances u).
Proof. keeps_frame. Qed.

Ltac story_prim :=
  first
    [ simple apply story_setIsSpeaking | simple apply story_setCurrentWordIndex
    | simple apply story_setError | simple apply story_setUtteranceRef
    | simple apply story_setStoppedByUserRef | simple apply story_setHighlightTimerRef
    | simple apply story_setFirstBoundaryHeardRef | simple apply story_setIsSpeakingRef
    | simple apply story_setTimers | simple apply story_setUtterances ].

Ltac story_auto := keeps_seq story_prim.

Lemma story_clearTimer id : keeps (storyIs Q) (clearTimer id).
Proof. unfold clearTimer. story_auto. Qed.

Lemma story_setTimer t : keeps (storyIs Q) (setTimer t).
Proof. unfold setTimer. story_auto. Qed.

Lemma story_clearHighlightTimer : keeps (storyIs Q) clearHighlightTimer.
Proof.
  unfold clearHighlightTimer.
  keeps_seq ltac:(first [story_prim | simple apply story_clearTimer]).
Qed.

Ltac story_more :=
  keeps_seq ltac:(first [ story_prim | simple apply story_clearTimer
                        | simple apply story_setTimer
                        | simple apply story_clearHighlightTimer ]).

Lemma story_stopSpeaking : keeps (storyIs Q) stopSpeaking.
Proof. unfold stopSpeaking, speechSynthesis_cancel. story_more. Qed.

Lemma story_startFallback words rate : keeps (storyIs Q) (startFallback words rate).
Proof. unfold startFallback. story_more. Qed.

Lemma story_tick words rate i pause : keeps (storyIs Q) (tick words rate i pause).
Proof. unfold tick. cbv zeta. story_more. Qed.

Lemma story_speakAndroid words rate : keeps (storyIs Q) (speakAndroid words rate).
Proof.
  unfold speakAndroid, newUtterance, speak.
  keeps_seq ltac:(first [ story_prim | simple apply story_startFallback ]).
Qed.

Lemma story_speakDesktop words rate f : keeps (storyIs Q) (speakDesktop words rate f).
Proof.
  unfold speakDesktop, newUtterance, speak.
  keeps_seq ltac:(first [ story_prim | simple apply story_clearTimer ]).
Qed.

Lemma story_handle e : keeps (storyIs Q) (handle e).
Proof.
  destruct e as [rate| | |id|u c|u|u err]; simpl handle.
  - unfold playSpeak, speechSynthesis_cancel. story_more.
  - apply story_stopSpeaking.
  - unfold render. keeps_seq ltac:(first [story_prim | simple apply story_stopSpeaking]).
  - unfold fire.
    keeps_seq ltac:(first [ story_prim | simple apply story_clearTimer
                          | simple apply story_startFallback
                          | simple apply story_speakAndroid
                          | simple apply story_speakDesktop
                          | simple apply story_tick ]).
  - unfold withUtterance, onboundary. story_more.
  - unfold withUtterance, onend, forget. story_more.
  - unfold withUtterance, onerror, forget. story_more.
Qed.

End StoryKept.

Lemma story_exec (m : Playback.M unit) (p : Playback.State) :
  (forall Q, Logic.keeps (FlowSpec.storyIs Q) m) ->
  Playback.story (Playback.exec m p) = Playback.story p.
Proof.
  intros H. by apply (H (fun x => x = Playback.story p) p).
Qed.

Section FlowFacts.
Import App FlowSpec.
Variable toLowerCase : jsstring -> jsstring.

Lemma story_onPlayer (e : Playback.Event) (p : Playback.State) :
  Playback.story (Playback.exec (Playback.handle e) p) = Playback.story p.
Proof. apply story_exec. intros Q. apply story_handle. Qed.

Lemma story_stop (p : Playback.State) :
  Playback.story (Playback.exec Playback.stopSpeaking p) = Playback.story p.
Proof. apply (story_onPlayer Playback.Stop). Qed.

Lemma story_play rate (p : Playback.State) :
  Playback.story (Playback.exec (Playback.playSpeak rate) p) = Playback.story p.
Proof. apply (story_onPlayer (Playback.Play rate)). Qed.

Lemma flow_initial android throws : flowInv (initial android throws).
Proof.
  unfold flowInv, initial. simpl. repeat split; try done; intros; lia.
Qed.

(** The invariant reads only the quiz flow and the story. *)
Lemma flow_player (s : State) (p : Playback.State) :
  Playback.story p = Playback.story (player s) ->
  flowInv s ->
  flowInv (mkApp (view s) (practiceType s) (config s) (quiz s) (vocabulary s)
             (userAnswers s) (currentQuestionIndex s) (isLoading s)
             (isVocabularyModalOpen s) (showTranscript s) p).
Proof.
  intros Hp H. destruct s. unfold flowInv, answered in *. simpl in *.
  by rewrite Hp.
Qed.

Lemma arraySet_in {A} (a : list (option A)) (i : nat) (v : A) :
  (i < length a)%nat -> arraySet a i v = <[i := Some v]> a.
Proof. intros Hi. unfold arraySet. by destruct (Nat.ltb_spec i (length a)); [|lia]. Qed.

(** An answer that is set and is not empty is one of the options. *)
Lemma flow_truthy (s : State) (j : nat) :
  flowInv s -> (j < length (quiz s))%nat ->
  truthy (answerAt (userAnswers s) j) = true -> answered s j.
Proof.
  intros (_ & Hans & _) Hj Ht. destruct (Hans j Hj) as [E|E]; [|done].
  unfold answerAt in Ht. by rewrite E in Ht.
Qed.

Lemma flow_choose (s : State) (q : QuizQuestion.t) (index : nat) (option : jsstring) :
  view s = ViewQuiz -> question s = Some q ->
  QuizQuestion.options q !! index = Some option ->
  flowInv s -> flowInv (handleAnswerSelect option s).
Proof.
  intros Hv Hq Ho (Hlen & Hans & Hidx & Hcfg & Hload & Hquiz & Hres).
  unfold question in Hq. apply lookup_lt_Some in Hq as Hlt.
  unfold handleAnswerSelect. rewrite arraySet_in by lia.
  destruct s. unfold flowInv, answered in *. simpl in *. subst view0.
  split; [by rewrite length_insert|].
  split; [|split; [done|split; [done|split; [done|split; [|done]]]]].
  - intros j Hj. destruct (decide (j = currentQuestionIndex0)) as [->|Hne].
    + rewrite list_lookup_insert_eq by lia.
      destruct option as [|c option]; [by left|]. right.
      exists q, (c :: option). split; [done|]. split; [done|]. split; [done|].
      by eapply list_elem_of_lookup_2.
    + rewrite list_lookup_insert_ne by done. by apply Hans.
  - intros _ j Hj. rewrite list_lookup_insert_ne by lia. by apply Hquiz.
Qed.

Lemma flow_next (s : State) (q : QuizQuestion.t) :
  view s = ViewQuiz -> question s = Some q ->
  truthy (answerAt (userAnswers s) (currentQuestionIndex s)) = true ->
  flowInv s -> flowInv (handleNextQuestion s).
Proof.
  intros Hv Hq Ht Hs. unfold question in Hq. apply lookup_lt_Some in Hq as Hlt.
  pose proof (flow_truthy s _ Hs Hlt Ht) as Hhere.
  destruct Hs as (Hlen & Hans & Hidx & Hcfg & Hload & Hquiz & Hres).
  unfold handleNextQuestion.
  destruct s. unfold flowInv, answered in *. simpl in *. subst view0.
  destruct (Z.ltb_spec (Z.of_nat currentQuestionIndex0)
              (Z.of_nat (length quiz0) - 1)); simpl.
  - split; [done|]. split; [done|]. split; [intros; lia|]. split; [done|].
    split; [done|]. split; [|done].
    intros _ j Hj. destruct (decide (j = currentQuestionIndex0)) as [->|Hne];
      [done|]. apply Hquiz; [done|lia].
  - split; [done|]. split; [done|]. split; [done|]. split; [done|].
    split; [intros _; by apply Hload|]. split; [done|]. intros _.
    split; [by destruct quiz0|].
    intros j Hj. destruct (decide (j = currentQuestionIndex0)) as [->|Hne];
      [done|]. apply Hquiz; [done|lia].
Qed.

Lemma flow_click (c : Click) (s : State) :
  enabled c s = true -> flowInv s -> flowInv (onClick c s).
Proof.
  intros He Hs. unfold enabled in He.
  destruct c; simpl onClick.
  - by destruct s.
  - by destruct s.
  - by destruct s.
  - by destruct s.
  - by destruct s.
  - by destruct s.
  - (* StartLearning *)
    destruct (view s) eqn:Hv; simpl in He; try done;
      try (by destruct (question s)).
    destruct Hs as (Hlen & Hans & Hidx & Hcfg & Hload & Hquiz & Hres).
    destruct s. unfold flowInv, answered, handleGenerate in *. simpl in *.
    subst view0. repeat split; try done; by apply Hcfg.
  - (* Home *)
    destruct s. unfold flowInv, answered, resetApp, renderedIsSpeaking. simpl.
    destruct (Playback.isSpeakingRef player0); simpl;
      rewrite ?story_stop; simpl; repeat split; try done; intros; lia.
  - (* Play1x *)
    apply (flow_player s); [apply story_play|done].
  - apply (flow_player s); [apply story_play|done].
  - apply (flow_player s); [apply story_stop|done].
  - by destruct s.
  - (* StartQuiz *)
    destruct (view s) eqn:Hv; simpl in He; try done;
      try (by destruct (question s)).
    destruct Hs as (Hlen & Hans & Hidx & Hcfg & Hload & Hquiz & Hres).
    destruct s. unfold flowInv, answered, startQuiz, renderedIsSpeaking in *.
    simpl in *. subst view0.
    destruct (Playback.isSpeakingRef player0); simpl;
      (split; [done|]); (split; [done|]);
      (split; [intros Hne; destruct quiz0; [done|simpl; lia]|]);
      (split; [done|]); (split; [intros _; by apply Hload|]);
      (split; [intros _ j Hj; lia|done]).
  - by destruct s.
  - by destruct s.
  - (* ChooseOption *)
    destruct (view s) eqn:Hv; simpl in He; try done;
      try (by destruct (question s)).
    destruct (question s) as [q|] eqn:Hq; [|done].
    destruct (QuizQuestion.options q !! index) as [option|] eqn:Ho; [|done].
    by eapply flow_choose.
  - (* NextQuestion *)
    destruct (view s) eqn:Hv; simpl in He; try done;
      try (by destruct (question s)).
    destruct (question s) as [q|] eqn:Hq; [|done].
    by eapply flow_next.
  - (* TryAnother *)
    destruct s. unfold flowInv, answered, resetApp, renderedIsSpeaking. simpl.
    destruct (Playback.isSpeakingRef player0); simpl;
      rewrite ?story_stop; simpl; repeat split; try done; intros; lia.
  - (* ReviewStory *)
    destruct (view s) eqn:Hv; simpl in He; try done;
      try (by destruct (question s)).
    destruct Hs as (Hlen & Hans & Hidx & Hcfg & Hload & Hquiz & Hres).
    destruct s. unfold flowInv, answered in *. simpl in *. subst view0.
    repeat split; try done. intros _. by apply Hload.
Qed.

Lemma flow_step (s : State) (e : Event) :
  flowInv s -> flowInv (step toLowerCase s e).
Proof.
  intros Hs. destruct e as [c|result|message|e]; simpl.
  - destruct (enabled c s) eqn:He; [by apply flow_click|done].
  - destruct (isLoading s) eqn:Hl; [|done].
    destruct Hs as (Hlen & Hans & Hidx & Hcfg & Hload & Hquiz & Hres).
    assert (view s = ViewConfig) as Hv.
    { destruct (view s) eqn:Hv; [done|..]; by rewrite Hload in Hl. }
    destruct (Hcfg Hv) as (_ & _ & _ & Hi).
    destruct s. unfold flowInv, answered, handleGenerate_fulfilled in *.
    simpl in *. subst.
    split; [by rewrite length_replicate|].
    split; [intros j Hj; left; by apply lookup_replicate_2|].
    split; [intros Hne; destruct (Quiz.normalizeQuizData _ _); [done|simpl; lia]|].
    repeat split; done.
  - destruct (isLoading s) eqn:Hl; [|done].
    destruct Hs as (Hlen & Hans & Hidx & Hcfg & Hload & Hquiz & Hres).
    assert (view s = ViewConfig) as Hv.
    { destruct (view s) eqn:Hv; [done|..]; by rewrite Hload in Hl. }
    destruct s. unfold flowInv, answered, handleGenerate_rejected in *.
    simpl in *. subst. repeat split; try done; by apply Hcfg.
  - destruct e; try done; (apply (flow_player s); [apply story_onPlayer|done]).
Qed.

Lemma flow_run (tr : list Event) : forall s,
  flowInv s -> flowInv (run toLowerCase s tr).
Proof.
  induction tr as [|e tr IH]; intros s Hs; [done|].
  simpl. apply IH. by apply flow_step.
Qed.

End FlowFacts.

Section AnswerAll.
Import App FlowSpec.
Variable toLowerCase : jsstring -> jsstring.

(** One question answered and left: the answer is recorded, and the next
    question or the results screen is shown. *)
Lemma answer_one (s : State) (q : QuizQuestion.t) (pick : nat) (a : jsstring) :
  view s = ViewQuiz -> quiz s !! currentQuestionIndex s = Some q ->
  length (userAnswers s) = length (quiz s) ->
  QuizQuestion.options q !! pick = Some a -> a <> [] ->
  let s' := run toLowerCase s [Clicked (ChooseOption pick); Clicked NextQuestion] in
  quiz s' = quiz s /\
  userAnswers s' = <[currentQuestionIndex s := Some a]> (userAnswers s) /\
  (if decide (S (currentQuestionIndex s) < length (quiz s))%nat
   then view s' = ViewQuiz /\ currentQuestionIndex s' = S (currentQuestionIndex s)
   else view s' = ViewResults).
Proof.
  intros Hv Hq Hlen Ha Hne. apply lookup_lt_Some in Hq as Hlt.
  destruct s. simpl in *. subst view0.
  unfold step, enabled, question, onClick, handleAnswerSelect. simpl.
  rewrite Hq, Ha. simpl. rewrite ?Hq.
  rewrite !arraySet_in by lia. unfold answerAt.
  rewrite list_lookup_insert_eq by lia. simpl.
  destruct a as [|c a]; [done|]. simpl.
  unfold handleNextQuestion. simpl.
  destruct (Z.ltb_spec (Z.of_nat currentQuestionIndex0)
              (Z.of_nat (length quiz0) - 1)); simpl;
    case_decide; try lia; repeat split; try done. lia.
Qed.

Lemma answer_rest (picks : list nat) : forall (s : State),
  view s = ViewQuiz -> picks <> [] ->
  length (userAnswers s) = length (quiz s) ->
  (currentQuestionIndex s + length picks = length (quiz s))%nat ->
  (forall j q pick, quiz s !! (currentQuestionIndex s + j)%nat = Some q ->
     picks !! j = Some pick ->
     exists a : jsstring, QuizQuestion.options q !! pick = Some a /\ a <> []) ->
  let s' := run toLowerCase s (answerAll picks) in
  view s' = ViewResults /\ quiz s' = quiz s /\
  userAnswers s'
  = take (currentQuestionIndex s) (userAnswers s)
    ++ chosen (drop (currentQuestionIndex s) (quiz s)) picks.
Proof.
  induction picks as [|pick picks IH]; intros s Hv Hne Hlen Hidx Hpicks; [done|].
  simpl in Hidx.
  destruct (lookup_lt_is_Some_2 (quiz s) (currentQuestionIndex s) ltac:(lia))
    as [q Hq].
  destruct (Hpicks 0%nat q pick) as (a & Ha & Hane);
    [by rewrite Nat.add_0_r|done|].
  pose proof (answer_one s q pick a Hv Hq Hlen Ha Hane) as Hone.
  change (answerAll (pick :: picks))
    with ([Clicked (ChooseOption pick); Clicked NextQuestion] ++ answerAll picks).
  unfold run in *. rewrite foldl_app.
  set (s1 := foldl (step toLowerCase) s
               [Clicked (ChooseOption pick); Clicked NextQuestion]) in *.
  destruct Hone as (Hquiz & Hua & Hnext).
  assert (chosen (drop (currentQuestionIndex s) (quiz s)) (pick :: picks)
          = Some a :: chosen (drop (S (currentQuestionIndex s)) (quiz s)) picks)
    as ->.
  { rewrite (drop_S _ _ _ Hq). unfold chosen. cbn [zip_with]. by rewrite Ha. }
  assert (take (S (currentQuestionIndex s)) (userAnswers s1)
          = take (currentQuestionIndex s) (userAnswers s) ++ [Some a]) as Htake.
  { rewrite Hua. erewrite take_S_r by (apply list_lookup_insert_eq; lia).
    by rewrite take_insert_ge by lia. }
  case_decide as Hlast.
  - destruct Hnext as [Hv1 Hi1]. destruct picks as [|pick' picks]; [simpl in *; lia|].
    destruct (IH s1 Hv1 ltac:(done)) as (Hv' & Hq' & Hua').
    + by rewrite Hua, length_insert, Hquiz.
    + rewrite Hi1, Hquiz. simpl in *. lia.
    + intros j q' pick'' Hq'' Hp''. rewrite Hi1, Hquiz in Hq''.
      apply (Hpicks (S j) q' pick''); [|done].
      by replace (currentQuestionIndex s + S j)%nat
        with (S (currentQuestionIndex s) + j)%nat by lia.
    + split; [done|]. split; [congruence|].
      rewrite Hua', Hi1, Hquiz, Htake. by rewrite <- app_assoc.
  - assert (picks = []) as -> by (destruct picks; [done|simpl in *; lia]).
    simpl. split; [done|]. split; [done|].
    unfold chosen. rewrite zip_with_nil_r.
    rewrite <- Htake. rewrite take_ge; [done|].
    rewrite Hua, length_insert. simpl in *. lia.
Qed.

End AnswerAll.

Section FlowResults.
Import App FlowSpec.

Lemma percentage_full (quiz : list QuizQuestion.t) (answers : list jsstring) :
  quiz <> [] -> (length quiz <= 200)%nat ->
  Results.score quiz answers = Z.of_nat (length quiz) ->
  Results.percentage quiz answers = Some 100.
Proof.
  intros Hne Hlen Hs.
  destruct (percentage_checked quiz answers Hne Hlen) as (p & Hp & _ & Hfull & _).
  by rewrite Hp, (Hfull Hs).
Qed.

Lemma chosen_correct (quiz : list QuizQuestion.t) : forall (picks : list nat),
  length picks = length quiz ->
  (forall j q pick, quiz !! j = Some q -> picks !! j = Some pick ->
     QuizQuestion.options q !! pick = Some (QuizQuestion.correctAnswer q)) ->
  texts (chosen quiz picks) = QuizQuestion.correctAnswer <$> quiz.
Proof.
  induction quiz as [|q quiz IH]; intros picks Hlen Hpicks.
  - by destruct picks.
  - destruct picks as [|pick picks]; [done|]. unfold texts, chosen. cbn [zip_with].
    rewrite (Hpicks 0%nat q pick eq_refl eq_refl). csimpl. f_equal.
    apply IH; [simpl in Hlen; lia|].
    intros j q' pick' Hq' Hp'. by apply (Hpicks (S j)).
Qed.

Lemma startQuiz_clicked (toLowerCase : jsstring -> jsstring) (s : State) :
  view s = ViewStory ->
  let s1 := step toLowerCase s (Clicked StartQuiz) in
  view s1 = ViewQuiz /\ quiz s1 = quiz s /\
  userAnswers s1 = userAnswers s /\ currentQuestionIndex s1 = 0%nat.
Proof.
  intros Hv. destruct s. simpl in *. subst view0.
  unfold step, enabled, onClick, startQuiz, renderedIsSpeaking. simpl.
  by destruct (Playback.isSpeakingRef player0).
Qed.

End FlowResults.

(** X19. In every state the component reaches, whatever the clicks, the
    answers of the content service and the playback events: [userAnswers]
    has one entry for each question of the quiz and no hole; when the quiz
    has a question, the current index designates one, so the quiz screen
    has a question to show; on the configuration screen there is no story,
    no quiz, no vocabulary and no answer; and a request is in flight only
    on the configuration screen. *)
Theorem answers_track_the_quiz (toLowerCase : jsstring -> jsstring)
    (android throws : bool) (tr : list App.Event) :
  let s := App.run toLowerCase (App.initial android throws) tr in
  length (App.userAnswers s) = length (App.quiz s) /\
  Forall is_Some (App.userAnswers s) /\
  (App.quiz s <> [] -> is_Some (App.question s)) /\
  (App.view s = App.ViewConfig ->
     Playback.story (App.player s) = [] /\ App.quiz s = [] /\
     App.vocabulary s = [] /\ App.userAnswers s = [] /\
     App.currentQuestionIndex s = 0%nat) /\
  (App.isLoading s = true -> App.view s = App.ViewConfig).
Proof.
  intros s.
  pose proof (flow_run toLowerCase tr _ (flow_initial android throws))
    as (Hlen & Hans & Hidx & Hcfg & Hload & _).
  fold s in Hlen, Hans, Hidx, Hcfg, Hload.
  split; [done|]. split; [|split; [|split]].
  - apply Forall_lookup. intros j x Hx.
    apply lookup_lt_Some in Hx as Hj. rewrite Hlen in Hj.
    destruct (Hans j Hj) as [E|(q & a & _ & E & _)]; rewrite E in Hx;
      injection Hx as <-; by eexists.
  - intros Hne. apply lookup_lt_is_Some_2. by apply Hidx.
  - intros Hv. destruct (Hcfg Hv) as (Hs & Hq & Hvoc & Hi).
    repeat split; try done. rewrite Hq in Hlen. by destruct (App.userAnswers s).
  - intros Hl. destruct (App.view s) eqn:Hv; [done|..];
      by rewrite Hload in Hl.
Qed.

Lemma answers_track_the_quiz_witness :
  let result := App.mkGenerated (js "Hi there.")
                  [Quiz.rawItem ["A) Paris"; "B) London"]%string "B";
                   Quiz.rawItem ["Cat"; "Dog"]%string "A"] [] in
  let tr := [App.Clicked App.StartLearning; App.Fulfilled result;
             App.Clicked App.StartQuiz; App.Clicked (App.ChooseOption 1)] in
  let s := App.run toLowerCaseAscii (App.initial false false) tr in
  App.userAnswers s = [Some (js "London"); Some []] /\
  length (App.userAnswers s) = length (App.quiz s) /\
  is_Some (App.question s).
Proof.
  intros result tr s.
  destruct (answers_track_the_quiz toLowerCaseAscii false false tr)
    as (Hlen & _ & Hq & _).
  split; [reflexivity|]. split; [exact Hlen|]. apply Hq. by vm_compute.
Defined.

(** X20. The next button leads on only from an answered question, and the
    results screen is reached only with every question answered: in every
    state the component reaches, on the quiz screen every question before
    the current one, and on the results screen every question of the quiz,
    which is not empty, has an answer that is not empty and is one of the
    options of the question, so that the results screen finds a letter for
    it. *)
Theorem results_need_every_answer (toLowerCase : jsstring -> jsstring)
    (android throws : bool) (tr : list App.Event) :
  let s := App.run toLowerCase (App.initial android throws) tr in
  (App.view s = App.ViewQuiz ->
   forall j, (j < App.currentQuestionIndex s)%nat -> FlowSpec.answered s j) /\
  (App.view s = App.ViewResults ->
   App.quiz s <> [] /\
   forall j q, App.quiz s !! j = Some q ->
     exists a : jsstring,
       App.userAnswers s !! j = Some (Some a) /\ a <> [] /\
       a ∈ QuizQuestion.options q /\
       is_Some (Screens.letterOf (QuizQuestion.options q) (Some a))).
Proof.
  intros s.
  pose proof (flow_run toLowerCase tr _ (flow_initial android throws))
    as (_ & _ & _ & _ & _ & Hquiz & Hres).
  fold s in Hquiz, Hres. split; [done|].
  intros Hv. destruct (Hres Hv) as [Hne Hall]. split; [done|].
  intros j q Hq. apply lookup_lt_Some in Hq as Hj.
  destruct (Hall j Hj) as (q' & a & Hq' & Ha & Hane & Hin).
  assert (q' = q) as -> by congruence.
  exists a. split; [done|]. split; [done|]. split; [done|].
  destruct (letterOf_member _ _ Hin) as (idx & _ & Hidx & _).
  unfold Screens.letterOf. rewrite Hidx.
  destruct (Z.leb_spec 0 (Z.of_nat idx)); [by eexists|lia].
Qed.

Lemma results_need_every_answer_witness :
  let result := App.mkGenerated (js "Hi there.")
                  [Quiz.rawItem ["A) Paris"; "B) London"]%string "B";
                   Quiz.rawItem ["Cat"; "Dog"]%string "A"] [] in
  let tr := [App.Clicked App.StartLearning; App.Fulfilled result;
             App.Clicked App.StartQuiz;
             App.Clicked App.NextQuestion;
             App.Clicked (App.ChooseOption 1); App.Clicked App.NextQuestion;
             App.Clicked (App.ChooseOption 0); App.Clicked App.NextQuestion] in
  let s := App.run toLowerCaseAscii (App.initial false false) tr in
  App.view s = App.ViewResults /\
  App.userAnswers s = [Some (js "London"); Some (js "Cat")] /\
  App.quiz s <> [] /\
  exists a : jsstring, App.userAnswers s !! 1%nat = Some (Some a) /\ a <> [].
Proof.
  intros result tr s.
  assert (App.view s = App.ViewResults) as Hv by reflexivity.
  destruct (proj2 (results_need_every_answer toLowerCaseAscii false false tr) Hv)
    as [Hne Hall].
  destruct (Hall 1%nat _ eq_refl) as (a & Ha & Hane & _).
  split; [exact Hv|]. split; [reflexivity|]. split; [exact Hne|].
  exists a. split; [exact Ha|exact Hane].
Defined.

(** X21. A quiz can be taken to its end: from the story screen, with one
    answer slot for each question, pressing Start Quiz and then, for each
    question in turn, one of its options that is not empty and the next
    button, shows the results screen with exactly the chosen texts as
    answers; when each chosen option is the correct answer of its
    question, the score is the number of questions and, for a quiz of up
    to 200 questions, the percentage the source computes is 100. *)
Theorem answering_reaches_results (toLowerCase : jsstring -> jsstring)
    (s : App.State) (picks : list nat) :
  App.view s = App.ViewStory ->
  length (App.userAnswers s) = length (App.quiz s) ->
  picks <> [] -> length picks = length (App.quiz s) ->
  (forall j q pick, App.quiz s !! j = Some q -> picks !! j = Some pick ->
     exists a : jsstring, QuizQuestion.options q !! pick = Some a /\ a <> []) ->
  let s' := App.run toLowerCase s
              (App.Clicked App.StartQuiz :: FlowSpec.answerAll picks) in
  App.view s' = App.ViewResults /\ App.quiz s' = App.quiz s /\
  App.userAnswers s' = FlowSpec.chosen (App.quiz s) picks /\
  ((forall j q pick, App.quiz s !! j = Some q -> picks !! j = Some pick ->
      QuizQuestion.options q !! pick = Some (QuizQuestion.correctAnswer q)) ->
   Results.score (App.quiz s') (FlowSpec.answers s')
     = Z.of_nat (length (App.quiz s)) /\
   ((length (App.quiz s) <= 200)%nat ->
    Results.percentage (App.quiz s') (FlowSpec.answers s') = Some 100)).
Proof.
  intros Hv Hlen Hne Hpicks Hopts s'.
  set (s1 := App.step toLowerCase s (App.Clicked App.StartQuiz)).
  destruct (startQuiz_clicked toLowerCase s Hv) as (Hv1 & Hq1 & Hu1 & Hi1).
  fold s1 in Hv1, Hq1, Hu1, Hi1.
  destruct (answer_rest toLowerCase picks s1 Hv1 Hne) as (Hv' & Hq' & Hu').
  - by rewrite Hu1, Hq1.
  - by rewrite Hi1, Hq1.
  - intros j q pick. rewrite Hi1, Hq1. apply Hopts.
  - rewrite Hi1, Hq1 in Hu'. simpl in Hu'.
    change (App.run toLowerCase s1 (FlowSpec.answerAll picks)) with s' in *.
    split; [done|]. split; [congruence|]. split; [done|].
    intros Hcorrect.
    assert (Results.score (App.quiz s') (FlowSpec.answers s')
            = Z.of_nat (length (App.quiz s))) as Hs.
    { unfold FlowSpec.answers. rewrite Hu', Hq', Hq1, drop_0.
      rewrite (chosen_correct _ picks Hpicks Hcorrect). apply score_all_correct. }
    split; [done|]. intros Hsize. apply percentage_full.
    + rewrite Hq', Hq1. intros E. rewrite E in Hpicks. by destruct picks.
    + by rewrite Hq', Hq1.
    + by rewrite Hs, Hq', Hq1.
Qed.

Lemma answering_reaches_results_witness :
  let result := App.mkGenerated (js "Hi there.")
                  [Quiz.rawItem ["A) Paris"; "B) London"]%string "B";
                   Quiz.rawItem ["Cat"; "Dog"]%string "A"] [] in
  let s := App.run toLowerCaseAscii (App.initial false false)
             [App.Clicked App.StartLearning; App.Fulfilled result] in
  let picks := [1; 0]%nat in
  let s' := App.run toLowerCaseAscii s
              (App.Clicked App.StartQuiz :: FlowSpec.answerAll picks) in
  App.view s = App.ViewStory /\
  App.view s' = App.ViewResults /\
  App.userAnswers s' = [Some (js "London"); Some (js "Cat")] /\
  Results.percentage (App.quiz s') (FlowSpec.answers s') = Some 100.
Proof.
  intros result s picks s'.
  assert (App.view s = App.ViewStory) as Hv by reflexivity.
  assert (length (App.userAnswers s) = length (App.quiz s)) as Hlen by reflexivity.
  assert (picks <> []) as Hne by done.
  assert (length picks = length (App.quiz s)) as Hpicks by reflexivity.
  assert (forall j q pick, App.quiz s !! j = Some q -> picks !! j = Some pick ->
            QuizQuestion.options q !! pick = Some (QuizQuestion.correctAnswer q))
    as Hcorrect.
  { intros [|[|j]] q pick Hq Hp; try done;
      injection Hq as <-; injection Hp as <-; reflexivity. }
  assert (forall j q pick, App.quiz s !! j = Some q -> picks !! j = Some pick ->
            exists a : jsstring, QuizQuestion.options q !! pick = Some a /\ a <> [])
    as Hopts.
  { intros [|[|j]] q pick Hq Hp; try done;
      injection Hq as <-; injection Hp as <-; by eexists. }
  destruct (answering_reaches_results toLowerCaseAscii s picks Hv Hlen Hne Hpicks
              Hopts) as (Hv' & _ & Hu' & Hfull).
  split; [exact Hv|]. split; [exact Hv'|]. split; [exact Hu'|].
  apply (proj2 (Hfull Hcorrect)). simpl. lia.
Defined.

(** ** Cleaning the answer of the content service *)

Section TrimFacts.
Implicit Types (s a b : jsstring) (c : N).

Lemma trimStart_app a b :
  trimStart (a ++ b)
  = match trimStart a with [] => trimStart b | _ :: _ => trimStart a ++ b end.
Proof.
  induction a as [|c a IH]; [done|]. simpl.
  destruct (isWhiteSpace c); [exact IH|done].
Qed.

Lemma trimStart_nil s :
  trimStart s = [] <-> Forall (fun c => isWhiteSpace c = true) s.
Proof.
  induction s as [|c s IH]; [by split; [constructor|]|]. simpl.
  destruct (isWhiteSpace c) eqn:E.
  - rewrite IH. split; [by constructor|by inversion 1].
  - split; [done|]. inversion 1. congruence.
Qed.

Lemma trimStart_head s c r : trimStart s = c :: r -> isWhiteSpace c = false.
Proof.
  induction s as [|x s IH]; [done|]. simpl.
  destruct (isWhiteSpace x) eqn:E; [exact IH|]. by intros [= <- _].
Qed.

Lemma trimStart_suffix s : exists pre, s = pre ++ trimStart s.
Proof.
  induction s as [|c s [pre IH]]; [by exists []|]. simpl.
  destruct (isWhiteSpace c).
  - exists (c :: pre). simpl. by rewrite <- IH.
  - by exists [].
Qed.

Lemma trimEnd_cons c s :
  trimEnd (c :: s)
  = match trimEnd s with
    | [] => if isWhiteSpace c then [] else [c]
    | _ :: _ => c :: trimEnd s
    end.
Proof.
  unfold trimEnd. rewrite reverse_cons, trimStart_app.
  destruct (trimStart (reverse s)) as [|x r] eqn:E.
  - simpl. by destruct (isWhiteSpace c).
  - rewrite reverse_app. simpl.
    destruct (reverse (x :: r)) eqn:E'; [|done].
    apply (f_equal reverse) in E'. rewrite reverse_involutive in E'. done.
Qed.

Lemma trimEnd_nil s :
  trimEnd s = [] <-> Forall (fun c => isWhiteSpace c = true) s.
Proof.
  unfold trimEnd. rewrite <- (Forall_reverse _ s), <- trimStart_nil.
  split; [|by intros ->].
  intros E. apply (f_equal reverse) in E. by rewrite reverse_involutive in E.
Qed.

Lemma trimEnd_app_ws s a :
  Forall (fun c => isWhiteSpace c = true) a -> trimEnd (s ++ a) = trimEnd s.
Proof.
  intros Ha. unfold trimEnd. rewrite reverse_app, trimStart_app.
  apply Forall_reverse in Ha. apply trimStart_nil in Ha. by rewrite Ha.
Qed.

Lemma trimEnd_idem s : trimEnd (trimEnd s) = trimEnd s.
Proof. unfold trimEnd. by rewrite reverse_involutive, trimStart_idem. Qed.

Lemma trimStart_trimEnd s :
  trimStart (trimEnd (trimStart s)) = trimEnd (trimStart s).
Proof.
  destruct (trimStart s) as [|c r] eqn:E; [done|].
  pose proof (trimStart_head _ _ _ E) as Hc. rewrite trimEnd_cons.
  destruct (trimEnd r); rewrite ?Hc; simpl; by rewrite Hc.
Qed.

Lemma trim_idem s : trim (trim s) = trim s.
Proof. unfold trim. by rewrite trimStart_trimEnd, trimEnd_idem. Qed.

Lemma trim_padded a s b :
  Forall (fun c => isWhiteSpace c = true) a ->
  Forall (fun c => isWhiteSpace c = true) b ->
  trim (a ++ s ++ b) = trim s.
Proof.
  intros Ha Hb. unfold trim. rewrite trimStart_app.
  apply trimStart_nil in Ha. rewrite Ha. rewrite trimStart_app.
  destruct (trimStart s) as [|c r] eqn:E.
  - apply trimStart_nil in Hb. by rewrite Hb.
  - by apply trimEnd_app_ws.
Qed.

End TrimFacts.

Section CleanFacts.
Import Service.
Implicit Types (s raw body : jsstring).

Lemma matchesClose_plain s : 96%N ∉ s -> matchesClose s = false.
Proof.
  intros Hs. unfold matchesClose, eqUnits. apply bool_decide_eq_false. intros E.
  destruct (trimStart_suffix s) as [pre Hpre]. apply Hs. rewrite Hpre, E.
  apply elem_of_app. right. by left.
Qed.

Lemma removeClose_plain s : 96%N ∉ s -> removeClose s = s.
Proof.
  induction s as [|c s IH]; intros Hs; [done|].
  cbn [removeClose]. rewrite matchesClose_plain by done.
  rewrite IH; [done|]. intros Hin. apply Hs. by right.
Qed.

Lemma removeClose_fenced s :
  96%N ∉ s -> removeClose (s ++ fenceClose) = trimEnd s.
Proof.
  induction s as [|c s IH]; intros Hs; [done|].
  assert (96%N ∉ s) as Hs' by (intros Hin; apply Hs; by right).
  assert (c <> 96%N) as Hc by (intros ->; apply Hs; by left).
  change ((c :: s) ++ fenceClose) with (c :: (s ++ fenceClose)).
  cbn [removeClose]. rewrite IH by done. rewrite trimEnd_cons.
  unfold matchesClose, eqUnits. cbn [trimStart].
  destruct (isWhiteSpace c) eqn:Ews.
  - rewrite trimStart_app.
    destruct (trimStart s) as [|x r] eqn:E.
    + rewrite bool_decide_eq_true_2 by done.
      apply trimStart_nil, trimEnd_nil in E. by rewrite E.
    + rewrite bool_decide_eq_false_2.
      * destruct (trimEnd s) eqn:E'; [|done].
        apply trimEnd_nil, trimStart_nil in E'. congruence.
      * intros Heq. apply (f_equal length) in Heq.
        rewrite length_app in Heq. simpl in Heq. lia.
  - rewrite bool_decide_eq_false_2 by (intros [= ? _]; done).
    by destruct (trimEnd s).
Qed.

Lemma startsWith_app p s : startsWith p (p ++ s) = true.
Proof. induction p as [|c p IH]; [done|]. simpl. by rewrite N.eqb_refl. Qed.

Lemma startsWith_head c p s : startsWith (c :: p) s = true -> c ∈ s.
Proof.
  destruct s as [|x s]; [done|]. simpl.
  intros [->%N.eqb_eq _]%andb_true_iff. by left.
Qed.

End CleanFacts.

(** X22. The cleaning of the answer of the service unwraps a fenced
    answer and leaves any other alone: a text without a backquote is only
    trimmed; a text made of the opening fence, white space, a body without
    a backquote, white space and the closing fence becomes the trimmed
    body; and the result is always trimmed. *)
Theorem clean_unwraps_fences :
  (forall raw, 96%N ∉ raw -> Service.clean raw = trim raw) /\
  (forall before body after,
     Forall (fun c => isWhiteSpace c = true) before ->
     Forall (fun c => isWhiteSpace c = true) after ->
     96%N ∉ body ->
     Service.clean (Service.fenceOpen ++ before ++ body ++ after
                      ++ Service.fenceClose)
     = trim body) /\
  (forall raw, trim (Service.clean raw) = Service.clean raw).
Proof.
  split; [|split].
  - intros raw Hraw. unfold Service.clean, Service.matchOpen.
    destruct (startsWith Service.fenceOpen raw) eqn:E.
    + apply startsWith_head in E. done.
    + by rewrite removeClose_plain.
  - intros before body after Hb Ha Hbody.
    unfold Service.clean, Service.matchOpen.
    rewrite startsWith_app, drop_app_length.
    replace (before ++ body ++ after ++ Service.fenceClose)
      with ((before ++ body ++ after) ++ Service.fenceClose)
      by (by rewrite <- !app_assoc).
    assert (96%N ∉ before ++ body ++ after) as Hplain.
    { rewrite !elem_of_app. intros [Hin|[Hin|Hin]]; [|done|].
      - by specialize (proj1 (Forall_forall _ _) Hb _ Hin).
      - by specialize (proj1 (Forall_forall _ _) Ha _ Hin). }
    assert (trimStart ((before ++ body ++ after) ++ Service.fenceClose)
            = trimStart (before ++ body ++ after) ++ Service.fenceClose) as ->.
    { rewrite trimStart_app. by destruct (trimStart (before ++ body ++ after)). }
    rewrite removeClose_fenced.
    + change (trimEnd (trimStart (before ++ body ++ after)))
        with (trim (before ++ body ++ after)).
      by rewrite trim_idem, trim_padded.
    + intros Hin. apply Hplain.
      destruct (trimStart_suffix (before ++ body ++ after)) as [pre Hpre].
      rewrite Hpre. apply elem_of_app. by right.
  - intros raw. apply trim_idem.
Qed.

Lemma clean_unwraps_fences_witness :
  Forall (fun c => isWhiteSpace c = true) [10%N] /\
  (96%N ∉ js "{}") /\
  Service.clean (Service.fenceOpen ++ [10%N] ++ js "{}" ++ [10%N]
                   ++ Service.fenceClose) = js "{}" /\
  Service.clean (js " {} ") = js "{}".
Proof.
  assert (Forall (fun c => isWhiteSpace c = true) [10%N]) as Hws
    by (by repeat constructor).
  assert (96%N ∉ js "{}") as Hbody.
  { intros Hin. repeat (apply elem_of_cons in Hin as [?|Hin]; [done|]).
    by apply elem_of_nil in Hin. }
  assert (96%N ∉ js " {} ") as Hraw.
  { intros Hin. repeat (apply elem_of_cons in Hin as [?|Hin]; [done|]).
    by apply elem_of_nil in Hin. }
  destruct clean_unwraps_fences as (Hplain & Hfenced & _).
  split; [exact Hws|]. split; [exact Hbody|]. split.
  - exact (Hfenced [10%N] (js "{}") [10%N] Hws Hws Hbody).
  - exact (Hplain (js " {} ") Hraw).
Defined.

(** ** Retries of the content service client *)

Section RetryFacts.
Import Service.
Variables (fetch : nat -> Attempt) (tries : nat).

(** How the loop ends, from iteration [i] on. *)
Lemma retryLoop_spec (left : nat) : forall i lastErr waited,
  (left + i = tries)%nat -> (0 < left)%nat ->
  let out := retryLoop fetch tries left i lastErr waited in
  (i < calls out <= tries)%nat /\
  (forall j, (i <= j)%nat -> (S j < calls out)%nat ->
     exists e, failure fetch j = Some e /\ retryable e = true) /\
  delays out
  = waited ++ ((fun j => 600 * (Z.of_nat j + 1)) <$> seq i (calls out - 1 - i)) /\
  match failure fetch (calls out - 1) with
  | None => exists res, fetch (calls out - 1)%nat = Responded res /\
                        ok res = true /\ result out = inl res
  | Some e => result out = inr (Some e) /\
              (retryable e = false \/ calls out = tries)
  end.
Proof.
  induction left as [|left IH]; intros i lastErr waited Hsum Hpos; [lia|].
  assert (forall e, failure fetch i = Some e ->
    let out := if negb (retryable e) || (Z.of_nat i =? Z.of_nat tries - 1)
               then mkOutcome (inr (Some e)) (S i) waited
               else retryLoop fetch tries left (S i) (Some e)
                      (waited ++ [600 * (Z.of_nat i + 1)]) in
    (i < calls out <= tries)%nat /\
    (forall j, (i <= j)%nat -> (S j < calls out)%nat ->
       exists e, failure fetch j = Some e /\ retryable e = true) /\
    delays out
    = waited ++ ((fun j => 600 * (Z.of_nat j + 1)) <$> seq i (calls out - 1 - i)) /\
    match failure fetch (calls out - 1) with
    | None => exists res, fetch (calls out - 1)%nat = Responded res /\
                          ok res = true /\ result out = inl res
    | Some e => result out = inr (Some e) /\
                (retryable e = false \/ calls out = tries)
    end) as Hcaught.
  { intros e He out. subst out.
    destruct (retryable e) eqn:Er; simpl negb; cbn [orb].
    - destruct (Z.eqb_spec (Z.of_nat i) (Z.of_nat tries - 1)) as [Hlast|Hmore].
      + cbn [calls delays result]. replace (S i - 1)%nat with i by lia.
        rewrite He, Nat.sub_diag. simpl. rewrite app_nil_r.
        split; [lia|]. split; [intros; lia|]. split; [done|].
        split; [done|]. right. lia.
      + destruct (IH (S i) (Some e) (waited ++ [600 * (Z.of_nat i + 1)]))
          as (Hc & Hall & Hd & Hend); [lia|lia|].
        split; [lia|]. split; [|split; [|done]].
        * intros j Hj Hjc. destruct (decide (j = i)) as [->|Hne]; [by exists e|].
          apply Hall; [lia|done].
        * rewrite Hd, <- app_assoc. f_equal.
          replace (calls _ - 1 - i)%nat with (S (calls
            (retryLoop fetch tries left (S i) (Some e)
               (waited ++ [600 * (Z.of_nat i + 1)])) - 1 - S i)) by lia.
          done.
    - cbn [calls delays result]. replace (S i - 1)%nat with i by lia.
      rewrite He, Nat.sub_diag. simpl. rewrite app_nil_r.
      split; [lia|]. split; [intros; lia|]. split; [done|].
      split; [done|]. by left. }
  intros out. subst out. cbn [retryLoop].
  unfold failure in Hcaught. destruct (fetch i) as [res|name message] eqn:Ef.
  - destruct (ok res) eqn:Eok; [|by apply Hcaught].
    cbn [calls delays result]. replace (S i - 1)%nat with i by lia.
    unfold failure. rewrite Ef, Eok, Nat.sub_diag. simpl. rewrite app_nil_r.
    split; [lia|]. split; [intros; lia|]. split; [done|]. by exists res.
  - by apply Hcaught.
Qed.

End RetryFacts.

(** X23. The retry policy of [fetchWithRetry], for a positive number of
    tries: it calls [fetch] at least once and at most [tries] times; every
    call but the last one failed in a way that may be retried (an abort, a
    status 429, 502, 503 or 504, or a message that reads as transient); it
    waited 600 ms after the first failure, 1200 ms after the second, and so
    on; and it ends with the first response that is [ok], or throws the
    first failure that may not be retried, or the failure of the last try. *)
Theorem fetch_retry_policy (fetch : nat -> Service.Attempt) (tries : nat) :
  (0 < tries)%nat ->
  let out := Service.fetchWithRetry fetch tries in
  let k := Service.calls out in
  (1 <= k <= tries)%nat /\
  (forall j, (S j < k)%nat ->
     exists e, Service.failure fetch j = Some e /\ Service.retryable e = true) /\
  Service.delays out = (fun j => 600 * (Z.of_nat j + 1)) <$> seq 0 (k - 1) /\
  match Service.failure fetch (k - 1) with
  | None => exists res, fetch (k - 1)%nat = Service.Responded res /\
                        Service.ok res = true /\ Service.result out = inl res
  | Some e => Service.result out = inr (Some e) /\
              (Service.retryable e = false \/ k = tries)
  end.
Proof.
  intros Hpos out k. subst k out. unfold Service.fetchWithRetry.
  destruct (retryLoop_spec fetch tries tries 0 None [] ltac:(lia) Hpos)
    as (Hc & Hall & Hd & Hend).
  split; [lia|]. split; [intros j Hj; apply Hall; [lia|done]|].
  split; [|done]. rewrite Hd. simpl. by rewrite Nat.sub_0_r.
Qed.

Lemma fetch_retry_policy_witness :
  let busy := Service.Responded (Service.mkResponse false 503 None) in
  let fine := Service.Responded (Service.mkResponse true 200 (Some (js "{}"))) in
  let fetch := fun k : nat => match k with O => busy | _ => fine end in
  let out := Service.fetchWithRetry fetch 2 in
  Service.failure fetch 0
    = Some (Service.mkThrown (js "Error") 503 (js "HTTP 503")) /\
  Service.calls out = 2%nat /\ Service.delays out = [600] /\
  Service.result out = inl (Service.mkResponse true 200 (Some (js "{}"))).
Proof.
  intros busy fine fetch out.
  destruct (fetch_retry_policy fetch 2 ltac:(lia)) as (_ & _ & Hd & Hend).
  split; [reflexivity|]. split; [reflexivity|]. split; [exact Hd|].
  destruct Hend as (res & Hres & _ & Hout).
  vm_compute in Hres. injection Hres as <-. exact Hout.
Defined.
